(** * XSH expression engine: a shallow embedding of the parse / evaluate pipeline

    The development follows the TypeScript sources of the engine:
    [utilities.ts], [variables.ts], [commands.ts], [convert.ts], [parser.ts],
    the core plugin (rules of the categories command, math, convert, template
    and parse) and the [ext-js] template plugin.

    Conventions of the embedding.
    - A JavaScript string is a [string] of 8-bit characters; the whitespace
      class of regular expressions and of [trim] is the set of code units
      9..13, 32 and 160.
    - A JavaScript number is a binary64 [float].
    - Objects are association lists in insertion order; the scope object and
      the process-wide variable store are two such lists kept in [State].
      Objects are values (trees): an assignment through a path rebuilds the
      spine it went through.
    - Every evaluation returns an [Outcome]: a value together with the state,
      a thrown exception together with the state, or [Halt] when the model
      ran out of fuel or met a JavaScript behaviour outside of its scope
      (prototype methods, number formatting of non-integers, ...). *)

From Stdlib Require Import List String Ascii Bool Arith ZArith Lia.
From Stdlib Require Import Floats DecimalString.
From Stdlib Require Import Sorted Permutation.
Import ListNotations.
Open Scope string_scope.
Open Scope list_scope.
Open Scope nat_scope.

Set Implicit Arguments.
Set Warnings "-register-all".

(* ------------------------------------------------------------------ *)
(** ** Characters and strings *)

Definition is_space (c : ascii) : bool :=
  let n := nat_of_ascii c in
  ((9 <=? n) && (n <=? 13)) || (n =? 32) || (n =? 160).

Definition is_digit (c : ascii) : bool :=
  let n := nat_of_ascii c in (48 <=? n) && (n <=? 57).

Definition is_upper (c : ascii) : bool :=
  let n := nat_of_ascii c in (65 <=? n) && (n <=? 90).

Definition is_lower (c : ascii) : bool :=
  let n := nat_of_ascii c in (97 <=? n) && (n <=? 122).

(** [\w] *)
Definition is_word (c : ascii) : bool :=
  is_digit c || is_upper c || is_lower c || Ascii.eqb c "_".

(** Line terminators: excluded by [.], recognised by [^] and [$] under [m]. *)
Definition is_newline (c : ascii) : bool :=
  Ascii.eqb c "010" || Ascii.eqb c "013".

Definition backslash : ascii := "092"%char.
Definition dquote : ascii := "034"%char.
Definition squote : ascii := "039"%char.
Definition backtick : ascii := "096"%char.

Definition lower_char (c : ascii) : ascii :=
  if is_upper c then ascii_of_nat (nat_of_ascii c + 32) else c.

Definition upper_char (c : ascii) : ascii :=
  if is_lower c then ascii_of_nat (nat_of_ascii c - 32) else c.

Fixpoint map_string (f : ascii -> ascii) (s : string) : string :=
  match s with
  | EmptyString => EmptyString
  | String c s' => String (f c) (map_string f s')
  end.

Definition toLowerCase := map_string lower_char.

Fixpoint forall_string (p : ascii -> bool) (s : string) : bool :=
  match s with
  | EmptyString => true
  | String c s' => p c && forall_string p s'
  end.

Fixpoint exists_string (p : ascii -> bool) (s : string) : bool :=
  match s with
  | EmptyString => false
  | String c s' => p c || exists_string p s'
  end.

(** [drop_prefix p s = Some r] iff [s = p ++ r]. *)
Fixpoint drop_prefix (p s : string) : option string :=
  match p, s with
  | EmptyString, _ => Some s
  | String a p', String b s' => if Ascii.eqb a b then drop_prefix p' s' else None
  | String _ _, EmptyString => None
  end.

Definition startsWith (s p : string) : bool :=
  match drop_prefix p s with Some _ => true | None => false end.

Fixpoint rev_string (s acc : string) : string :=
  match s with
  | EmptyString => acc
  | String c s' => rev_string s' (String c acc)
  end.

Definition endsWith (s p : string) : bool :=
  startsWith (rev_string s "") (rev_string p "").

(** [s.includes(k)] *)
Fixpoint includes (s k : string) : bool :=
  match s with
  | EmptyString => match k with EmptyString => true | _ => false end
  | String _ s' => startsWith s k || includes s' k
  end.

Fixpoint skip_spaces (s : string) : string :=
  match s with
  | String c s' => if is_space c then skip_spaces s' else s
  | EmptyString => EmptyString
  end.

Fixpoint count_while (p : ascii -> bool) (s : string) : nat :=
  match s with
  | String c s' => if p c then S (count_while p s') else 0
  | EmptyString => 0
  end.

Fixpoint drop (n : nat) (s : string) : string :=
  match n, s with
  | S n', String _ s' => drop n' s'
  | _, _ => s
  end.

(** [s.trim()] *)
Definition trim (s : string) : string :=
  rev_string (skip_spaces (rev_string (skip_spaces s) "")) "".

(** [s.substring(1, s.length - 1)] *)
Definition strip_ends (s : string) : string :=
  substring 1 (length s - 2) s.

(** [s.split(sep)] for a non-empty separator: the pieces between the
    non-overlapping occurrences of [sep], scanning from the left.  [skip]
    counts the characters of the occurrence still to pass. *)
Fixpoint split_go (sep s cur : string) (skip : nat) : list string :=
  match s with
  | EmptyString => [cur]
  | String c s' =>
      match skip with
      | S k => split_go sep s' cur k
      | O =>
          if startsWith s sep
          then cur :: split_go sep s' "" (length sep - 1)
          else split_go sep s' (cur ++ String c "") 0
      end
  end.

Definition split (s sep : string) : list string := split_go sep s "" 0.

(** [s.split('')] *)
Fixpoint split_chars (s : string) : list string :=
  match s with
  | EmptyString => []
  | String c s' => String c "" :: split_chars s'
  end.

Fixpoint join (sep : string) (l : list string) : string :=
  match l with
  | [] => ""
  | [x] => x
  | x :: l' => x ++ sep ++ join sep l'
  end.

(* ------------------------------------------------------------------ *)
(** ** Regular expressions

    The regular expressions of the sources are values of [Regex]; [matches]
    is the backtracking matcher of ECMAScript in continuation style.  A
    look-around assertion of the sources always concerns one character, so
    [Assert] tests the character before and the character after the
    position ([None] at the borders of the input). *)

Inductive Regex : Type :=
| Empty
| Char (p : ascii -> bool)
| Assert (p : option ascii -> option ascii -> bool)
| Seq (r1 r2 : Regex)
| Alt (r1 r2 : Regex)
| Star (greedy : bool) (r : Regex)
| Group (i : nat) (r : Regex)
| Backref (i : nat).

Definition Captures := list (nat * string).

(** The text of group [i]; a group that did not take part is empty. *)
Fixpoint capture (i : nat) (caps : Captures) : string :=
  match caps with
  | [] => ""
  | (j, t) :: caps' => if i =? j then t else capture i caps'
  end.

Definition head_char (s : string) : option ascii :=
  match s with String c _ => Some c | EmptyString => None end.

Fixpoint last_char (s : string) (prev : option ascii) : option ascii :=
  match s with
  | EmptyString => prev
  | String c s' => last_char s' (Some c)
  end.

Definition Cont := option ascii -> string -> Captures -> option (string * Captures).

(** [matches r prev s caps k]: match [r] at the head of [s], [prev] being
    the character before, then continue with [k] on the rest.  An iteration
    of [Star] that consumes nothing fails. *)
Fixpoint matches (r : Regex) (prev : option ascii) (s : string) (caps : Captures)
    (k : Cont) {struct r} : option (string * Captures) :=
  match r with
  | Empty => k prev s caps
  | Char p =>
      match s with
      | String c s' => if p c then k (Some c) s' caps else None
      | EmptyString => None
      end
  | Assert p => if p prev (head_char s) then k prev s caps else None
  | Seq r1 r2 =>
      matches r1 prev s caps (fun prev' s' caps' => matches r2 prev' s' caps' k)
  | Alt r1 r2 =>
      match matches r1 prev s caps k with
      | Some x => Some x
      | None => matches r2 prev s caps k
      end
  | Star greedy r' =>
      (fix loop (n : nat) (prev : option ascii) (s : string) (caps : Captures)
           {struct n} : option (string * Captures) :=
         match n with
         | O => k prev s caps
         | S n' =>
             let again :=
               matches r' prev s caps
                 (fun prev' s' caps' =>
                    if length s' <? length s then loop n' prev' s' caps' else None) in
             if greedy
             then match again with Some x => Some x | None => k prev s caps end
             else match k prev s caps with Some x => Some x | None => again end
         end) (length s) prev s caps
  | Group i r' =>
      matches r' prev s caps
        (fun prev' s' caps' =>
           k prev' s' ((i, substring 0 (length s - length s') s) :: caps'))
  | Backref i =>
      match drop_prefix (capture i caps) s with
      | Some s' => k (last_char (capture i caps) prev) s' caps
      | None => None
      end
  end.

(** The match of [r] at the head of [s]: its length and its captures. *)
Definition regex_at (r : Regex) (prev : option ascii) (s : string) : option (nat * Captures) :=
  match matches r prev s [] (fun _ s' caps => Some (s', caps)) with
  | Some (s', caps) => Some (length s - length s', caps)
  | None => None
  end.

(** A match of a global search: its text, captures and offset. *)
Record Match : Type := mkMatch {
  m_text : string;
  m_caps : Captures;
  m_offset : nat
}.

(** The matches of [r] in [s] from the left, each with the text that
    precedes it since the previous match, and the text after the last.
    [skip] counts the characters of the last match still to pass. *)
Fixpoint scan (r : Regex) (prev : option ascii) (s : string) (pos skip : nat)
    (before : string) : list (string * Match) * string :=
  match s with
  | EmptyString =>
      match skip, regex_at r prev EmptyString with
      | O, Some (_, caps) => ([(before, mkMatch "" caps pos)], "")
      | _, _ => ([], before)
      end
  | String c s' =>
      match skip with
      | S k => scan r (Some c) s' (S pos) k before
      | O =>
          match regex_at r prev s with
          | Some (n, caps) =>
              let rest := scan r (Some c) s' (S pos) (n - 1)
                            (if n =? 0 then String c "" else "") in
              ((before, mkMatch (substring 0 n s) caps pos) :: fst rest, snd rest)
          | None => scan r (Some c) s' (S pos) 0 (before ++ String c "")
          end
      end
  end.

(** Notations of regular expressions. *)
Definition lit_char (c : ascii) : Regex := Char (Ascii.eqb c).

Fixpoint lit (s : string) : Regex :=
  match s with
  | EmptyString => Empty
  | String c s' => Seq (lit_char c) (lit s')
  end.


Fixpoint char_in (c : ascii) (class : string) : bool :=
  match class with
  | EmptyString => false
  | String a class' => Ascii.eqb c a || char_in c class'
  end.

(** [[...]] and [[^...]] *)
Definition cls (class : string) : Regex := Char (fun c => char_in c class).
Definition not_cls (class : string) : Regex := Char (fun c => negb (char_in c class)).

(** [\s], [\d], [\w], [.] and [[\s\S]] *)
Definition space : Regex := Char is_space.
Definition digit : Regex := Char is_digit.
Definition dot : Regex := Char (fun c => negb (is_newline c)).

Definition Plus (greedy : bool) (r : Regex) : Regex := Seq r (Star greedy r).
Definition Opt (r : Regex) : Regex := Alt r Empty.

Fixpoint seqs (l : list Regex) : Regex :=
  match l with
  | [] => Empty
  | [r] => r
  | r :: l' => Seq r (seqs l')
  end.

Fixpoint alts (l : list Regex) : Regex :=
  match l with
  | [] => Char (fun _ => false)
  | [r] => r
  | r :: l' => Alt r (alts l')
  end.

Definition is_none {A} (o : option A) : bool :=
  match o with None => true | Some _ => false end.

Definition opt_test (p : ascii -> bool) (o : option ascii) : bool :=
  match o with Some c => p c | None => false end.

(** [^] and [$] without the flag [m], and with it *)
Definition bos : Regex := Assert (fun prev _ => is_none prev).
Definition eos : Regex := Assert (fun _ next => is_none next).

(** [(?<!\\)] *)
Definition not_escaped : Regex :=
  Assert (fun prev _ => negb (opt_test (Ascii.eqb backslash) prev)).

(* ------------------------------------------------------------------ *)
(** ** Decimal numerals and binary64 numbers *)

Definition digit_val (c : ascii) : Z := Z.of_nat (nat_of_ascii c - 48).

Fixpoint digits_val (s : string) (acc : Z) : Z :=
  match s with
  | EmptyString => acc
  | String c s' => digits_val s' (10 * acc + digit_val c)%Z
  end.

Definition all_digits (s : string) : bool :=
  match s with EmptyString => false | _ => forall_string is_digit s end.

(** The numeral without its sign. *)
Definition strip_minus (s : string) : string :=
  match s with
  | String c s' => if Ascii.eqb c "-" then s' else s
  | EmptyString => s
  end.

(** [/^-?\d+$/] *)
Definition is_number_literal (s : string) : bool := all_digits (strip_minus s).

(** [/^-?\d+\.\d+$/] *)
Definition is_float_literal (s : string) : bool :=
  match split (strip_minus s) "." with
  | [i; f] => all_digits i && all_digits f
  | _ => false
  end.

(** Nearest binary64 number of [m * 2^e] (ties to even). *)
Definition float_of_scaled (neg : bool) (m e : Z) : float :=
  match m with
  | Zpos p => SF2Prim (SpecFloat.binary_normalize prec emax (if neg then Zneg p else Zpos p) e false)
  | _ => if neg then neg_zero else zero
  end.

(** Nearest binary64 number of the rational [n / d] for [n >= 0], [d > 0]:
    the quotient is computed with more than 64 significant bits and the
    remainder is kept as a sticky bit below them. *)
Definition float_of_ratio (neg : bool) (n d : Z) : float :=
  let s := Z.max 0 (66 + Z.log2 d - Z.log2 n)%Z in
  let q := (n * 2 ^ s / d)%Z in
  let r := (n * 2 ^ s mod d)%Z in
  float_of_scaled neg (2 * q + (if (r =? 0)%Z then 0 else 1))%Z (- s - 1)%Z.

(** [parseInt(s)] on a string accepted by [is_number_literal]. *)
Definition parseInt (s : string) : float :=
  float_of_scaled (startsWith s "-") (digits_val (strip_minus s) 0) 0.

(** [parseFloat(s)] on a string accepted by [is_float_literal]. *)
Definition parseFloat (s : string) : float :=
  let neg := startsWith s "-" in
  match split (strip_minus s) "." with
  | [i; f] =>
      let n := digits_val (i ++ f) 0 in
      if (n =? 0)%Z then (if neg then neg_zero else zero)
      else float_of_ratio neg n (10 ^ Z.of_nat (length f))%Z
  | _ => nan
  end.

(** The integer a number denotes, when it is one. *)
Definition float_to_Z (x : float) : option Z :=
  match Prim2SF x with
  | SpecFloat.S754_zero _ => Some 0%Z
  | SpecFloat.S754_finite sg m e =>
      let v := if sg then Zneg m else Zpos m in
      if (0 <=? e)%Z then Some (v * 2 ^ e)%Z
      else if (Zpos m mod 2 ^ (- e) =? 0)%Z then Some (v / 2 ^ (- e))%Z
      else None
  | _ => None
  end.

Definition Z_to_string (z : Z) : string :=
  NilZero.string_of_int (Z.to_int z).

(** [String(x)] for the numbers whose decimal form needs no rounding: NaN,
    the infinities and the integers below 2^53 in absolute value. *)
Definition number_to_string (x : float) : option string :=
  if is_nan x then Some "NaN"
  else if (x =? infinity)%float then Some "Infinity"
  else if (x =? neg_infinity)%float then Some "-Infinity"
  else match float_to_Z x with
       | Some z => if (Z.abs z <? 2 ^ 53)%Z then Some (Z_to_string z) else None
       | None => None
       end.

(* ------------------------------------------------------------------ *)
(** ** Values *)

(** The closures the template rules store in the scope.  [async] is the
    [async] entry of the template context the closure captured: [None] when
    it is null. *)
Inductive Closure : Type :=
| TplInline (command : string) (async : option bool)
| TplVar (name : string) (async : option bool)
| TplRun (name : string) (async : option bool)
| TplLine (command terminator : string) (async : option bool)
| TplBlock (command block terminator : string) (offset : nat) (async : option bool).

(** The dynamic values of the engine.  A host function is named by an
    identifier and carries the receiver [getFunction] bound it to
    ([VUndefined] when unbound).  A deferred value is a fulfilled promise
    together with the own properties assigned to the promise object. *)
Inductive Value : Type :=
| VUndefined
| VNull
| VBool (b : bool)
| VNum (x : float)
| VStr (s : string)
| VArr (items : list Value)
| VObj (props : list (string * Value))
| VNative (id : string) (this : Value)
| VClosure (c : Closure)
| VPromise (settled : Value) (own : list (string * Value)).

Definition Props := list (string * Value).

Definition isNullish (v : Value) : bool :=
  match v with VUndefined | VNull => true | _ => false end.

Definition isString (v : Value) : bool :=
  match v with VStr _ => true | _ => false end.

Definition isFunction (v : Value) : bool :=
  match v with VNative _ _ | VClosure _ => true | _ => false end.

Definition isArray (v : Value) : bool :=
  match v with VArr _ => true | _ => false end.

(** [value instanceof Object] *)
Definition isObject (v : Value) : bool :=
  match v with
  | VArr _ | VObj _ | VNative _ _ | VClosure _ | VPromise _ _ => true
  | _ => false
  end.

Definition isPromise (v : Value) : bool :=
  match v with VPromise _ _ => true | _ => false end.

(** [a ?? b] *)
Definition nullish_or (a b : Value) : Value :=
  if isNullish a then b else a.

(** [isEmptyString(value, trim)]: the source reads
    [isString(value) && trim ? value.trim() === "" : value === ""]. *)
Definition isEmptyString (v : Value) (trimmed : bool) : bool :=
  if isString v && trimmed
  then match v with VStr s => String.eqb (trim s) "" | _ => false end
  else match v with VStr s => String.eqb s "" | _ => false end.

(** [ToBoolean] *)
Definition truthy (v : Value) : bool :=
  match v with
  | VUndefined | VNull => false
  | VBool b => b
  | VNum x => negb (is_zero x || is_nan x)
  | VStr s => negb (String.eqb s "")
  | _ => true
  end.

(** [typeof v] *)
Definition typeof (v : Value) : string :=
  match v with
  | VUndefined => "undefined"
  | VNull => "object"
  | VBool _ => "boolean"
  | VNum _ => "number"
  | VStr _ => "string"
  | VNative _ _ | VClosure _ => "function"
  | VArr _ | VObj _ | VPromise _ _ => "object"
  end.

(* ------------------------------------------------------------------ *)
(** ** Exceptions, state and outcomes *)

(** The failure kinds of [exceptions.ts]; [JsTypeError] is the engine-level
    TypeError of JavaScript itself. *)
Inductive ErrorKind : Type :=
| PropertyNotFound
| PropertyTypeMismatch
| PropertyRequired
| ParameterTypeInvalid
| VariableTypeInvalid
| AssertFailed
| ArgumentsLengthInvalid
| WrongArgumentPosition
| MathResultInvalid
| JsTypeError.

(** What can be thrown: the [Continue] signal with its payload, or a failure. *)
Inductive Exn : Type :=
| Continue (payload : Value)
| Failure (kind : ErrorKind).

(** The scope object of the running [parse] and the global variable store. *)
Record State : Type := mkState { scope : Props; vars : Props }.

Inductive Stuck : Type := OutOfFuel | Unmodelled.

Inductive Outcome (A : Type) : Type :=
| Ok (a : A) (st : State)
| Throw (e : Exn) (st : State)
| Halt (why : Stuck).

Arguments Throw {A} e st.
Arguments Halt {A} why.

Definition M (A : Type) : Type := State -> Outcome A.

Definition ret {A} (a : A) : M A := fun st => Ok a st.

Definition bind {A B} (m : M A) (k : A -> M B) : M B :=
  fun st =>
    match m st with
    | Ok a st' => k a st'
    | Throw e st' => Throw e st'
    | Halt w => Halt w
    end.

Definition throw {A} (e : Exn) : M A := fun st => Throw e st.

(** [error(new K(...))] *)
Definition error {A} (k : ErrorKind) : M A := throw (Failure k).

Definition halt {A} (w : Stuck) : M A := fun _ => Halt w.

Definition get_state : M State := fun st => Ok st st.

Definition put_state (st : State) : M unit := fun _ => Ok tt st.

(** A result computed outside of the state: [None] is a behaviour the model
    leaves out. *)
Definition modelled {A} (o : option A) : M A :=
  match o with Some a => ret a | None => halt Unmodelled end.

Declare Scope xsh_scope.
Delimit Scope xsh_scope with xsh.
Notation "x <- m ;; k" := (bind m (fun x => k))
  (at level 61, m at next level, right associativity) : xsh_scope.
Notation "m ;;; k" := (bind m (fun _ => k))
  (at level 61, right associativity) : xsh_scope.
Open Scope xsh_scope.

(** [for (const x of l) acc = f(acc, x)] *)
Fixpoint foldM {A B} (f : A -> B -> M A) (l : list B) (acc : A) : M A :=
  match l with
  | [] => ret acc
  | x :: l' => acc' <- f acc x ;; foldM f l' acc'
  end.

Fixpoint mapM {A B} (f : A -> M B) (l : list A) : M (list B) :=
  match l with
  | [] => ret []
  | x :: l' => y <- f x ;; ys <- mapM f l' ;; ret (y :: ys)
  end.

(* ------------------------------------------------------------------ *)
(** ** Property access *)

Fixpoint lookup (k : string) (o : Props) : option Value :=
  match o with
  | [] => None
  | (k', v) :: o' => if String.eqb k k' then Some v else lookup k o'
  end.

(** Replace the own property [k], or add it after the existing ones. *)
Fixpoint update (k : string) (v : Value) (o : Props) : Props :=
  match o with
  | [] => [(k, v)]
  | (k', v') :: o' =>
      if String.eqb k k' then (k, v) :: o' else (k', v') :: update k v o'
  end.

(** The names [Object.prototype] answers for; reading or writing them on an
    object that has no such own property is outside of the model. *)
Definition proto_keys : list string :=
  ["constructor"; "__proto__"; "hasOwnProperty"; "isPrototypeOf";
   "propertyIsEnumerable"; "toString"; "toLocaleString"; "valueOf";
   "__defineGetter__"; "__defineSetter__"; "__lookupGetter__";
   "__lookupSetter__"].

Definition is_proto_key (k : string) : bool :=
  existsb (String.eqb k) proto_keys.

(** [o[k]] on a plain object. *)
Definition obj_get (o : Props) (k : string) : option Value :=
  match lookup k o with
  | Some v => Some v
  | None => if is_proto_key k then None else Some VUndefined
  end.

(** [o[k] = v] on a plain object. *)
Definition obj_set (o : Props) (k : string) (v : Value) : option Props :=
  if String.eqb k "__proto__" then None else Some (update k v o).

(** [ToPropertyKey] for the primitives that have an exact string form. *)
Definition to_key (v : Value) : option string :=
  match v with
  | VStr s => Some s
  | VNum x => number_to_string x
  | VBool true => Some "true"
  | VBool false => Some "false"
  | VNull => Some "null"
  | VUndefined => Some "undefined"
  | _ => None
  end.

(** An array index: a canonical decimal numeral. *)
Definition array_index (k : string) : option nat :=
  if all_digits k && (String.eqb k "0" || negb (startsWith k "0"))
  then Some (Z.to_nat (digits_val k 0)) else None.

Fixpoint set_nth (i : nat) (v : Value) (l : list Value) : list Value :=
  match i, l with
  | O, [] => [v]
  | O, _ :: l' => v :: l'
  | S i', [] => VUndefined :: set_nth i' v []
  | S i', x :: l' => x :: set_nth i' v l'
  end.

Definition length_value (n : nat) : Value :=
  VNum (float_of_scaled false (Z.of_nat n) 0).

(** [Object.hasOwn(res, k)]; [None] when the answer is left out of the model
    (functions) or is a TypeError (null and undefined, see [getProperty]). *)
Definition has_own (res : Value) (k : string) : option bool :=
  match res with
  | VObj o => Some (match lookup k o with Some _ => true | None => false end)
  | VPromise _ o => Some (match lookup k o with Some _ => true | None => false end)
  | VArr l =>
      match array_index k with
      | Some i => Some (i <? List.length l)
      | None => Some (String.eqb k "length")
      end
  | VStr s =>
      match array_index k with
      | Some i => Some (i <? String.length s)
      | None => Some (String.eqb k "length")
      end
  | VBool _ | VNum _ => Some false
  | _ => None
  end.

(** [res[k]] for a non-nullish [res]. *)
Definition prop_get (res : Value) (k : string) : option Value :=
  match res with
  | VObj o => obj_get o k
  | VArr l =>
      match array_index k with
      | Some i => Some (nth i l VUndefined)
      | None => if String.eqb k "length" then Some (length_value (List.length l)) else None
      end
  | VStr s =>
      match array_index k with
      | Some i => Some (match get i s with Some c => VStr (String c "") | None => VUndefined end)
      | None => if String.eqb k "length" then Some (length_value (String.length s)) else None
      end
  | VPromise _ o => lookup k o
  | _ => None
  end.

(** [res[k] = v] for an object, an array (by index) or a promise object. *)
Definition prop_set (res : Value) (k : string) (v : Value) : option Value :=
  match res with
  | VObj o => option_map VObj (obj_set o k v)
  | VArr l =>
      match array_index k with
      | Some i => Some (VArr (set_nth i v l))
      | None => None
      end
  | VPromise p o => if is_proto_key k then None else Some (VPromise p (update k v o))
  | _ => None
  end.

(** [getFunction(obj, key)] applied to the function found at [obj[key]]: the
    wrapper calls it with [this ?? obj]. *)
Definition bind_this (f obj : Value) : Value :=
  match f with
  | VNative id this => VNative id (nullish_or this obj)
  | _ => f
  end.

(** [res[key]] with the key converted to a property name. *)
Definition js_read (res key : Value) : M Value :=
  k <- modelled (to_key key) ;;
  modelled (prop_get res k).

(** [checkProperty] followed by the read, as in [getProperty(obj, prop)]:
    the property must be an own property and must not be null. *)
Definition getProperty (obj key : Value) : M Value :=
  if isNullish obj then error JsTypeError
  else
    k <- modelled (to_key key) ;;
    own <- modelled (has_own obj k) ;;
    if negb own then error PropertyNotFound
    else
      v <- modelled (prop_get obj k) ;;
      if isNullish v then error PropertyNotFound else ret v.

(** The key types [getFunction] accepts for its second parameter. *)
Definition function_key (key : Value) : bool :=
  match key with VStr _ | VNum _ | VArr _ => true | _ => false end.

(* ------------------------------------------------------------------ *)
(** ** variables.ts *)

(** The continuation [getVar] chains on a deferred intermediate: the value
    the new promise is fulfilled with. *)
Definition then_key (v key : Value) : M Value :=
  if isNullish v then ret v
  else
    item <- js_read v key ;;
    if isNullish item then ret item
    else if isFunction item
         then (if function_key key then ret (bind_this item v) else halt Unmodelled)
         else ret (match item with VPromise w _ => w | _ => item end).

(** The loop of [getVar] over the keys after the first. *)
Fixpoint getVar_walk (keys : list Value) (res defaultValue : Value) : M Value :=
  match keys with
  | [] =>
      match res with
      | VPromise v _ => ret (VPromise (nullish_or v defaultValue) [])
      | _ => ret (nullish_or res defaultValue)
      end
  | key :: keys' =>
      match res with
      | VPromise v _ =>
          v' <- then_key v key ;;
          getVar_walk keys' (VPromise v' []) defaultValue
      | _ =>
          if isNullish res then ret (nullish_or res defaultValue)
          else
            item <- js_read res key ;;
            if isNullish item then ret (nullish_or item defaultValue)
            else if isFunction item
                 then (if function_key key
                       then getVar_walk keys' (bind_this item res) defaultValue
                       else error ParameterTypeInvalid)
                 else getVar_walk keys' item defaultValue
      end
  end.

(** [getVar(name, scope, defaultValue)]; the scope is the one of the state. *)
Fixpoint getVar (name defaultValue : Value) {struct name} : M Value :=
  match name with
  | VStr n =>
      st <- get_state ;;
      a <- modelled (obj_get (scope st) n) ;;
      if isNullish a
      then b <- modelled (obj_get (vars st) n) ;; ret (nullish_or b defaultValue)
      else ret a
  | VArr path =>
      match path with
      | [] => error ParameterTypeInvalid
      | head :: keys =>
          res <- getVar head defaultValue ;;
          getVar_walk keys res defaultValue
      end
  | _ => error ParameterTypeInvalid
  end.

(** The loop of [setVar] over the intermediate keys and the final
    assignment [res[last] = value]; the result is the container [res] after
    the assignment. *)
Fixpoint assign_path (res : Value) (middle : list Value) (last value : Value) : M Value :=
  match middle with
  | [] =>
      if isNullish res then error JsTypeError
      else k <- modelled (to_key last) ;; modelled (prop_set res k value)
  | key :: rest =>
      item <- getProperty res key ;;
      if isPromise res then error PropertyTypeMismatch
      else
        let next := if isFunction item then bind_this item res else item in
        next' <- assign_path next rest last value ;;
        k <- modelled (to_key key) ;;
        modelled (prop_set res k next')
  end.

(** The keys at positions [1 .. cnt-2] of a path. *)
Definition middle_keys (path : list Value) : list Value :=
  removelast (tl path).

Definition set_global (k : string) (v : Value) : M unit :=
  st <- get_state ;;
  g <- modelled (obj_set (vars st) k v) ;;
  put_state (mkState (scope st) g).

(** [setVar(name, value)] *)
Definition setVar (name value : Value) : M unit :=
  match name with
  | VArr path =>
      st <- get_state ;;
      k0 <- modelled (to_key (nth 0 path VUndefined)) ;;
      res <- modelled (obj_get (vars st) k0) ;;
      if isPromise res then error PropertyTypeMismatch
      else
        res' <- assign_path res (middle_keys path)
                  (nth (List.length path - 1) path VUndefined) value ;;
        set_global k0 res'
  | VStr _ | VNum _ =>
      k <- modelled (to_key name) ;;
      set_global k value
  | _ => error ParameterTypeInvalid
  end.

(** [isVariable] and [isRunnableVariable] *)
Definition isVariable (s : string) : bool := startsWith s "$".
Definition isRunnableVariable (s : string) : bool := startsWith s "$$".

Definition getVariableName (name : string) : string := "$" ++ name.
Definition getRunnableVariableName (name : string) : string := "$$" ++ name.

(* ------------------------------------------------------------------ *)
(** ** commands.ts *)

(** An argument descriptor of a command. *)
Record CommandArg : Type := mkArg {
  arg_name : string;
  arg_required : bool;
  arg_variadic : bool;
  arg_default : Value
}.

(** A registered command: the callback, the flag table (character to
    bit-weight) and the ordered argument descriptors. *)
Record Command : Type := mkCommand {
  cmd_callback : Value;
  cmd_flags : Props;
  cmd_args : list CommandArg
}.

(** What the engine takes from its surroundings: the command registry, the
    behaviour of host functions (identifier, receiver, arguments), and the
    helpers of [functions.ts]. *)
Record Env : Type := mkEnv {
  commands : list (string * Command);
  call_host : string -> Value -> list Value -> M Value;
  convertToCamelCase : string -> string -> string;
  stripSlashes : string -> string;
  md5 : string -> string
}.

Fixpoint lookup_command (name : string) (l : list (string * Command)) : option Command :=
  match l with
  | [] => None
  | (n, c) :: l' =>
      match lookup_command name l' with
      | Some c' => Some c'
      | None => if String.eqb name n then Some c else None
      end
  end.

(** [commandNamedArgs[key]]: [addCommand] stores each descriptor with its
    index under its name, a later descriptor replacing an earlier one. *)
Fixpoint named_arg_from (i : nat) (ds : list CommandArg) (key : string)
  : option (nat * CommandArg) :=
  match ds with
  | [] => None
  | d :: ds' =>
      match named_arg_from (S i) ds' key with
      | Some r => Some r
      | None => if String.eqb (arg_name d) key then Some (i, d) else None
      end
  end.

Definition named_arg (cmd : Command) (key : string) : option (nat * CommandArg) :=
  named_arg_from 0 (cmd_args cmd) key.

Definition float_of_Z (z : Z) : float :=
  float_of_scaled (z <? 0)%Z (Z.abs z) 0.

Definition int32_of (v : Value) : option Z :=
  match v with
  | VNum x =>
      match float_to_Z x with
      | Some z => if ((- 2 ^ 31 <=? z) && (z <? 2 ^ 31))%Z then Some z else None
      | None => None
      end
  | _ => None
  end.

(** [a | b] on two numbers that are 32-bit integers. *)
Definition bit_or (a b : Value) : option Value :=
  match int32_of a, int32_of b with
  | Some x, Some y => Some (VNum (float_of_Z (Z.lor x y)))
  | _, _ => None
  end.

(** The local variables of [execFn] during argument binding. *)
Record Binding : Type := mkBinding {
  callbackArgs : list Value;
  lastArgs : list Value;
  key : option string;
  optional : bool;
  variadic : bool
}.

Definition set_arg (i : nat) (v : Value) (b : Binding) : Binding :=
  mkBinding (set_nth i v (callbackArgs b)) (lastArgs b) (key b) (optional b) (variadic b).

Definition push_last (v : Value) (b : Binding) : Binding :=
  mkBinding (callbackArgs b) (lastArgs b ++ [v]) (key b) (optional b) (variadic b).

Definition set_key (k : option string) (b : Binding) : Binding :=
  mkBinding (callbackArgs b) (lastArgs b) k (optional b) (variadic b).

Definition set_optional (b : Binding) : Binding :=
  mkBinding (callbackArgs b) (lastArgs b) (key b) true (variadic b).

Definition set_variadic (b : Binding) : Binding :=
  mkBinding (callbackArgs b) (lastArgs b) (key b) (optional b) true.

(** [isString(arg) && arg.startsWith('--')] *)
Definition is_long_option (arg : Value) : bool :=
  match arg with VStr s => startsWith s "--" | _ => false end.

(** [isString(arg) && arg.startsWith('-')] *)
Definition is_dash (arg : Value) : bool :=
  match arg with VStr s => startsWith s "-" | _ => false end.

Definition token_text (arg : Value) : string :=
  match arg with VStr s => s | _ => "" end.

(** [if (key != null && !commandNamedArgs[key].variadic)
       callbackArgs[commandNamedArgs[key].ind] = true] *)
Definition pending_true (cmd : Command) (b : Binding) : Binding :=
  match key b with
  | Some k =>
      match named_arg cmd k with
      | Some (ind, d) => if arg_variadic d then b else set_arg ind (VBool true) b
      | None => b
      end
  | None => b
  end.

Section Dispatch.

Variable env : Env.

(** [isCommandCallable(commandName)] *)
Definition isCommandCallable (v : Value) : bool :=
  match v with
  | VStr name =>
      match lookup_command name (commands env) with
      | Some c => isFunction (cmd_callback c)
      | None => false
      end
  | _ => false
  end.

(** The [while (args.length)] loop of [execFn] at descriptor [d] of index
    [i]: it returns the tokens left and the binding when the loop breaks or
    the tokens are exhausted. *)
Fixpoint drain (cmd : Command) (i : nat) (d : CommandArg)
    (args : list Value) (b : Binding) : M (list Value * Binding) :=
  match args with
  | [] => ret ([], b)
  | arg :: rest =>
      if is_long_option arg then
        if variadic b then error WrongArgumentPosition
        else
          let b1 := pending_true cmd (set_optional b) in
          let k := convertToCamelCase env (substring 2 (length (token_text arg)) (token_text arg)) "-" in
          match named_arg cmd k with
          | None => error PropertyNotFound
          | Some _ => drain cmd i d rest (set_key (Some k) b1)
          end
      else if is_dash arg then
        if variadic b then error WrongArgumentPosition
        else
          match named_arg cmd "mode" with
          | None => error PropertyNotFound
          | Some (ind, _) =>
              mode <- foldM
                        (fun m flag =>
                           flagValue <- getProperty (VObj (cmd_flags cmd)) (VStr flag) ;;
                           modelled (bit_or m flagValue))
                        (split_chars (substring 1 (length (token_text arg)) (token_text arg)))
                        (nullish_or (nth ind (callbackArgs b) VUndefined) (VNum zero)) ;;
              drain cmd i d rest (set_arg ind mode b)
          end
      else
        match key b with
        | Some k =>
            match named_arg cmd k with
            | Some (ind, dk) =>
                if arg_variadic dk then drain cmd i d rest (push_last arg b)
                else ret (rest, set_key None (set_arg ind (nullish_or arg (arg_default dk)) b))
            | None => halt Unmodelled
            end
        | None =>
            if optional b then error WrongArgumentPosition
            else if arg_variadic d then drain cmd i d rest (set_variadic (push_last arg b))
            else ret (rest, set_arg i (nullish_or arg (arg_default d)) b)
        end
  end.

(** The statements of the [for] body that follow the [while] loop. *)
Definition after_drain (cmd : Command) (i : nat) (d : CommandArg) (b : Binding) : M Binding :=
  let b1 := pending_true cmd b in
  let b2 := if arg_variadic d then b1
            else if isNullish (nth i (callbackArgs b1) VUndefined)
                 then set_arg i (arg_default d) b1 else b1 in
  if arg_required d &&
     ((isNullish (nth i (callbackArgs b2) VUndefined) && negb (arg_variadic d))
      || (arg_variadic d && (List.length (lastArgs b2) =? 0)))
  then error PropertyRequired
  else ret b2.

(** The [for] loop of [execFn] over the descriptors from index [i] on;
    [total] is [commandArgs.length]. *)
Fixpoint bind_args (cmd : Command) (total i : nat) (ds : list CommandArg)
    (args : list Value) (b : Binding) : M (list Value * Binding) :=
  match ds with
  | [] => ret (args, b)
  | d :: ds' =>
      if String.eqb (arg_name d) "scope" then
        st <- get_state ;;
        bind_args cmd total (S i) ds' args (set_arg i (VObj (scope st)) b)
      else if String.eqb (arg_name d) "mode" && (i <? total) then
        bind_args cmd total (S i) ds' args b
      else if arg_variadic d && negb (i =? total - 1) then
        error WrongArgumentPosition
      else
        r <- drain cmd i d args b ;;
        b' <- after_drain cmd i d (snd r) ;;
        bind_args cmd total (S i) ds' (fst r) b'
  end.

(** [callbackArgs[mode.ind] ??= mode.default ?? 0] when the command declares
    a [mode] argument. *)
Definition default_mode (cmd : Command) (b : Binding) : Binding :=
  match named_arg cmd "mode" with
  | Some (ind, dm) =>
      if isNullish (nth ind (callbackArgs b) VUndefined)
      then set_arg ind (nullish_or (arg_default dm) (VNum zero)) b
      else b
  | None => b
  end.

Definition empty_binding : Binding := mkBinding [] [] None false false.

(** [execFn(fn, args, scope, native)]; [call] invokes a function value. *)
Definition execFn (call : Value -> list Value -> M Value)
    (fn : Value) (args : list Value) (native : bool) : M Value :=
  if native then
    (if isFunction fn then call fn args else error ParameterTypeInvalid)
  else
    match fn with
    | VStr name =>
        match lookup_command name (commands env) with
        | None => error PropertyNotFound
        | Some cmd =>
            r <- bind_args cmd (List.length (cmd_args cmd)) 0 (cmd_args cmd) args empty_binding ;;
            let b := default_mode cmd (snd r) in
            if (List.length (cmd_args cmd) =? 0) && (0 <? List.length (fst r))
            then error ArgumentsLengthInvalid
            else call (cmd_callback cmd) (callbackArgs b ++ lastArgs b)
        end
    | _ => error ParameterTypeInvalid
    end.

End Dispatch.

(* ------------------------------------------------------------------ *)
(** ** The helpers of functions.ts *)

Module MD5.

Local Open Scope N_scope.

Definition mask32 : N := 4294967295.

Definition add32 (x y : N) : N := N.land (x + y) mask32.

Definition rotl32 (x c : N) : N :=
  N.land (N.lor (N.shiftl x c) (N.shiftr x (32 - c))) mask32.

Definition not32 (x : N) : N := N.lxor x mask32.

(** [floor(2^32 * abs(sin(i + 1)))] for [i = 0 .. 63] *)
Definition K : list N :=
  [3614090360; 3905402710; 606105819; 3250441966; 4118548399; 1200080426;
   2821735955; 4249261313; 1770035416; 2336552879; 4294925233; 2304563134;
   1804603682; 4254626195; 2792965006; 1236535329; 4129170786; 3225465664;
   643717713; 3921069994; 3593408605; 38016083; 3634488961; 3889429448;
   568446438; 3275163606; 4107603335; 1163531501; 2850285829; 4243563512;
   1735328473; 2368359562; 4294588738; 2272392833; 1839030562; 4259657740;
   2763975236; 1272893353; 4139469664; 3200236656; 681279174; 3936430074;
   3572445317; 76029189; 3654602809; 3873151461; 530742520; 3299628645;
   4096336452; 1126891415; 2878612391; 4237533241; 1700485571; 2399980690;
   4293915773; 2240044497; 1873313359; 4264355552; 2734768916; 1309151649;
   4149444226; 3174756917; 718787259; 3951481745].

Definition shifts : list N :=
  [7; 12; 17; 22; 7; 12; 17; 22; 7; 12; 17; 22; 7; 12; 17; 22;
   5; 9; 14; 20; 5; 9; 14; 20; 5; 9; 14; 20; 5; 9; 14; 20;
   4; 11; 16; 23; 4; 11; 16; 23; 4; 11; 16; 23; 4; 11; 16; 23;
   6; 10; 15; 21; 6; 10; 15; 21; 6; 10; 15; 21; 6; 10; 15; 21].

Fixpoint bytes_of_string (s : string) : list N :=
  match s with
  | EmptyString => []
  | String c s' => N_of_ascii c :: bytes_of_string s'
  end.

(** Little-endian bytes of [x], [n] of them. *)
Fixpoint le_bytes (n : nat) (x : N) : list N :=
  match n with
  | O => []
  | S n' => N.land x 255 :: le_bytes n' (N.shiftr x 8)
  end.

(** The message followed by the bit 1, zeros up to 56 modulo 64 bytes and
    the bit length on 64 bits. *)
Definition pad (msg : list N) : list N :=
  let len := List.length msg in
  let zeros := Nat.modulo (64 + 55 - Nat.modulo len 64) 64 in
  msg ++ [128] ++ repeat 0 zeros ++ le_bytes 8 (8 * N.of_nat len).

Fixpoint words (n : nat) (bytes : list N) : list N :=
  match n with
  | O => []
  | S n' =>
      match bytes with
      | b0 :: b1 :: b2 :: b3 :: rest =>
          (b0 + N.shiftl b1 8 + N.shiftl b2 16 + N.shiftl b3 24) :: words n' rest
      | _ => []
      end
  end.

Definition round (M : list N) (i : nat) (st : N * N * N * N) : N * N * N * N :=
  let '(A, B, C, D) := st in
  let F :=
    if (i <? 16)%nat then N.lor (N.land B C) (N.land (not32 B) D)
    else if (i <? 32)%nat then N.lor (N.land D B) (N.land (not32 D) C)
    else if (i <? 48)%nat then N.lxor B (N.lxor C D)
    else N.lxor C (N.lor B (not32 D)) in
  let g :=
    if (i <? 16)%nat then i
    else if (i <? 32)%nat then Nat.modulo (5 * i + 1) 16
    else if (i <? 48)%nat then Nat.modulo (3 * i + 5) 16
    else Nat.modulo (7 * i) 16 in
  let F' := add32 (add32 (add32 F A) (nth i K 0)) (nth g M 0) in
  (D, add32 B (rotl32 F' (nth i shifts 0)), B, C).

Definition chunk (M : list N) (st : N * N * N * N) : N * N * N * N :=
  let '(a0, b0, c0, d0) := st in
  let '(A, B, C, D) := fold_left (fun acc i => round M i acc) (seq 0 64) st in
  (add32 a0 A, add32 b0 B, add32 c0 C, add32 d0 D).

Fixpoint chunks (n : nat) (bytes : list N) (st : N * N * N * N) : N * N * N * N :=
  match n with
  | O => st
  | S n' => chunks n' (skipn 64 bytes) (chunk (words 16 bytes) st)
  end.

Definition hex_digit (x : N) : ascii :=
  if x <? 10 then ascii_of_N (48 + x) else ascii_of_N (87 + x).

Fixpoint hex (bytes : list N) : string :=
  match bytes with
  | [] => EmptyString
  | b :: rest => String (hex_digit (N.shiftr b 4)) (String (hex_digit (N.land b 15)) (hex rest))
  end.

Definition digest (s : string) : string :=
  let bytes := pad (bytes_of_string s) in
  let '(a, b, c, d) :=
    chunks (Nat.div (List.length bytes) 64) bytes
      (1732584193, 4023233417, 2562383102, 271733878) in
  hex (le_bytes 4 a ++ le_bytes 4 b ++ le_bytes 4 c ++ le_bytes 4 d).

End MD5.

(** Modelled from the spec: [functions.ts] is not among the sources.  [md5]
    names the hash of the placeholder keys, which the spec leaves opaque; it
    is taken to be the MD5 digest in lower-case hexadecimal. *)
Definition md5_hex (s : string) : string := MD5.digest s.

(** Modelled from the spec: [functions.ts] is not among the sources.  The
    quoted-literal rule strips the escapes of the body: a backslash is
    dropped and the character it escapes is kept. *)
Fixpoint strip_slashes (s : string) : string :=
  match s with
  | String c s' =>
      if Ascii.eqb c backslash
      then match s' with
           | String c' s'' => String c' (strip_slashes s'')
           | EmptyString => EmptyString
           end
      else String c (strip_slashes s')
  | EmptyString => EmptyString
  end.

(** Modelled from the spec: [functions.ts] is not among the sources.  A name
    in kebab-case or snake-case becomes camelCase: the pieces between the
    delimiter are put in lower case, every piece after the first with its
    first letter in upper case. *)
Definition capitalize (s : string) : string :=
  match s with
  | String c s' => String (upper_char c) s'
  | EmptyString => EmptyString
  end.

Definition camel_case (s delim : string) : string :=
  match split (toLowerCase s) delim with
  | [] => ""
  | first :: others => first ++ concat "" (map capitalize others)
  end.

(* ------------------------------------------------------------------ *)
(** ** Operators of JavaScript used by the math rules *)

Definition float_eqb (x y : float) : bool := (x =? y)%float.

(** [a === b]; the identity of two objects is not part of the model. *)
Definition strict_equal (a b : Value) : option bool :=
  match a, b with
  | VUndefined, VUndefined => Some true
  | VNull, VNull => Some true
  | VBool x, VBool y => Some (Bool.eqb x y)
  | VNum x, VNum y => Some (float_eqb x y)
  | VStr x, VStr y => Some (String.eqb x y)
  | _, _ => if isObject a && isObject b then None else Some false
  end.

(** [ToNumber] of a string, for the decimal literals of the engine, the
    empty string and the strings without any digit. *)
Definition string_to_number (s : string) : option float :=
  let t := trim s in
  if String.eqb t "" then Some zero
  else if is_number_literal t then Some (parseInt t)
  else if is_float_literal t then Some (parseFloat t)
  else if exists_string is_digit t || includes t "Infinity" then None
  else Some nan.

Definition bool_to_number (b : bool) : float := if b then one else zero.

(** [a == b] *)
Definition loose_equal (a b : Value) : option bool :=
  match a, b with
  | (VUndefined | VNull), (VUndefined | VNull) => Some true
  | (VUndefined | VNull), _ => Some false
  | _, (VUndefined | VNull) => Some false
  | VNum x, VStr s => option_map (float_eqb x) (string_to_number s)
  | VStr s, VNum y => option_map (fun x => float_eqb x y) (string_to_number s)
  | VBool x, VBool y => Some (Bool.eqb x y)
  | VBool x, VNum y => Some (float_eqb (bool_to_number x) y)
  | VNum x, VBool y => Some (float_eqb x (bool_to_number y))
  | VBool x, VStr s => option_map (float_eqb (bool_to_number x)) (string_to_number s)
  | VStr s, VBool y => option_map (fun x => float_eqb x (bool_to_number y)) (string_to_number s)
  | VNum x, VNum y => Some (float_eqb x y)
  | VStr x, VStr y => Some (String.eqb x y)
  | _, _ => None
  end.

(** [x % y] on numbers: the remainder of the truncated division, computed
    exactly on the binary expansions. *)
Definition float_rem (x y : float) : float :=
  match Prim2SF x, Prim2SF y with
  | SpecFloat.S754_nan, _ | _, SpecFloat.S754_nan => nan
  | SpecFloat.S754_infinity _, _ => nan
  | _, SpecFloat.S754_zero _ => nan
  | _, SpecFloat.S754_infinity _ => x
  | SpecFloat.S754_zero _, _ => x
  | SpecFloat.S754_finite sx mx ex, SpecFloat.S754_finite _ my ey =>
      let e := Z.min ex ey in
      let r := ((Zpos mx * 2 ^ (ex - e)) mod (Zpos my * 2 ^ (ey - e)))%Z in
      float_of_scaled sx r e
  end.

(** [{...a, ...b}] *)
Definition merge_props (a b : Props) : Props :=
  fold_left (fun acc kv => update (fst kv) (snd kv) acc) b a.

(** [a + b] for the operand types the [add] rule lets through. *)
Definition js_add (a b : Value) : option Value :=
  match a, b with
  | VNum x, VNum y => Some (VNum (x + y)%float)
  | VStr x, VStr y => Some (VStr (x ++ y))
  | VStr x, VNum y => option_map (fun t => VStr (x ++ t)) (number_to_string y)
  | VNum x, VStr y => option_map (fun t => VStr (t ++ y)) (number_to_string x)
  | _, _ => None
  end.

(* ------------------------------------------------------------------ *)
(** ** The math rules of the core plugin and parseMath *)

Inductive MathOp : Type :=
| Ge | Le | Eqv | Neq | Eq | Ne | Gt | Lt | Add | Sub | Mul | Div | Mod.

(** The rules of the category math in registry order: none declares an
    [order], so the stable sort keeps the order of the plugin. *)
Definition MATH : list MathOp :=
  [Ge; Le; Eqv; Neq; Eq; Ne; Gt; Lt; Add; Sub; Mul; Div; Mod].

Definition math_key (op : MathOp) : string :=
  match op with
  | Ge => ">=" | Le => "<=" | Eqv => "===" | Neq => "!==" | Eq => "==" | Ne => "!="
  | Gt => ">" | Lt => "<" | Add => "+" | Sub => "-" | Mul => "*" | Div => "/" | Mod => "%"
  end.

(** [prepareProperty(context, operand, ArgumentCheck.NUMBER)] *)
Definition number_operand (v : Value) : M float :=
  match v with
  | VNum x => ret x
  | _ => error PropertyTypeMismatch
  end.

(** The operand check of the [add] rule: number, string, array or object. *)
Definition add_operand (v : Value) : M Value :=
  match v with
  | VNum _ | VStr _ => ret v
  | _ => if isObject v then ret v else error PropertyTypeMismatch
  end.

Definition numeric_rule (f : float -> float -> Value) (operand1 operand2 : Value) : M Value :=
  x <- number_operand operand1 ;;
  y <- number_operand operand2 ;;
  ret (f x y).

(** The [callback] of a math rule on [{operand1, operand2}]. *)
Definition math_callback (op : MathOp) (operand1 operand2 : Value) : M Value :=
  match op with
  | Ge => numeric_rule (fun x y => VBool (y <=? x)%float) operand1 operand2
  | Le => numeric_rule (fun x y => VBool (x <=? y)%float) operand1 operand2
  | Gt => numeric_rule (fun x y => VBool (y <? x)%float) operand1 operand2
  | Lt => numeric_rule (fun x y => VBool (x <? y)%float) operand1 operand2
  | Eqv => b <- modelled (strict_equal operand1 operand2) ;; ret (VBool b)
  | Neq => b <- modelled (strict_equal operand1 operand2) ;; ret (VBool (negb b))
  | Eq => b <- modelled (loose_equal operand1 operand2) ;; ret (VBool b)
  | Ne => b <- modelled (loose_equal operand1 operand2) ;; ret (VBool (negb b))
  | Add =>
      a <- add_operand operand1 ;;
      b <- add_operand operand2 ;;
      match a, b with
      | VArr x, VArr y => ret (VArr (x ++ y))
      | VObj x, VObj y => ret (VObj (merge_props x y))
      | _, _ => modelled (js_add a b)
      end
  | Sub => numeric_rule (fun x y => VNum (x - y)%float) operand1 operand2
  | Mul => numeric_rule (fun x y => VNum (x * y)%float) operand1 operand2
  | Div => numeric_rule (fun x y => VNum (x / y)%float) operand1 operand2
  | Mod => numeric_rule (fun x y => VNum (float_rem x y)) operand1 operand2
  end.

(** One iteration of the loop of [parseMath]: a [Continue] thrown by the
    callback replaces the accumulator by its payload, when it has one. *)
Definition math_step (callback : Value -> Value -> M Value) (res operand : Value) : M Value :=
  fun st =>
    match callback res operand st with
    | Throw (Continue payload) st' =>
        Ok (match payload with VUndefined => res | _ => payload end) st'
    | other => other
    end.

(** [parseMath(rule, operands, scope)]: the left fold of the operands under
    the callback of the rule. *)
Definition parseMath (callback : Value -> Value -> M Value) (operands : list Value) : M Value :=
  match operands with
  | [] => ret VUndefined
  | x0 :: rest => foldM (math_step callback) rest x0
  end.

(** [Check.HAS_MATH] *)
Definition has_math_char (c : ascii) : bool :=
  existsb (Ascii.eqb c) [">"; "<"; "-"; "+"; "*"; "/"; "%"]%char.

Definition has_math (s : string) : bool :=
  exists_string has_math_char s || includes s "==" || includes s "!=".

(** The first rule of [MATH] whose key splits the value in at least two. *)
Fixpoint first_math (rules : list MathOp) (value : string) : option (MathOp * list string) :=
  match rules with
  | [] => None
  | op :: rules' =>
      let maths := split value (math_key op) in
      if 1 <? List.length maths then Some (op, maths) else first_math rules' value
  end.

(* ------------------------------------------------------------------ *)
(** ** Deferred values *)

(** [await v]: the value a fulfilled promise holds; any other value is
    itself, a thenable object being outside of the model. *)
Definition await (v : Value) : M Value :=
  match v with
  | VPromise w _ => ret w
  | VObj o =>
      match lookup "then" o with
      | Some f => if isFunction f then halt Unmodelled else ret v
      | None => ret v
      end
  | _ => ret v
  end.

(** The promise an [async] function returns when its body returns [v]. *)
Definition async_return (v : Value) : M Value :=
  w <- await v ;;
  ret (VPromise w []).

Definition as_list (v : Value) : M (list Value) :=
  match v with
  | VArr l => ret l
  | _ => halt Unmodelled
  end.

(* ------------------------------------------------------------------ *)
(** ** utilities.ts: replace and replacer *)

(** [String(v)] for the primitive values. *)
Definition to_string_value (v : Value) : option string :=
  match v with
  | VStr s => Some s
  | VNum x => number_to_string x
  | VBool true => Some "true"
  | VBool false => Some "false"
  | VNull => Some "null"
  | VUndefined => Some "undefined"
  | _ => None
  end.

(** The callback of a text rule: a replacement string or a function of the
    match (the rule context is the state and the environment). *)
Inductive Callback : Type :=
| CbString (replacement : string)
| CbFunction (f : Match -> M Value).

(** A rule of the categories parse and template. *)
Record Rule : Type := mkRule {
  rule_regexp : list Regex;
  rule_callback : Callback
}.

(** The replacement string with each [$n] (n = 1..9) replaced by group n. *)
Fixpoint expand (replacement : string) (caps : Captures) : string :=
  match replacement with
  | EmptyString => EmptyString
  | String c tail =>
      match tail with
      | String d rest =>
          if Ascii.eqb c "$" && is_digit d && negb (Ascii.eqb d "0")
          then (capture (nat_of_ascii d - 48) caps ++ expand rest caps)%string
          else String c (expand tail caps)
      | EmptyString => String c EmptyString
      end
  end.

(** The input with every match replaced by its replacement text. *)
Fixpoint splice (segments : list (string * Match)) (texts : list string) (tail : string) : string :=
  match segments, texts with
  | (before, _) :: segments', t :: texts' => (before ++ t ++ splice segments' texts' tail)%string
  | _, _ => tail
  end.

(** [replace(inputString, searchValue, replacer)]: the replacer is called
    for the matches from the left; when one of its results is a promise the
    results are awaited and the outcome is a promise of the string. *)
Definition replace (searchValue : Regex) (replacer : Callback) (inputString : string) : M Value :=
  let found := scan searchValue None inputString 0 0 "" in
  match replacer with
  | CbString replacement =>
      ret (VStr (splice (fst found)
                   (map (fun seg => expand replacement (m_caps (snd seg))) (fst found))
                   (snd found)))
  | CbFunction f =>
      values <- mapM (fun seg => f (snd seg)) (fst found) ;;
      if existsb isPromise values then
        resolved <- mapM await values ;;
        texts <- mapM (fun v => modelled (to_string_value v)) resolved ;;
        ret (VPromise (VStr (splice (fst found) texts (snd found))) [])
      else
        texts <- mapM (fun v => modelled (to_string_value v)) values ;;
        ret (VStr (splice (fst found) texts (snd found)))
  end.

(** The inner loop of [replacer] over the expressions of a rule; [replace]
    checks that its input is a string. *)
Fixpoint replace_each (regexps : list Regex) (callback : Callback) (inputString : Value) : M Value :=
  match regexps with
  | [] => ret inputString
  | expr :: regexps' =>
      match inputString with
      | VStr s => out <- replace expr callback s ;; replace_each regexps' callback out
      | _ => error ParameterTypeInvalid
      end
  end.

(** [replacer(rules, inputString, context)] *)
Fixpoint replacer_loop (rules : list Rule) (inputString : Value) : M Value :=
  match rules with
  | [] => ret inputString
  | rule :: rules' =>
      out <- replace_each (rule_regexp rule) (rule_callback rule) inputString ;;
      replacer_loop rules' out
  end.

Definition replacer (rules : list Rule) (inputString : string) : M Value :=
  replacer_loop rules (VStr inputString).




(* ------------------------------------------------------------------ *)
(** ** The parse rules of the core plugin (the normalizer) *)

Module Trim.

(** [[/^\s+/g, /\s+$/g]] *)
Definition BORDERS : list Regex :=
  [Seq bos (Plus true space); Seq (Plus true space) eos].

(** [/\s\s+/g] *)
Definition SPACES : Regex := Seq space (Plus true space).

(** [/\s*(,|:|\|\||&&|\?\?|===|!==|==|!=|>=|<=|>|<|\+|\*|\/|\||%)\s*/g] *)
Definition MATH : Regex :=
  seqs [Star true space;
        Group 1 (alts (map lit [","; ":"; "||"; "&&"; "??"; "==="; "!=="; "=="; "!=";
                                ">="; "<="; ">"; "<"; "+"; "*"; "/"; "|"; "%"]));
        Star true space].

(** [[/([[({])\s*/g, /\s*([)}\]])/g]] *)
Definition BRACES : list Regex :=
  [Seq (Group 1 (cls "[({")) (Star true space);
   Seq (Star true space) (Group 1 (cls ")}]"))].

End Trim.

Module PrepareArguments.

Definition quotes : string :=
  String backtick (String squote (String dquote EmptyString)).

(** [/(?<!\\)(Q)(.*?)(?<!\\)\1/g], Q being the class of the backtick, the
    single quote and the double quote *)
Definition BRACKETS : Regex :=
  seqs [not_escaped; Group 1 (cls quotes); Group 2 (Star false dot);
        not_escaped; Backref 1].

(** The three expressions of a group in parentheses, in square brackets
    and in curly brackets that holds no bracket of its own kind; the body
    is captured lazily in the first two and greedily in the third. *)
Definition BRACES : list Regex :=
  [seqs [lit "("; Group 1 (Star false (not_cls "()")); lit ")"];
   seqs [lit "["; Group 1 (Star false (not_cls "[]")); lit "]"];
   seqs [lit "{"; Group 1 (Star true (not_cls "{}")); lit "}"]].

(** [/(?<=\s|[[({*/+,&|><=%?:;]|^)(-\d+(\.\d+)?)(?=\s|[\])}*/+,&|!><=%?;]|$)/g] *)
Definition MINUS : Regex :=
  seqs [Assert (fun prev _ =>
                  opt_test is_space prev
                  || opt_test (fun c => char_in c "[({*/+,&|><=%?:;") prev
                  || is_none prev);
        Group 1 (seqs [lit "-"; Plus true digit;
                       Opt (Group 2 (Seq (lit ".") (Plus true digit)))]);
        Assert (fun _ next =>
                  opt_test is_space next
                  || opt_test (fun c => char_in c "])}*/+,&|!><=%?;") next
                  || is_none next)].

End PrepareArguments.

(** [scope[name] = value] *)
Definition set_scope (name : string) (value : Value) : M unit :=
  st <- get_state ;;
  sc <- modelled (obj_set (scope st) name value) ;;
  put_state (mkState sc (vars st)).

Section Normalizer.

Variable env : Env.

(** [getVariableHash(inputString, isSystem)] *)
Definition getVariableHash (inputString : string) (isSystem : bool) : string :=
  ((if isSystem then "_" else "") ++ md5 env inputString)%string.

(** [brackets]: the callback receives [(context, match, char, text)]. *)
Definition brackets_callback (m : Match) : M Value :=
  let value := stripSlashes env (capture 2 (m_caps m)) in
  let name := getVariableHash value true in
  set_scope name (VStr value) ;;;
  ret (VStr (getVariableName name)).

(** [minus]: the callback receives [(context, match, num)]. *)
Definition minus_callback (m : Match) : M Value :=
  let value := capture 1 (m_caps m) in
  let name := getVariableHash value true in
  set_scope name
    (if is_number_literal value then VNum (parseInt value)
     else if is_float_literal value then VNum (parseFloat value)
     else VStr value) ;;;
  ret (VStr (getVariableName name)).

(** [braces]: the callback receives [(context, match)]. *)
Definition braces_callback (m : Match) : M Value :=
  let value := m_text m in
  let variable := getVariableHash value true in
  set_scope variable (VStr value) ;;;
  ret (VStr (getRunnableVariableName variable)).

(** The rules of the category parse, in ascending [order]. *)
Definition PARSE : list Rule :=
  [mkRule [PrepareArguments.BRACKETS] (CbFunction brackets_callback);
   mkRule Trim.BORDERS (CbString "");
   mkRule [Trim.SPACES] (CbString " ");
   mkRule [Trim.MATH] (CbString "$1");
   mkRule Trim.BRACES (CbString "$1");
   mkRule [PrepareArguments.MINUS] (CbFunction minus_callback);
   mkRule PrepareArguments.BRACES (CbFunction braces_callback)].

(** [replacer(PARSE_COMMAND, command, {scope})] as a string. *)
Definition normalize (command : string) : M string :=
  out <- replacer PARSE command ;;
  match out with
  | VStr s => ret s
  | _ => halt Unmodelled
  end.

End Normalizer.

(* ------------------------------------------------------------------ *)
(** ** parser.ts: the subcommand tree *)

(** The rules of the category command, in ascending [order]. *)
Inductive CommandRule : Type :=
| EndRule | FailRule | SuccessRule | NullishRule | ContextRule | OutRule | ParamRule.

Definition COMMANDS : list CommandRule :=
  [EndRule; FailRule; SuccessRule; NullishRule; ContextRule; OutRule; ParamRule].

Definition command_key (r : CommandRule) : string :=
  match r with
  | EndRule => ";" | FailRule => "||" | SuccessRule => "&&" | NullishRule => "??"
  | ContextRule => "|" | OutRule => ">>" | ParamRule => " "
  end.

Inductive SubCommand : Type :=
| Leaf (command : string)
| Node (rule : CommandRule) (parts : list SubCommand).

(** [parseCommand(command, scope, index)]; [rules] is [COMMANDS] from
    [index] on.  The normalizer runs at every level. *)
Fixpoint parseCommand (env : Env) (rules : list CommandRule) (command : string) : M SubCommand :=
  command' <- normalize env command ;;
  match rules with
  | [] => ret (Leaf command')
  | rule :: rules' =>
      if includes command' (command_key rule)
      then parts <- mapM (parseCommand env rules') (split command' (command_key rule)) ;;
           ret (Node rule parts)
      else parseCommand env rules' command'
  end.

(* ------------------------------------------------------------------ *)
(** ** The command rules of the core plugin

    Every callback is given the function it imports from [parser.ts]
    ([execCommandSync] or [execCommandAsync], applied to the scope of the
    state) or from [convert.ts]. *)

(** [isEmptyString(part, true)] on a subcommand *)
Definition part_is_empty (part : SubCommand) : bool :=
  match part with
  | Leaf s => isEmptyString (VStr s) true
  | Node _ _ => false
  end.

Section CommandRules.

Variable execCommandSync : SubCommand -> M Value.
Variable execCommandAsync : SubCommand -> M Value.

(** [end]: [;] *)
Fixpoint end_loop (subcommand : list SubCommand) (res : Value) : M Value :=
  match subcommand with
  | [] => ret res
  | part :: rest =>
      if part_is_empty part then end_loop rest VUndefined
      else res' <- execCommandSync part ;; end_loop rest res'
  end.

Definition end_callback (subcommand : list SubCommand) : M Value :=
  end_loop subcommand VUndefined.

Fixpoint end_loopAsync (subcommand : list SubCommand) (res : Value) : M Value :=
  match subcommand with
  | [] => async_return res
  | part :: rest =>
      if part_is_empty part then end_loopAsync rest VUndefined
      else p <- execCommandAsync part ;; res' <- await p ;; end_loopAsync rest res'
  end.

Definition end_callbackAsync (subcommand : list SubCommand) : M Value :=
  end_loopAsync subcommand VUndefined.

(** [fail]: [||] *)
Fixpoint fail_loop (subcommand : list SubCommand) (res : Value) : M Value :=
  match subcommand with
  | [] => ret res
  | part :: rest =>
      res' <- execCommandSync part ;;
      if truthy res' then ret res' else fail_loop rest res'
  end.

Definition fail_callback (subcommand : list SubCommand) : M Value :=
  fail_loop subcommand VUndefined.

Fixpoint fail_loopAsync (subcommand : list SubCommand) (res : Value) : M Value :=
  match subcommand with
  | [] => async_return res
  | part :: rest =>
      p <- execCommandAsync part ;;
      res' <- await p ;;
      if truthy res' then async_return res' else fail_loopAsync rest res'
  end.

Definition fail_callbackAsync (subcommand : list SubCommand) : M Value :=
  fail_loopAsync subcommand VUndefined.

(** [success]: [&&] *)
Fixpoint success_loop (subcommand : list SubCommand) (res : Value) : M Value :=
  match subcommand with
  | [] => ret res
  | part :: rest =>
      res' <- execCommandSync part ;;
      if negb (truthy res') then ret res' else success_loop rest res'
  end.

Definition success_callback (subcommand : list SubCommand) : M Value :=
  success_loop subcommand VUndefined.

Fixpoint success_loopAsync (subcommand : list SubCommand) (res : Value) : M Value :=
  match subcommand with
  | [] => async_return res
  | part :: rest =>
      p <- execCommandAsync part ;;
      res' <- await p ;;
      if negb (truthy res') then async_return res' else success_loopAsync rest res'
  end.

Definition success_callbackAsync (subcommand : list SubCommand) : M Value :=
  success_loopAsync subcommand VUndefined.

(** [nullish]: [??] *)
Fixpoint nullish_loop (subcommand : list SubCommand) (res : Value) : M Value :=
  match subcommand with
  | [] => ret res
  | part :: rest =>
      res' <- execCommandSync part ;;
      if negb (isNullish res') then ret res' else nullish_loop rest res'
  end.

Definition nullish_callback (subcommand : list SubCommand) : M Value :=
  nullish_loop subcommand VUndefined.

Fixpoint nullish_loopAsync (subcommand : list SubCommand) (res : Value) : M Value :=
  match subcommand with
  | [] => async_return res
  | part :: rest =>
      p <- execCommandAsync part ;;
      res' <- await p ;;
      if negb (isNullish res') then async_return res' else nullish_loopAsync rest res'
  end.

Definition nullish_callbackAsync (subcommand : list SubCommand) : M Value :=
  nullish_loopAsync subcommand VUndefined.

(** [scope[ScopeVars.CONTEXT]] *)
Definition get_context : M Value :=
  st <- get_state ;;
  modelled (obj_get (scope st) "context").

(** [if (res !== undefined) scope[ScopeVars.CONTEXT] = res] *)
Definition use_as_context (res : Value) : M unit :=
  match res with
  | VUndefined => ret tt
  | _ => set_scope "context" res
  end.

(** [context]: [|] *)
Fixpoint context_loop (subcommand : list SubCommand) (res : Value) : M Value :=
  match subcommand with
  | [] => ret res
  | part :: rest =>
      prevContext <- get_context ;;
      use_as_context res ;;;
      res' <- execCommandSync part ;;
      set_scope "context" prevContext ;;;
      context_loop rest res'
  end.

Definition context_callback (subcommand : list SubCommand) : M Value :=
  context_loop subcommand VUndefined.

Fixpoint context_loopAsync (subcommand : list SubCommand) (res : Value) : M Value :=
  match subcommand with
  | [] => async_return res
  | part :: rest =>
      prevContext <- get_context ;;
      use_as_context res ;;;
      p <- execCommandAsync part ;;
      res' <- await p ;;
      set_scope "context" prevContext ;;;
      context_loopAsync rest res'
  end.

Definition context_callbackAsync (subcommand : list SubCommand) : M Value :=
  context_loopAsync subcommand VUndefined.

(** [out]: [>>] *)
Fixpoint out_loop (names : list SubCommand) (res : Value) : M unit :=
  match names with
  | [] => ret tt
  | part :: rest =>
      variable <- execCommandSync part ;;
      setVar variable res ;;;
      out_loop rest res
  end.

Definition out_callback (subcommand : list SubCommand) : M Value :=
  match subcommand with
  | [] => halt Unmodelled
  | first :: names =>
      res <- execCommandSync first ;;
      out_loop names res ;;;
      ret res
  end.

Fixpoint out_loopAsync (names : list SubCommand) (res : Value) : M unit :=
  match names with
  | [] => ret tt
  | part :: rest =>
      p <- execCommandAsync part ;;
      variable <- await p ;;
      setVar variable res ;;;
      out_loopAsync rest res
  end.

Definition out_callbackAsync (subcommand : list SubCommand) : M Value :=
  match subcommand with
  | [] => halt Unmodelled
  | first :: names =>
      p <- execCommandAsync first ;;
      res <- await p ;;
      out_loopAsync names res ;;;
      async_return res
  end.

End CommandRules.

(** The children of a [param] node as the strings [convertArray] receives. *)
Fixpoint leaf_values (parts : list SubCommand) : option (list Value) :=
  match parts with
  | [] => Some []
  | Leaf s :: rest => option_map (cons (VStr s)) (leaf_values rest)
  | Node _ _ :: _ => None
  end.

Section ParamRule.

Variable env : Env.
(** [convertArray(arr, scope, exec, async)] and [execFn(fn, args, scope, native)] *)
Variable convertArray : list Value -> bool -> bool -> M Value.
Variable execFn' : Value -> list Value -> bool -> M Value.

(** [param.meta.checkValue] *)
Definition param_checkValue (value : list Value) : M Value :=
  let fn := nth 0 value VUndefined in
  let isNativeFunction := isFunction fn in
  if isCommandCallable env fn || isNativeFunction
  then execFn' fn (tl value) isNativeFunction
  else if 1 <? List.length value then ret (VArr value)
  else ret fn.

Definition param_callback (subcommand : list SubCommand) : M Value :=
  items <- modelled (leaf_values subcommand) ;;
  converted <- convertArray items false false ;;
  args <- as_list converted ;;
  param_checkValue args.

Definition param_callbackAsync (subcommand : list SubCommand) : M Value :=
  items <- modelled (leaf_values subcommand) ;;
  p <- convertArray items false true ;;
  converted <- await p ;;
  args <- as_list converted ;;
  res <- param_checkValue args ;;
  async_return res.

End ParamRule.

(* ------------------------------------------------------------------ *)
(** ** convert.ts and the convert rules of the core plugin *)

(** The functions of the engine that call one another; [engine] below ties
    them with fuel.
    - [r_convert value exec async] is [convert(value, scope, exec, async)];
    - [r_execCommand subcommand exec async] is [execCommand];
    - [r_exec command exec async] is [exec];
    - [r_call f args] is the call [f(...args)] of a function value. *)
Record Engine : Type := mkEngine {
  r_convert : Value -> bool -> bool -> M Value;
  r_execCommand : SubCommand -> bool -> bool -> M Value;
  r_exec : string -> bool -> bool -> M Value;
  r_call : Value -> list Value -> M Value
}.

(** The rules of the category convert, in ascending [order]. *)
Inductive ConvertRule : Type :=
| IsString | IsNull | IsUndefined | IsEmptyString | IsTrue | IsFalse
| IsNumber | IsFloat | IsKeys | IsMath | IsVariable | IsCommand.

Definition CONVERT : list ConvertRule :=
  [IsString; IsNull; IsUndefined; IsEmptyString; IsTrue; IsFalse;
   IsNumber; IsFloat; IsKeys; IsMath; IsVariable; IsCommand].

(** [throw new Continue()] *)
Definition continue {A} : M A := throw (Continue VUndefined).

(** The loop of [convertSync] and [convertAsync] over the rules: a rule that
    throws [Continue] hands the value (or the payload) to the next one. *)
Fixpoint ladder (run : ConvertRule -> Value -> M Value) (rules : list ConvertRule)
    (value : Value) : M Value :=
  match rules with
  | [] => ret value
  | rule :: rules' =>
      fun st =>
        match run rule value st with
        | Throw (Continue payload) st' =>
            ladder run rules' (match payload with VUndefined => value | _ => payload end) st'
        | other => other
        end
  end.

(** The rules after [isString] receive a string. *)
Definition on_string (value : Value) (k : string -> M Value) : M Value :=
  match value with
  | VStr s => k s
  | _ => halt Unmodelled
  end.

(** The entries an object literal is split in: an item without a key gets
    the next integer index. *)
Fixpoint object_entries (items : list string) (ind : nat) : list (Value * Value) :=
  match items with
  | [] => []
  | item :: rest =>
      match split item ":" with
      | k :: v :: _ => (VStr k, VStr v) :: object_entries rest ind
      | v :: [] => (VNum (float_of_Z (Z.of_nat ind)), VStr v) :: object_entries rest (S ind)
      | [] => object_entries rest ind
      end
  end.

(** [Object.fromEntries] *)
Fixpoint from_entries (entries : list (Value * Value)) (acc : Props) : option Props :=
  match entries with
  | [] => Some acc
  | (k, v) :: rest =>
      match to_key k with
      | Some name => from_entries rest (update name v acc)
      | None => None
      end
  end.

(** The formatting of a directive result by the [ext-js] rules:
    [checkValue(value, end, context)]. *)
Definition template_checkValue (value : Value) (terminator : string) : option Value :=
  match value with
  | VNum x => option_map (fun t => VStr (t ++ terminator)) (number_to_string x)
  | VStr s => Some (VStr (s ++ terminator))
  | _ => Some (VStr "")
  end.

Definition async_context (a : option bool) : Value :=
  match a with None => VNull | Some b => VBool b end.

Definition async_truthy (a : option bool) : bool :=
  match a with Some true => true | _ => false end.

Section Evaluator.

Variable env : Env.
Variable rec : Engine.

(** [convertArray(arr, scope, exec, async)].  In asynchronous mode the
    conversions are started in the order of the items and awaited together;
    the model runs each of them to its end before it starts the next. *)
Definition convertArray (arr : list Value) (exec async : bool) : M Value :=
  res <- mapM (fun item => r_convert rec item exec async) arr ;;
  if async
  then settled <- mapM await res ;; ret (VPromise (VArr settled) [])
  else ret (VArr res).

(** [convertEntityItem] over the entries, then [Object.fromEntries], as in
    [convertObjectFromEntities(arr, scope, exec, async)]. *)
Definition convertObjectFromEntities (arr : list (Value * Value)) (exec async : bool) : M Value :=
  res <- mapM (fun item =>
                 k <- r_convert rec (fst item) exec async ;;
                 v <- r_convert rec (snd item) exec async ;;
                 if async
                 then k' <- await k ;; v' <- await v ;; ret (k', v')
                 else ret (k, v)) arr ;;
  obj <- modelled (from_entries res []) ;;
  ret (if async then VPromise (VObj obj) [] else VObj obj).

(** [isMath.meta.checkValue] *)
Definition math_checkValue (rule : MathOp) (value : list Value) : M Value :=
  res <- parseMath (math_callback rule) value ;;
  match res with
  | VUndefined => error MathResultInvalid
  | _ => ret res
  end.

Definition isMath_callback (value : Value) : M Value :=
  on_string value (fun s =>
    if has_math s then
      match first_math MATH s with
      | Some (math, maths) =>
          converted <- convertArray (map VStr maths) false false ;;
          operands <- as_list converted ;;
          math_checkValue math operands
      | None => continue
      end
    else continue).

Definition isMath_callbackAsync (value : Value) : M Value :=
  on_string value (fun s =>
    if has_math s then
      match first_math MATH s with
      | Some (math, maths) =>
          p <- convertArray (map VStr maths) false true ;;
          converted <- await p ;;
          operands <- as_list converted ;;
          res <- math_checkValue math operands ;;
          async_return res
      | None => continue
      end
    else continue).

(** [isVariable.meta.checkValue]: the forced evaluation of [$$name]. *)
Definition variable_checkValue (value : Value) (async : bool) : M Value :=
  match value with
  | VStr s =>
      if startsWith s "(" && endsWith s ")" then
        r_exec rec (strip_ends s) true async
      else if startsWith s "[" && endsWith s "]" then
        (if isEmptyString (VStr (strip_ends s)) true then ret (VArr [])
         else convertArray (map VStr (split (strip_ends s) ",")) false async)
      else if startsWith s "{" && endsWith s "}" then
        (if isEmptyString (VStr (strip_ends s)) true then ret (VObj [])
         else convertObjectFromEntities (object_entries (split (strip_ends s) ",") 0) false async)
      else r_exec rec s true async
  | VArr items => convertArray items false async
  | _ =>
      if isFunction value then execFn env (r_call rec) value [] true
      else ret value
  end.

(** [value.replace(Check.IS_VARIABLE, '').split(Delimiters.OBJ_PART)] *)
Definition variable_path (s : string) : list Value :=
  map VStr (split (drop (count_while (Ascii.eqb "$") s) s) ".").

Definition isVariable_callback (value : Value) (async : bool) : M Value :=
  on_string value (fun s =>
    if isVariable s then
      vars <- convertArray (variable_path s) false false ;;
      res <- getVar vars VUndefined ;;
      if isNullish res then ret res
      else if isRunnableVariable s then variable_checkValue res async
      else ret res
    else continue).

Definition isVariable_callbackAsync (value : Value) (async : bool) : M Value :=
  on_string value (fun s =>
    if isVariable s then
      p <- convertArray (variable_path s) false true ;;
      vars <- await p ;;
      q <- getVar vars VUndefined ;;
      res <- await q ;;
      if isNullish res then async_return res
      else if isRunnableVariable s
           then r <- variable_checkValue res async ;; async_return r
           else async_return res
    else continue).

(** The [callback] of a convert rule on the context
    [{scope, exec, value, async}]. *)
Definition convert_callback (rule : ConvertRule) (value : Value) (exec async : bool) : M Value :=
  match rule with
  | IsString => if negb (isString value) then ret value else continue
  | IsNull =>
      on_string value (fun s =>
        if String.eqb (toLowerCase s) "null" then ret VNull else continue)
  | IsUndefined =>
      on_string value (fun s =>
        if String.eqb (toLowerCase s) "undefined" then ret VUndefined else continue)
  | IsEmptyString => if isEmptyString value false then ret (VStr "") else continue
  | IsTrue =>
      on_string value (fun s =>
        if String.eqb (toLowerCase s) "true" then ret (VBool true) else continue)
  | IsFalse =>
      on_string value (fun s =>
        if String.eqb (toLowerCase s) "false" then ret (VBool false) else continue)
  | IsNumber =>
      on_string value (fun s =>
        if is_number_literal s then ret (VNum (parseInt s)) else continue)
  | IsFloat =>
      on_string value (fun s =>
        if is_float_literal s then ret (VNum (parseFloat s)) else continue)
  | IsKeys =>
      on_string value (fun s => if startsWith s "-" then ret value else continue)
  | IsMath => isMath_callback value
  | IsVariable => isVariable_callback value async
  | IsCommand =>
      if isCommandCallable env value && exec
      then execFn env (r_call rec) value [] false
      else continue
  end.

(** The [callbackAsync] of the rules that declare one. *)
Definition convert_callbackAsync (rule : ConvertRule)
  : option (Value -> bool -> bool -> M Value) :=
  match rule with
  | IsMath => Some (fun value _ _ => isMath_callbackAsync value)
  | IsVariable => Some (fun value _ async => isVariable_callbackAsync value async)
  | _ => None
  end.

(** [convertSync(value, scope, exec)] *)
Definition convertSync (value : Value) (exec : bool) : M Value :=
  ladder (fun rule v => convert_callback rule v exec false) CONVERT value.

(** [convertAsync(value, scope, exec)] *)
Definition convertAsync (value : Value) (exec : bool) : M Value :=
  res <- ladder (fun rule v =>
                   p <- match convert_callbackAsync rule with
                        | Some callbackAsync => callbackAsync v exec true
                        | None => convert_callback rule v exec true
                        end ;;
                   await p) CONVERT value ;;
  async_return res.

(** [convert(value, scope, exec, async)] *)
Definition convert (value : Value) (exec async : bool) : M Value :=
  if async then convertAsync value exec else convertSync value exec.

(** [execCommand(subcommand, scope, exec, async)] *)
Definition execCommand (subcommand : SubCommand) (exec async : bool) : M Value :=
  match subcommand with
  | Leaf s => convert (VStr s) exec async
  | Node rule parts =>
      let execCommandSync := fun part => r_execCommand rec part true false in
      let execCommandAsync := fun part => r_execCommand rec part true true in
      let execFn' := execFn env (r_call rec) in
      if async then
        match rule with
        | EndRule => end_callbackAsync execCommandAsync parts
        | FailRule => fail_callbackAsync execCommandAsync parts
        | SuccessRule => success_callbackAsync execCommandAsync parts
        | NullishRule => nullish_callbackAsync execCommandAsync parts
        | ContextRule => context_callbackAsync execCommandAsync parts
        | OutRule => out_callbackAsync execCommandAsync parts
        | ParamRule => param_callbackAsync env convertArray execFn' parts
        end
      else
        match rule with
        | EndRule => end_callback execCommandSync parts
        | FailRule => fail_callback execCommandSync parts
        | SuccessRule => success_callback execCommandSync parts
        | NullishRule => nullish_callback execCommandSync parts
        | ContextRule => context_callback execCommandSync parts
        | OutRule => out_callback execCommandSync parts
        | ParamRule => param_callback env convertArray execFn' parts
        end
  end.

(** [exec(command, scope, exec, async)] *)
Definition exec (command : string) (exec async : bool) : M Value :=
  subcommand <- parseCommand env COMMANDS command ;;
  execCommand subcommand exec async.

(** [parse(command, scope, context, async)] on the scope of the state. *)
Definition parse (command : string) (context : Value) (async : bool) : M Value :=
  set_scope "context" context ;;;
  r_exec rec command true async.

(** The variable a template constant names. *)
Definition constant_variable (name : string) : string :=
  if startsWith name "_" then toLowerCase name else convertToCamelCase env name "_".

(** [scope[ScopeVars.OFFSET]] and [scope[ScopeVars.TEMPLATE]] *)
Definition get_scope (name : string) : M Value :=
  st <- get_state ;;
  modelled (obj_get (scope st) name).

(** The body of a closure stored by a template rule.  The closures call
    [parse(command, scope, async)]: the flag arrives as the context and the
    evaluation is synchronous. *)
Definition run_closure (c : Closure) : M Value :=
  match c with
  | TplInline command a => parse command (async_context a) false
  | TplVar name a =>
      parse (getVariableName (constant_variable name)) (async_context a) false
  | TplRun name a =>
      parse (getRunnableVariableName (constant_variable name)) (async_context a) false
  | TplLine command terminator a =>
      res <- parse command (async_context a) false ;;
      if async_truthy a
      then r <- await res ;;
           v <- modelled (template_checkValue r terminator) ;;
           ret (VPromise v [])
      else modelled (template_checkValue res terminator)
  | TplBlock command block terminator offset a =>
      prevOffset <- get_scope "offset" ;;
      prevTemplate <- get_scope "template" ;;
      set_scope "offset" (VNum (float_of_Z (Z.of_nat offset))) ;;;
      set_scope "template" (VStr block) ;;;
      res <- parse command (async_context a) false ;;
      r <- (if async_truthy a then await res else ret res) ;;
      set_scope "offset" prevOffset ;;;
      set_scope "template" prevTemplate ;;;
      v <- modelled (template_checkValue r terminator) ;;
      ret (if async_truthy a then VPromise v [] else v)
  end.

(** The call of a function value. *)
Definition call (f : Value) (args : list Value) : M Value :=
  match f with
  | VNative id this => call_host env id this args
  | VClosure c => run_closure c
  | _ => error JsTypeError
  end.

End Evaluator.

(** The engine with [fuel] levels of nested calls. *)
Fixpoint engine (env : Env) (fuel : nat) : Engine :=
  match fuel with
  | O =>
      mkEngine (fun _ _ _ => halt OutOfFuel) (fun _ _ _ => halt OutOfFuel)
               (fun _ _ _ => halt OutOfFuel) (fun _ _ => halt OutOfFuel)
  | S n =>
      let rec := engine env n in
      mkEngine (convert env rec) (execCommand env rec) (exec env rec) (call env rec)
  end.

(** [parse(command, scope, context, async)] with a given scope object and a
    given content of the global store. *)
Definition run_parse (env : Env) (fuel : nat) (command : string) (scope0 : Props)
    (context : Value) (async : bool) (vars0 : Props) : Outcome Value :=
  parse (engine env fuel) command context async (mkState scope0 vars0).

(* ------------------------------------------------------------------ *)
(** ** The template rules for the type js

    The rules of the category template that [getRulesByType] yields for the
    type js, the core plugin being registered before [ext-js]: the block
    directive of [ext-js] (order -9999), the inline command and the two
    constants of the core plugin, the line directive of [ext-js] (all of
    order 0), and the system constant of the core plugin (order 9999). *)

Definition newline : string := String "010" EmptyString.

Module ContentCommands.







End ContentCommands.

Section Templates.

Variable env : Env.
Variable fuel : nat.
(** The [async] entry of the template context. *)
Variable async : option bool.










End Templates.



(* ------------------------------------------------------------------ *)
(** ** The configuration of the README

    The commands the README and the test suite register ([concat], [min],
    [random], [async]) with the helpers of [functions.ts] as modelled
    above.  [Math.random] is left out of the host. *)

(** [String(v)] inside [Array.prototype.join]: null and undefined are empty. *)
Definition join_text (v : Value) : option string :=
  match v with
  | VNull | VUndefined => Some ""
  | _ => to_string_value v
  end.

Fixpoint join_values (delim : string) (l : list Value) : option string :=
  match l with
  | [] => Some ""
  | [v] => join_text v
  | v :: l' =>
      match join_text v, join_values delim l' with
      | Some a, Some b => Some (a ++ delim ++ b)%string
      | _, _ => None
      end
  end.

Definition readme_host (id : string) (this : Value) (args : list Value) : M Value :=
  if String.eqb id "concat" then
    (* (scope, mode, delim = " ", ...args) => args.join(delim) *)
    match nth 2 args VUndefined with
    | VUndefined => t <- modelled (join_values " " (skipn 3 args)) ;; ret (VStr t)
    | VStr delim => t <- modelled (join_values delim (skipn 3 args)) ;; ret (VStr t)
    | _ => halt Unmodelled
    end
  else if String.eqb id "min" then
    (* Math.min on numbers *)
    fold_left (fun acc v =>
                 a <- acc ;;
                 match a, v with
                 | VNum x, VNum y =>
                     ret (VNum (if is_nan x || is_nan y then nan
                                else if (y <? x)%float then y else x))
                 | _, _ => halt Unmodelled
                 end) args (ret (VNum infinity))
  else if String.eqb id "async" then
    (* async (context, asArray = false) => asArray ? [context] : context *)
    let context := nth 0 args VUndefined in
    if truthy (nullish_or (nth 1 args VUndefined) (VBool false))
    then ret (VPromise (VArr [context]) [])
    else async_return context
  else halt Unmodelled.

Definition readme_commands : list (string * Command) :=
  [("concat",
    mkCommand (VNative "concat" VUndefined)
      [("a", VNum 1); ("b", VNum 2); ("c", VNum 4); ("D", VNum 8)]
      [mkArg "scope" true false VUndefined;
       mkArg "mode" true false (VNum 2);
       mkArg "delim" false false (VStr " ");
       mkArg "args" false true VUndefined]);
   ("min",
    mkCommand (VNative "min" VUndefined) []
      [mkArg "values" true true VUndefined]);
   ("random", mkCommand (VNative "random" VUndefined) [] []);
   ("async",
    mkCommand (VNative "async" VUndefined) []
      [mkArg "context" false false VUndefined;
       mkArg "asArray" false false (VBool false)])].

Definition readme_env : Env :=
  mkEnv readme_commands readme_host camel_case strip_slashes md5_hex.

(** The value an outcome carries, when it carries one. *)
Definition value_of {A} (o : Outcome A) : option A :=
  match o with Ok a _ => Some a | _ => None end.

(** The failure an outcome carries, when it is one. *)
Definition failure_of {A} (o : Outcome A) : option ErrorKind :=
  match o with Throw (Failure k) _ => Some k | _ => None end.

(** The tokens the convert ladder leaves as they are: words (letters,
    digits and the underscore) that are neither numerals nor one of the
    literals null, undefined, true and false. *)
Definition keyword (s : string) : bool :=
  existsb (String.eqb (toLowerCase s)) ["null"; "undefined"; "true"; "false"].

Definition plain_name (x : string) : bool :=
  forall_string is_word x && negb (forall_string is_digit x) && negb (keyword x).

(* ================================================================== *)
(* ------------------------------------------------------------------ *)
(** ** Outcomes and the state *)

(** The outcome [o] of a run from the state [st] left the state as it was. *)
Definition keeps_state {A} (st : State) (o : Outcome A) : Prop :=
  match o with
  | Ok _ st' => st' = st
  | Throw _ st' => st' = st
  | Halt _ => True
  end.

(* ------------------------------------------------------------------ *)
(** ** Descriptors and tokens of the plain kind *)

(** A descriptor that is neither [scope], [mode] nor variadic. *)
Definition plain_descriptor (d : CommandArg) : bool :=
  negb (String.eqb (arg_name d) "scope") && negb (String.eqb (arg_name d) "mode")
  && negb (arg_variadic d).

(** A token that is no option ([--name], [-xyz]). *)
Definition positional_token (v : Value) : bool := negb (is_dash v).

(** A descriptor that may stay without a token: it is not required, or its
    default is neither null nor undefined. *)
Definition may_be_omitted (d : CommandArg) : bool :=
  negb (arg_required d) || negb (isNullish (arg_default d)).

(* ------------------------------------------------------------------ *)
(** ** rules.ts: the registry of rules

    What the registry looks at in a rule: its name, its [order] and the
    types of its [meta].  An order is an integer here ([None] when the rule
    declares none); a category that was never registered holds no rule. *)

Record RuleEntry : Type := mkEntry {
  rule_name : string;
  rule_order : option Z;
  rule_types : option (list string)
}.

(** [globalObject[GLOBAL_RULES_KEY]]: the rules of each category. *)
Definition Registry : Type := list (string * list RuleEntry).

(** [getRulesByCategory(category)] *)
Fixpoint getRulesByCategory (category : string) (reg : Registry) : list RuleEntry :=
  match reg with
  | [] => []
  | (c, l) :: reg' => if String.eqb category c then l else getRulesByCategory category reg'
  end.

(** [globalObject[GLOBAL_RULES_KEY][category] = l] *)
Fixpoint set_category (category : string) (l : list RuleEntry) (reg : Registry) : Registry :=
  match reg with
  | [] => [(category, l)]
  | (c, l') :: reg' =>
      if String.eqb category c then (c, l) :: reg' else (c, l') :: set_category category l reg'
  end.

(** [a.order ?? 0] *)
Definition order_of (r : RuleEntry) : Z :=
  match rule_order r with Some z => z | None => 0%Z end.

(** The order the registry is kept in. *)
Definition by_order (a b : RuleEntry) : Prop := (order_of a <= order_of b)%Z.

(** [list.sort((a, b) => (a.order ?? 0) - (b.order ?? 0))]:
    [Array.prototype.sort] is stable, and on integer orders the comparator
    is a total preorder, so the result is the one of any stable sort; the
    model sorts by insertion from the right. *)
Fixpoint insert_rule (x : RuleEntry) (l : list RuleEntry) : list RuleEntry :=
  match l with
  | [] => [x]
  | y :: l' =>
      if (order_of x <=? order_of y)%Z then x :: y :: l' else y :: insert_rule x l'
  end.

Fixpoint sort_rules (l : list RuleEntry) : list RuleEntry :=
  match l with
  | [] => []
  | x :: l' => insert_rule x (sort_rules l')
  end.

(** [registerRules(category, rules)]; [rules] is [Object.values] of the
    object the configuration gives. *)
Definition registerRules (category : string) (rules : list RuleEntry) (reg : Registry)
  : Registry :=
  set_category category (sort_rules (getRulesByCategory category reg ++ rules)) reg.

(** [registerRule(category, rule)] *)
Definition registerRule (category : string) (rule : RuleEntry) (reg : Registry) : Registry :=
  set_category category (sort_rules (getRulesByCategory category reg ++ [rule])) reg.

(** [rule.meta?.types == null || rule.meta?.types?.includes(type)] *)
Definition rule_applies (type : string) (r : RuleEntry) : bool :=
  match rule_types r with
  | None => true
  | Some types => existsb (String.eqb type) types
  end.

(** [getRulesByType(category, type)]: the rules the generator yields. *)
Definition getRulesByType (category type : string) (reg : Registry) : list RuleEntry :=
  filter (rule_applies type) (getRulesByCategory category reg).

(** Every category of the registry is in ascending order of [order]. *)
Definition registry_sorted (reg : Registry) : Prop :=
  forall category, Sorted by_order (getRulesByCategory category reg).

(* ------------------------------------------------------------------ *)
(** ** config.ts and the command store of commands.ts *)

(** [addCommand(command)] on the store of commands: the entry of a name
    registered again replaces the earlier one ([lookup_command] reads the
    last entry of a name). *)
Definition addCommand (name : string) (command : Command) (store : list (string * Command))
  : list (string * Command) :=
  store ++ [(name, command)].

(** A configuration: its plugins, its commands and, by category, its rules. *)
Inductive Config : Type :=
| mkConfig (plugins : list Config) (cfg_commands : list (string * Command))
           (cfg_rules : list (string * list RuleEntry)).

(** [setConfig(config)]: the plugins first, then the commands, then the
    rules of each category. *)
Fixpoint setConfig (config : Config) (st : list (string * Command) * Registry)
  : list (string * Command) * Registry :=
  match config with
  | mkConfig plugins cfg_commands cfg_rules =>
      let st1 := fold_left (fun s plugin => setConfig plugin s) plugins st in
      let store := fold_left (fun s nc => addCommand (fst nc) (snd nc) s) cfg_commands (fst st1) in
      let reg := fold_left (fun r cr => registerRules (fst cr) (snd cr) r) cfg_rules (snd st1) in
      (store, reg)
  end.

(** The rules of the core plugin, of [ext-js] and of [ext-json], as their
    configurations list them. *)
Definition core_plugin : Config :=
  mkConfig [] []
    [("command",
      [mkEntry "end" (Some (-1000)%Z) None; mkEntry "fail" (Some (-900)%Z) None;
       mkEntry "success" (Some (-800)%Z) None; mkEntry "nullish" (Some (-700)%Z) None;
       mkEntry "context" (Some (-600)%Z) None; mkEntry "out" (Some (-500)%Z) None;
       mkEntry "param" (Some (-400)%Z) None]);
     ("math",
      [mkEntry "ge" None None; mkEntry "le" None None; mkEntry "eqv" None None;
       mkEntry "neq" None None; mkEntry "eq" None None; mkEntry "ne" None None;
       mkEntry "gt" None None; mkEntry "lt" None None; mkEntry "add" None None;
       mkEntry "sub" None None; mkEntry "mul" None None; mkEntry "div" None None;
       mkEntry "mod" None None]);
     ("convert",
      [mkEntry "isString" (Some (-9999)%Z) None; mkEntry "isNull" (Some (-9800)%Z) None;
       mkEntry "isUndefined" (Some (-9700)%Z) None;
       mkEntry "isEmptyString" (Some (-9600)%Z) None;
       mkEntry "isTrue" (Some (-9500)%Z) None; mkEntry "isFalse" (Some (-9400)%Z) None;
       mkEntry "isNumber" (Some (-9300)%Z) None; mkEntry "isFloat" (Some (-9300)%Z) None;
       mkEntry "isKeys" (Some (-1000)%Z) None; mkEntry "isMath" (Some (-900)%Z) None;
       mkEntry "isVariable" (Some (-800)%Z) None; mkEntry "isCommand" (Some (-700)%Z) None]);
     ("template",
      [mkEntry "systemConst" (Some 9999%Z) None; mkEntry "inlineCommand" None None;
       mkEntry "varConst" None None; mkEntry "runConst" None None]);
     ("parse",
      [mkEntry "brackets" (Some (-1000)%Z) None; mkEntry "trimBorders" (Some (-900)%Z) None;
       mkEntry "trimSpaces" (Some (-800)%Z) None; mkEntry "trimMath" (Some (-700)%Z) None;
       mkEntry "trimBraces" (Some (-600)%Z) None; mkEntry "minus" (Some (-500)%Z) None;
       mkEntry "braces" (Some (-400)%Z) None])].

Definition ext_js : Config :=
  mkConfig [] []
    [("template",
      [mkEntry "template" (Some (-9999)%Z) (Some ["js"]);
       mkEntry "command" None (Some ["js"])])].

Definition ext_json : Config :=
  mkConfig [] []
    [("template", [mkEntry "jsonCommand" None (Some ["json"])])].

(** The configuration of the test suite. *)
Definition readme_config : Config :=
  mkConfig [core_plugin; ext_js; ext_json] readme_commands [].

(** The names of the rules of the model, as the plugin gives them. *)
Definition command_name (r : CommandRule) : string :=
  match r with
  | EndRule => "end" | FailRule => "fail" | SuccessRule => "success"
  | NullishRule => "nullish" | ContextRule => "context" | OutRule => "out"
  | ParamRule => "param"
  end.

Definition math_name (op : MathOp) : string :=
  match op with
  | Ge => "ge" | Le => "le" | Eqv => "eqv" | Neq => "neq" | Eq => "eq" | Ne => "ne"
  | Gt => "gt" | Lt => "lt" | Add => "add" | Sub => "sub" | Mul => "mul" | Div => "div"
  | Mod => "mod"
  end.

Definition convert_name (r : ConvertRule) : string :=
  match r with
  | IsString => "isString" | IsNull => "isNull" | IsUndefined => "isUndefined"
  | IsEmptyString => "isEmptyString" | IsTrue => "isTrue" | IsFalse => "isFalse"
  | IsNumber => "isNumber" | IsFloat => "isFloat" | IsKeys => "isKeys"
  | IsMath => "isMath" | IsVariable => "isVariable" | IsCommand => "isCommand"
  end.

(* ------------------------------------------------------------------ *)
(** ** utilities.ts: the checks of types

    A type of a check is a string ([typeof] name, [null] or [array]) or a
    constructor; [TOther] stands for an entry that is neither.  The values
    of the model include no regular expression. *)

Inductive Constructor : Type := CObject | CRegExp | CPromise.

Inductive TypeSpec : Type :=
| TName (name : string)
| TCtor (c : Constructor)
| TOther.

(** [value instanceof c] *)
Definition instance_of (value : Value) (c : Constructor) : bool :=
  match c with
  | CObject => isObject value
  | CRegExp => false
  | CPromise => isPromise value
  end.

Module ArgumentCheck.
Definition ARRAY : list TypeSpec := [TName "array"].
Definition OBJECT : list TypeSpec := [TCtor CObject].
Definition FUNCTION : list TypeSpec := [TName "function"].
Definition STRING : list TypeSpec := [TName "string"].
Definition NUMBER : list TypeSpec := [TName "number"].
Definition REGEXP : list TypeSpec := [TCtor CRegExp].
End ArgumentCheck.

(** The loop of [checkType] over the types. *)
Fixpoint checkType_loop (value : Value) (types : list TypeSpec) : M unit :=
  match types with
  | [] => error AssertFailed
  | TName name :: rest =>
      if String.eqb name "null" then
        (if isNullish value then ret tt else checkType_loop value rest)
      else if String.eqb name "array" then
        (if isArray value then ret tt else checkType_loop value rest)
      else if String.eqb (typeof value) name then ret tt
      else checkType_loop value rest
  | TCtor c :: rest =>
      if instance_of value c then ret tt else checkType_loop value rest
  | TOther :: _ => error VariableTypeInvalid
  end.

(** [checkType(value, types)] *)
Definition checkType (value : Value) (types : list TypeSpec) : M unit :=
  if 0 <? List.length types then checkType_loop value types
  else error ArgumentsLengthInvalid.

(** [prepareParam(args, ind, types, defaultValue)] *)
Definition prepareParam (args : list Value) (ind : nat) (types : list TypeSpec)
    (defaultValue : Value) : M Value :=
  fun st =>
    match checkType (nullish_or (nth ind args VUndefined) defaultValue) types st with
    | Ok _ st' => Ok (nullish_or (nth ind args VUndefined) defaultValue) st'
    | Throw (Failure AssertFailed) st' => Throw (Failure ParameterTypeInvalid) st'
    | Throw e st' => Throw e st'
    | Halt w => Halt w
    end.

(** Whether a value passes the test of one type. *)
Definition type_matches (value : Value) (t : TypeSpec) : bool :=
  match t with
  | TName name =>
      if String.eqb name "null" then isNullish value
      else if String.eqb name "array" then isArray value
      else String.eqb (typeof value) name
  | TCtor c => instance_of value c
  | TOther => false
  end.

Definition well_formed_type (t : TypeSpec) : bool :=
  match t with TOther => false | _ => true end.

(* ------------------------------------------------------------------ *)
(** ** Trees of the sequencing operators *)

(** A sub-command built with the operators [;], [||], [&&], [??], [|] and
    [>>] only. *)
Fixpoint sequencing (t : SubCommand) : bool :=
  match t with
  | Leaf _ => true
  | Node rule parts =>
      match rule with
      | ParamRule => false
      | _ => forallb sequencing parts
      end
  end.

(** The tokens at the leaves of a sub-command. *)
Fixpoint leaves (t : SubCommand) : list string :=
  match t with
  | Leaf s => [s]
  | Node _ parts => flat_map leaves parts
  end.

(** [ma] returns a deferred value of what [ms] returns, with the same
    effect on the state. *)
Definition deferred_of (ms ma : M Value) : Prop :=
  forall st, ma st = (v <- ms ;; async_return v) st.

(** [ms] returns no deferred value: awaiting its result yields the result
    itself. *)
Definition settled_result (ms : M Value) : Prop :=
  forall st, (v <- ms ;; await v) st = ms st.

(** The runners [rs] and [ra] agree on every part of a list. *)
Definition agree_on (rs ra : SubCommand -> M Value) (parts : list SubCommand) : Prop :=
  forall part, In part parts ->
    deferred_of (rs part) (ra part) /\ settled_result (rs part).

(** * Properties *)

(** ** Association lists *)

Lemma lookup_update_same (k : string) (v : Value) (o : Props) :
  lookup k (update k v o) = Some v.
Proof.
  induction o as [| [k' v'] o IH]; simpl.
  - now rewrite String.eqb_refl.
  - destruct (String.eqb k k') eqn:E; simpl.
    + now rewrite String.eqb_refl.
    + now rewrite E.
Qed.

Lemma lookup_update_other (k k' : string) (v : Value) (o : Props) :
  String.eqb k k' = false -> lookup k (update k' v o) = lookup k o.
Proof.
  intros Hne. induction o as [| [k2 v2] o IH]; simpl.
  - now rewrite Hne.
  - destruct (String.eqb k' k2) eqn:E; simpl.
    + apply String.eqb_eq in E. subst k2. now rewrite Hne.
    + now rewrite IH.
Qed.

Lemma update_update_same (k : string) (v w : Value) (o : Props) :
  update k v (update k w o) = update k v o.
Proof.
  induction o as [| [k' v'] o IH]; simpl.
  - now rewrite String.eqb_refl.
  - destruct (String.eqb k k') eqn:E; simpl.
    + now rewrite String.eqb_refl.
    + now rewrite E, IH.
Qed.

Lemma obj_get_update_same (k : string) (v : Value) (o : Props) :
  obj_get (update k v o) k = Some v.
Proof. unfold obj_get. now rewrite lookup_update_same. Qed.

Lemma obj_get_update_other (k k' : string) (v : Value) (o : Props) :
  String.eqb k k' = false -> obj_get (update k' v o) k = obj_get o k.
Proof. intros H. unfold obj_get. now rewrite lookup_update_other. Qed.

(** ** variables.ts *)

(** A simple name defined in the scope with a value that is neither null
    nor undefined reads as that value. *)
Lemma getVar_scope_value (name : string) (S G : Props) (d a : Value) :
  obj_get S name = Some a ->
  isNullish a = false ->
  getVar (VStr name) d (mkState S G) = Ok a (mkState S G).
Proof.
  intros HS Ha. simpl. unfold bind, get_state, modelled, ret, halt. simpl.
  rewrite HS. simpl. now rewrite Ha.
Qed.


(** C8. [getVar] on a simple name returns [S[name]] when it is neither null
    nor undefined, otherwise the value of the global store when that is
    neither null nor undefined, otherwise the default. *)
Theorem getVar_simple_name (name : string) (S G : Props) (defaultValue a : Value) :
  obj_get S name = Some a ->
  getVar (VStr name) defaultValue (mkState S G) =
    if isNullish a
    then match obj_get G name with
         | Some b => Ok (if isNullish b then defaultValue else b) (mkState S G)
         | None => Halt Unmodelled
         end
    else Ok a (mkState S G).
Proof.
  intros HS. simpl. unfold bind, get_state, modelled, ret, halt. simpl.
  rewrite HS. simpl.
  destruct (isNullish a); [| reflexivity].
  destruct (obj_get G name) as [b |]; reflexivity.
Qed.

Lemma getVar_simple_name_witness :
  obj_get [("x", VNull)] "x" = Some VNull /\
  getVar (VStr "x") (VNum 3) (mkState [("x", VNull)] [("x", VNum 7)])
  = Ok (VNum 7) (mkState [("x", VNull)] [("x", VNum 7)]).
Proof.
  split; [reflexivity |].
  apply (@getVar_simple_name "x" [("x", VNull)] [("x", VNum 7)] (VNum 3) VNull).
  reflexivity.
Defined.

(** C9. With [VARS.a.b] a deferred value, [setVar(["a", "b", "c"], 2)]
    assigns the property [c] of the promise object instead of failing; only
    a deferred value at the head of the path fails with
    PropertyTypeMismatch. *)
Theorem setVar_deferred_intermediate :
  setVar (VArr [VStr "a"; VStr "b"; VStr "c"]) (VNum 2)
    (mkState [] [("a", VObj [("b", VPromise (VNum 1) [])])])
  = Ok tt (mkState [] [("a", VObj [("b", VPromise (VNum 1) [("c", VNum 2)])])])
  /\
  setVar (VArr [VStr "b"; VStr "c"]) (VNum 2)
    (mkState [] [("b", VPromise (VNum 1) [])])
  = Throw (Failure PropertyTypeMismatch) (mkState [] [("b", VPromise (VNum 1) [])]).
Proof. split; reflexivity. Qed.

(** [setVar] on a simple name writes the global store and leaves the scope. *)
Lemma setVar_simple_name (x : string) (value : Value) (st : State) :
  String.eqb x "__proto__" = false ->
  setVar (VStr x) value st = Ok tt (mkState (scope st) (update x value (vars st))).
Proof.
  intros Hx. unfold setVar. simpl.
  unfold bind, modelled, ret, set_global, get_state, put_state, obj_set. simpl.
  now rewrite Hx.
Qed.




(** ** commands.ts *)

Lemma is_long_option_is_dash (arg : Value) :
  is_long_option arg = true -> is_dash arg = true.
Proof.
  destruct arg as [| | b | x | s | l | o | id this | c | p o];
    cbn [is_long_option is_dash]; try discriminate.
  unfold startsWith.
  destruct s as [| c s]; cbn [drop_prefix]; [discriminate |].
  destruct (Ascii.eqb "-" c); [reflexivity | discriminate].
Qed.

(** The [--name] branch sets the flag [optional]. *)
Lemma long_option_sets_optional (env : Env) (cmd : Command) (i : nat) (d : CommandArg)
    (arg : Value) (rest : list Value) (b : Binding) (p : nat * CommandArg) :
  is_long_option arg = true ->
  variadic b = false ->
  named_arg cmd (convertToCamelCase env
                   (substring 2 (length (token_text arg)) (token_text arg)) "-") = Some p ->
  exists b', optional b' = true /\ variadic b' = false /\
    drain env cmd i d (arg :: rest) b = drain env cmd i d rest b'.
Proof.
  intros Hlong Hvar Hnamed. simpl. rewrite Hlong, Hvar, Hnamed.
  eexists. split; [| split; [| reflexivity]].
  - unfold set_key, pending_true. simpl.
    destruct (key b) as [k |]; simpl; [| reflexivity].
    destruct (named_arg cmd k) as [[ind dk] |]; simpl; [| reflexivity].
    destruct (arg_variadic dk); reflexivity.
  - unfold set_key, pending_true. simpl.
    destruct (key b) as [k |]; simpl; [| assumption].
    destruct (named_arg cmd k) as [[ind dk] |]; simpl; [| assumption].
    destruct (arg_variadic dk); assumption.
Qed.

Lemma pending_true_flags (cmd : Command) (b : Binding) :
  optional (pending_true cmd b) = optional b /\
  variadic (pending_true cmd b) = variadic b.
Proof.
  unfold pending_true.
  destruct (key b) as [k |]; [| split; reflexivity].
  destruct (named_arg cmd k) as [[ind dk] |]; [| split; reflexivity].
  destruct (arg_variadic dk); split; reflexivity.
Qed.

(** Nothing in the loop resets the flags [optional] and [variadic]. *)
Lemma drain_keeps_flags (env : Env) (cmd : Command) (i : nat) (d : CommandArg)
    (args : list Value) :
  forall (b : Binding) (st st' : State) (r : list Value * Binding),
    drain env cmd i d args b st = Ok r st' ->
    (optional b = true -> optional (snd r) = true) /\
    (variadic b = true -> variadic (snd r) = true).
Proof.
  induction args as [| arg rest IH]; intros b st st' r H; simpl in H.
  - unfold ret in H. inversion H; subst. split; auto.
  - destruct (is_long_option arg).
    + destruct (variadic b) eqn:Hv; [discriminate |].
      destruct (named_arg cmd _) as [p |]; [| discriminate].
      apply IH in H. simpl in H.
      destruct (pending_true_flags cmd (set_optional b)) as [Ho Hv'].
      rewrite Ho, Hv' in H. simpl in H. rewrite Hv in H.
      destruct H as [H1 H2]. split; [intros _; apply H1; reflexivity | discriminate].
    + destruct (is_dash arg).
      * destruct (variadic b) eqn:Hv; [discriminate |].
        destruct (named_arg cmd "mode") as [[ind dm] |]; [| discriminate].
        unfold bind in H.
        destruct (foldM _ _ _ st) as [mode st1 | e st1 | w]; try discriminate.
        apply IH in H. simpl in H. rewrite Hv in H.
        destruct H as [H1 H2]. split; [exact H1 | discriminate].
      * destruct (key b) as [k |] eqn:Hk.
        -- destruct (named_arg cmd k) as [[ind dk] |]; [| discriminate].
           destruct (arg_variadic dk).
           ++ apply IH in H. simpl in H. exact H.
           ++ unfold ret in H. inversion H; subst. simpl. split; auto.
        -- destruct (optional b) eqn:Ho; [discriminate |].
           destruct (arg_variadic d).
           ++ apply IH in H. simpl in H. rewrite Ho in H.
              destruct H as [H1 H2]. split; [discriminate | intros _; apply H2; reflexivity].
           ++ unfold ret in H. inversion H; subst. simpl. rewrite Ho.
              split; [discriminate | auto].
Qed.




(** ** The outcome monad *)

Lemma outcome_eta {A : Type} (o : Outcome A) :
  match o with
  | Ok a st => Ok a st
  | Throw e st => Throw e st
  | Halt w => Halt w
  end = o.
Proof. destruct o; reflexivity. Qed.

Lemma bind_ok {A B : Type} (m : M A) (k : A -> M B) (st st' : State) (a : A) :
  m st = Ok a st' -> bind m k st = k a st'.
Proof. intros H. unfold bind. now rewrite H. Qed.

(** ** Words and the convert ladder *)

Lemma word_char_facts (c : ascii) :
  is_word c = true ->
  has_math_char c = false /\ Ascii.eqb c "." = false /\ Ascii.eqb "." c = false
  /\ Ascii.eqb c "-" = false /\ Ascii.eqb "-" c = false
  /\ Ascii.eqb "$" c = false /\ Ascii.eqb "=" c = false /\ Ascii.eqb "!" c = false.
Proof.
  destruct c as [[] [] [] [] [] [] [] []]; vm_compute; intros H;
    try discriminate H; repeat split; reflexivity.
Qed.

Lemma string_app_nil_r (s : string) : (s ++ "")%string = s.
Proof. induction s as [| c s IH]; cbn [append]; [reflexivity | now rewrite IH]. Qed.

Lemma string_app_assoc (a b c : string) :
  ((a ++ b) ++ c)%string = (a ++ (b ++ c))%string.
Proof. induction a as [| x a IH]; cbn [append]; [reflexivity | now rewrite IH]. Qed.

Lemma split_go_no_separator (sep : ascii) (s : string) :
  forall cur : string,
    forall_string (fun c => negb (Ascii.eqb sep c)) s = true ->
    split_go (String sep "") s cur 0 = [(cur ++ s)%string].
Proof.
  induction s as [| c s IH]; intros cur H; cbn [split_go].
  - now rewrite string_app_nil_r.
  - cbn [forall_string] in H. apply andb_prop in H. destruct H as [Hc Hs].
    unfold startsWith. cbn [drop_prefix].
    destruct (Ascii.eqb sep c); [discriminate |].
    rewrite IH by assumption.
    now rewrite string_app_assoc.
Qed.

Lemma forall_string_impl (p q : ascii -> bool) (s : string) :
  (forall c, p c = true -> q c = true) ->
  forall_string p s = true -> forall_string q s = true.
Proof.
  intros Hpq. induction s as [| c s IH]; cbn [forall_string]; [reflexivity |].
  intros H. apply andb_prop in H. destruct H as [Hc Hs].
  now rewrite (Hpq c Hc), IH.
Qed.

Lemma split_word_on_dot (x : string) :
  forall_string is_word x = true -> split x "." = [x].
Proof.
  intros H. unfold split.
  rewrite split_go_no_separator; [reflexivity |].
  apply (forall_string_impl is_word); [| assumption].
  intros c Hc. destruct (word_char_facts c Hc) as (_ & _ & E & _). now rewrite E.
Qed.

Lemma includes_first_absent (k0 : ascii) (k' : string) (s : string) :
  forall_string (fun c => negb (Ascii.eqb k0 c)) s = true ->
  includes s (String k0 k') = false.
Proof.
  induction s as [| c s IH]; cbn [includes forall_string]; [reflexivity |].
  intros H. apply andb_prop in H. destruct H as [Hc Hs].
  unfold startsWith. cbn [drop_prefix].
  destruct (Ascii.eqb k0 c); [discriminate |].
  now apply IH.
Qed.

Lemma has_math_word (x : string) :
  forall_string is_word x = true -> has_math x = false.
Proof.
  intros H. unfold has_math.
  assert (E1 : exists_string has_math_char x = false).
  { induction x as [| c x IH]; cbn [exists_string]; [reflexivity |].
    cbn [forall_string] in H. apply andb_prop in H. destruct H as [Hc Hx].
    destruct (word_char_facts c Hc) as (E & _). now rewrite E, IH. }
  rewrite E1.
  rewrite !includes_first_absent; [reflexivity | |];
    apply (forall_string_impl is_word); try assumption;
    intros c Hc; destruct (word_char_facts c Hc) as (_ & _ & _ & _ & _ & _ & E6 & E7);
    now (rewrite E7 || rewrite E6).
Qed.

(** What [plain_name] says, item by item. *)
Lemma plain_name_facts (x : string) :
  plain_name x = true ->
  forall_string is_word x = true
  /\ String.eqb (toLowerCase x) "null" = false
  /\ String.eqb (toLowerCase x) "undefined" = false
  /\ String.eqb (toLowerCase x) "true" = false
  /\ String.eqb (toLowerCase x) "false" = false
  /\ String.eqb x "" = false
  /\ is_number_literal x = false
  /\ is_float_literal x = false
  /\ startsWith x "-" = false
  /\ startsWith x "$" = false.
Proof.
  unfold plain_name, keyword. intros H.
  apply andb_prop in H. destruct H as [H Hkw].
  apply andb_prop in H. destruct H as [Hw Hd].
  apply negb_true_iff in Hd. apply negb_true_iff in Hkw.
  cbn [existsb] in Hkw. rewrite !orb_false_r in Hkw.
  apply orb_false_elim in Hkw. destruct Hkw as [K1 Hkw].
  apply orb_false_elim in Hkw. destruct Hkw as [K2 Hkw].
  apply orb_false_elim in Hkw. destruct Hkw as [K3 K4].
  repeat split; try assumption.
  - destruct x; [discriminate Hd | reflexivity].
  - destruct x as [| c x]; [discriminate Hd |].
    cbn [forall_string] in Hw. apply andb_prop in Hw. destruct Hw as [Hc Hx].
    destruct (word_char_facts c Hc) as (_ & _ & _ & E & _).
    unfold is_number_literal, strip_minus. rewrite E. unfold all_digits. exact Hd.
  - destruct x as [| c x]; [discriminate Hd |].
    pose proof Hw as Hw'.
    cbn [forall_string] in Hw. apply andb_prop in Hw. destruct Hw as [Hc Hx].
    destruct (word_char_facts c Hc) as (_ & _ & _ & E & _).
    unfold is_float_literal, strip_minus. rewrite E.
    now rewrite (split_word_on_dot _ Hw').
  - destruct x as [| c x]; [reflexivity |].
    cbn [forall_string] in Hw. apply andb_prop in Hw. destruct Hw as [Hc Hx].
    destruct (word_char_facts c Hc) as (_ & _ & _ & _ & E & _).
    unfold startsWith. cbn [drop_prefix]. now rewrite E.
  - destruct x as [| c x]; [reflexivity |].
    cbn [forall_string] in Hw. apply andb_prop in Hw. destruct Hw as [Hc Hx].
    destruct (word_char_facts c Hc) as (_ & _ & _ & _ & _ & E & _).
    unfold startsWith. cbn [drop_prefix]. now rewrite E.
Qed.

Lemma ladder_skip (run : ConvertRule -> Value -> M Value) (rule : ConvertRule)
    (rules : list ConvertRule) (v : Value) (st : State) :
  run rule v st = Throw (Continue VUndefined) st ->
  ladder run (rule :: rules) v st = ladder run rules v st.
Proof. intros H. cbn [ladder]. now rewrite H. Qed.

Lemma ladder_take (run : ConvertRule -> Value -> M Value) (rule : ConvertRule)
    (rules : list ConvertRule) (v r : Value) (st st' : State) :
  run rule v st = Ok r st' ->
  ladder run (rule :: rules) v st = Ok r st'.
Proof. intros H. cbn [ladder]. now rewrite H. Qed.

Lemma ladder_all_continue (run : ConvertRule -> Value -> M Value)
    (rules : list ConvertRule) (v : Value) (st : State) :
  (forall rule, In rule rules -> run rule v st = Throw (Continue VUndefined) st) ->
  ladder run rules v st = Ok v st.
Proof.
  induction rules as [| rule rules IH]; intros H; [reflexivity |].
  rewrite ladder_skip by (apply H; now left).
  apply IH. intros r Hr. apply H. now right.
Qed.

(** Every rule of the ladder hands a plain name on, provided the name is
    not executed as a command. *)
Lemma convert_callback_plain (env : Env) (rec : Engine) (x : string) (exec : bool)
    (st : State) (rule : ConvertRule) :
  plain_name x = true ->
  exec = false \/ isCommandCallable env (VStr x) = false ->
  convert_callback env rec rule (VStr x) exec false st = Throw (Continue VUndefined) st.
Proof.
  intros Hx Hcmd.
  destruct (plain_name_facts x Hx)
    as (Hw & K1 & K2 & K3 & K4 & Hne & Hnum & Hfl & Hminus & Hvar).
  destruct rule; cbn [convert_callback on_string isString negb isEmptyString andb];
    unfold isMath_callback, isVariable_callback, on_string, isVariable;
    rewrite ?K1, ?K2, ?K3, ?K4, ?Hne, ?Hnum, ?Hfl, ?Hminus, ?Hvar,
      ?(has_math_word _ Hw);
    try reflexivity.
  destruct Hcmd as [-> | ->]; [rewrite andb_false_r |]; reflexivity.
Qed.

(** The ladder leaves a plain name as it is. *)
Lemma convert_plain_name (env : Env) (rec : Engine) (x : string) (exec : bool) (st : State) :
  plain_name x = true ->
  exec = false \/ isCommandCallable env (VStr x) = false ->
  convert env rec (VStr x) exec false st = Ok (VStr x) st.
Proof.
  intros Hx Hcmd. unfold convert, convertSync.
  apply ladder_all_continue. intros rule _.
  now apply convert_callback_plain.
Qed.

(** The facts the ladder tests on the token [$x]. *)
Lemma variable_token_facts (x : string) :
  plain_name x = true ->
  let y := String "$" x in
  String.eqb (toLowerCase y) "null" = false
  /\ String.eqb (toLowerCase y) "undefined" = false
  /\ String.eqb (toLowerCase y) "true" = false
  /\ String.eqb (toLowerCase y) "false" = false
  /\ is_number_literal y = false
  /\ is_float_literal y = false
  /\ has_math y = false
  /\ isRunnableVariable y = false
  /\ variable_path y = [VStr x].
Proof.
  intros Hx y.
  destruct (plain_name_facts x Hx)
    as (Hw & K1 & K2 & K3 & K4 & Hne & Hnum & Hfl & Hminus & Hvar).
  assert (Hdot : forall_string (fun c => negb (Ascii.eqb "." c)) x = true).
  { apply (forall_string_impl is_word); [| assumption].
    intros c Hc. destruct (word_char_facts c Hc) as (_ & _ & E & _). now rewrite E. }
  repeat split; try reflexivity.
  - unfold is_float_literal, y, split. cbn [strip_minus Ascii.eqb Bool.eqb].
    rewrite split_go_no_separator; [reflexivity |].
    cbn [forall_string]. now rewrite Hdot.
  - pose proof (has_math_word _ Hw) as Hm. unfold has_math in *.
    apply orb_false_elim in Hm. destruct Hm as [Hm H3].
    apply orb_false_elim in Hm. destruct Hm as [H1 H2].
    unfold y. cbn [exists_string includes].
    rewrite H1, H2, H3. reflexivity.
  - unfold isRunnableVariable, y, startsWith. cbn [drop_prefix Ascii.eqb Bool.eqb].
    unfold startsWith in Hvar. exact Hvar.
  - unfold variable_path, y. cbn [count_while Ascii.eqb Bool.eqb].
    assert (E : count_while (Ascii.eqb "$") x = 0).
    { destruct x as [| c x]; [reflexivity |]. cbn [count_while].
      unfold startsWith in Hvar. cbn [drop_prefix] in Hvar.
      destruct (Ascii.eqb "$" c); [discriminate | reflexivity]. }
    rewrite E. cbn [drop]. now rewrite (split_word_on_dot _ Hw).
Qed.

Lemma convertArray_singleton (rec : Engine) (v r : Value) (exec : bool)
    (st st' : State) :
  r_convert rec v exec false st = Ok r st' ->
  convertArray rec [v] exec false st = Ok (VArr [r]) st'.
Proof.
  intros H. unfold convertArray. cbn [mapM]. unfold bind. rewrite H. reflexivity.
Qed.

(** The token [$x] converts to what [getVar] finds under [x]. *)
Lemma convert_variable (env : Env) (n : nat) (x : string) (exec : bool)
    (v : Value) (st : State) :
  plain_name x = true ->
  getVar (VStr x) VUndefined st = Ok v st ->
  isNullish v = false ->
  isPromise v = false ->
  convert env (engine env (S n)) (VStr (String "$" x)) exec false st = Ok v st.
Proof.
  intros Hx Hget Hnull Hprom.
  destruct (variable_token_facts x Hx)
    as (K1 & K2 & K3 & K4 & Hnum & Hfl & Hmath & Hrun & Hpath).
  unfold convert, convertSync, CONVERT.
  rewrite ladder_skip by reflexivity.
  rewrite ladder_skip by (cbn [convert_callback on_string]; now rewrite K1).
  rewrite ladder_skip by (cbn [convert_callback on_string]; now rewrite K2).
  rewrite ladder_skip by reflexivity.
  rewrite ladder_skip by (cbn [convert_callback on_string]; now rewrite K3).
  rewrite ladder_skip by (cbn [convert_callback on_string]; now rewrite K4).
  rewrite ladder_skip by (cbn [convert_callback on_string]; now rewrite Hnum).
  rewrite ladder_skip by (cbn [convert_callback on_string]; now rewrite Hfl).
  rewrite ladder_skip by reflexivity.
  rewrite ladder_skip
    by (cbn [convert_callback]; unfold isMath_callback, on_string; now rewrite Hmath).
  apply ladder_take.
  cbn [convert_callback]. unfold isVariable_callback, on_string.
  replace (isVariable (String "$" x)) with true by reflexivity.
  rewrite Hpath, Hrun.
  erewrite bind_ok; cycle 1.
  { apply convertArray_singleton. cbn [engine r_convert].
    apply convert_plain_name; [assumption | now left]. }
  assert (Hpathget : getVar (VArr [VStr x]) VUndefined st = Ok v st).
  { cbn [getVar]. erewrite bind_ok by exact Hget.
    cbn [getVar_walk]. destruct v; try discriminate; reflexivity. }
  erewrite bind_ok by exact Hpathget.
  rewrite Hnull. reflexivity.
Qed.

(** ** The command rules: [;] *)




(** ** The command rules: [|] *)

Lemma set_scope_ok (name : string) (v : Value) (st : State) :
  String.eqb name "__proto__" = false ->
  set_scope name v st = Ok tt (mkState (update name v (scope st)) (vars st)).
Proof.
  intros H. unfold set_scope, bind, get_state, modelled, obj_set, put_state, ret.
  now rewrite H.
Qed.

Lemma use_as_context_ok (res : Value) (st : State) :
  use_as_context res st
  = Ok tt (match res with
           | VUndefined => st
           | _ => mkState (update "context" res (scope st)) (vars st)
           end).
Proof. destruct res; reflexivity. Qed.

Lemma get_context_ok (c0 : Value) (st : State) :
  obj_get (scope st) "context" = Some c0 -> get_context st = Ok c0 st.
Proof.
  intros H. unfold get_context, bind, get_state, modelled. cbn beta iota.
  now rewrite H.
Qed.

(** Whatever the children do, a [|] chain leaves [scope.context] as it
    found it. *)
Lemma context_loop_restores (run : SubCommand -> M Value) (c0 : Value)
    (parts : list SubCommand) :
  forall (res v : Value) (st st' : State),
    obj_get (scope st) "context" = Some c0 ->
    context_loop run parts res st = Ok v st' ->
    obj_get (scope st') "context" = Some c0.
Proof.
  induction parts as [| part parts IH]; intros res v st st' Hc H; cbn [context_loop] in H.
  - unfold ret in H. inversion H; subst. exact Hc.
  - erewrite bind_ok in H by (apply get_context_ok; exact Hc).
    erewrite bind_ok in H by apply use_as_context_ok.
    unfold bind at 1 in H.
    destruct (run part _) as [r st1 | e st1 | w]; try discriminate.
    erewrite bind_ok in H by (apply set_scope_ok; reflexivity).
    apply IH in H; [exact H |]. cbn [scope]. apply obj_get_update_same.
Qed.

(** C3 (amended).  When [c] evaluates to a value [r] that is neither null,
    undefined nor deferred, the chain [c | $context] evaluates to [r], and
    it leaves the scope of [c] with [scope.context] restored to the value
    [c0] it had before the chain. *)
Theorem pipe_context_returns_result (env : Env) (n : nat) (c : SubCommand)
    (r c0 : Value) (st st1 : State) :
  obj_get (scope st) "context" = Some c0 ->
  r_execCommand (engine env (S (S n))) c true false st = Ok r st1 ->
  isNullish r = false ->
  isPromise r = false ->
  execCommand env (engine env (S (S n))) (Node ContextRule [c; Leaf "$context"]) true false st
  = Ok r (mkState (update "context" c0 (scope st1)) (vars st1)).
Proof.
  intros Hc Hrun Hnull Hprom.
  cbn [execCommand]. unfold context_callback. cbn [context_loop].
  erewrite bind_ok by (apply get_context_ok; exact Hc).
  erewrite bind_ok by apply use_as_context_ok.
  erewrite bind_ok by exact Hrun.
  erewrite bind_ok by (apply set_scope_ok; reflexivity).
  erewrite bind_ok by (apply get_context_ok; cbn [scope]; apply obj_get_update_same).
  erewrite bind_ok by apply use_as_context_ok.
  assert (Hr : match r with
               | VUndefined => mkState (update "context" c0 (scope st1)) (vars st1)
               | _ => mkState (update "context" r (scope (mkState (update "context" c0 (scope st1)) (vars st1))))
                              (vars (mkState (update "context" c0 (scope st1)) (vars st1)))
               end = mkState (update "context" r (scope st1)) (vars st1)).
  { cbn [scope vars]. rewrite update_update_same. destruct r; try reflexivity; discriminate. }
  rewrite Hr.
  assert (Hleaf : r_execCommand (engine env (S (S n))) (Leaf "$context") true false
                    (mkState (update "context" r (scope st1)) (vars st1))
                  = Ok r (mkState (update "context" r (scope st1)) (vars st1))).
  { cbn [engine r_execCommand execCommand].
    apply convert_variable; try assumption; [reflexivity |].
    apply getVar_scope_value; [apply obj_get_update_same | exact Hnull]. }
  erewrite bind_ok by exact Hleaf.
  erewrite bind_ok by (apply set_scope_ok; reflexivity).
  cbn [scope vars]. rewrite update_update_same. reflexivity.
Qed.

Lemma pipe_context_returns_result_witness :
  obj_get (scope (mkState [("context", VNull)] [])) "context" = Some VNull
  /\ r_execCommand (engine readme_env 2) (Leaf "5") true false (mkState [("context", VNull)] [])
     = Ok (VNum 5) (mkState [("context", VNull)] [])
  /\ execCommand readme_env (engine readme_env 2) (Node ContextRule [Leaf "5"; Leaf "$context"])
       true false (mkState [("context", VNull)] [])
     = Ok (VNum 5) (mkState [("context", VNull)] []).
Proof.
  split; [reflexivity |]. split; [reflexivity |].
  exact (@pipe_context_returns_result readme_env 0 (Leaf "5") (VNum 5) VNull
           (mkState [("context", VNull)] []) (mkState [("context", VNull)] [])
           eq_refl eq_refl eq_refl eq_refl).
Defined.

(** C3, as stated, fails: [parse("null | $context")] is undefined while
    [parse("null")] is null. *)
Lemma pipe_context_loses_null :
  value_of (run_parse readme_env 20 "null | $context" [] VNull false []) = Some VUndefined
  /\ value_of (run_parse readme_env 20 "null" [] VNull false []) = Some VNull.
Proof. split; vm_compute; reflexivity. Qed.

(** ** The command rules: [>>] *)








(* ------------------------------------------------------------------ *)
(** ** The math evaluator *)

(** No math rule leaves its callback through [Continue]. *)
Lemma math_callback_no_continue (op : MathOp) (a b : Value) (st : State) :
  match math_callback op a b st with
  | Throw (Continue _) _ => False
  | _ => True
  end.
Proof.
  destruct op; cbn [math_callback];
    unfold numeric_rule, number_operand, add_operand, bind, ret, error, modelled, halt, throw.
  all: try (destruct a; try exact I; destruct b; exact I).
  all: try (destruct (strict_equal a b); exact I).
  all: try (destruct (loose_equal a b); exact I).
  destruct a; try exact I; destruct b; try exact I.
  all: cbv beta iota delta [isObject]; try exact I.
  all: match goal with
       | |- context [js_add ?x ?y] => destruct (js_add x y)
       end; exact I.
Qed.

(** Hence an iteration of [parseMath] is the callback of the rule. *)
Lemma math_step_callback (op : MathOp) (a b : Value) (st : State) :
  math_step (math_callback op) a b st = math_callback op a b st.
Proof.
  unfold math_step.
  pose proof (math_callback_no_continue op a b st) as H.
  destruct (math_callback op a b st) as [v st' | e st' | w]; try reflexivity.
  destruct e; [contradiction | reflexivity].
Qed.




(* ------------------------------------------------------------------ *)
(** ** The command rules: synchronous and asynchronous callbacks *)

Lemma bind_assoc {A B C : Type} (m : M A) (f : A -> M B) (g : B -> M C) (st : State) :
  (y <- (x <- m ;; f x) ;; g y) st = (x <- m ;; y <- f x ;; g y) st.
Proof. unfold bind. destruct (m st); reflexivity. Qed.

Lemma bind_ext {A B : Type} (m : M A) (k k' : A -> M B) (st : State) :
  (forall a st', m st = Ok a st' -> k a st' = k' a st') ->
  (x <- m ;; k x) st = (x <- m ;; k' x) st.
Proof.
  intros H. unfold bind. destruct (m st) as [a st' | e st' | w]; auto.
Qed.

Lemma promise_not_itself (v : Value) :
  forall own, v <> VPromise v own.
Proof.
  induction v; intros own' H; try discriminate.
  injection H as H _. now apply IHv in H.
Qed.

(** Whether [await] yields its argument does not depend on the state. *)
Lemma await_settled (v : Value) (st : State) :
  await v st = Ok v st -> forall t, await v t = Ok v t.
Proof.
  destruct v; cbn [await]; unfold ret; try (intros _ t; reflexivity).
  - match goal with
    | |- context [lookup "then" ?o] => destruct (lookup "then" o) as [f |]
    end; [destruct (isFunction f) |]; unfold halt, ret;
      first [discriminate | intros _ t; reflexivity].
  - intros H. injection H as H. now apply promise_not_itself in H.
Qed.

Lemma async_return_settled (v : Value) (st : State) :
  (forall t, await v t = Ok v t) ->
  async_return v st = Ok (VPromise v []) st.
Proof. intros H. unfold async_return, bind. now rewrite H. Qed.

Section Agreement.

Variable execCommandSync : SubCommand -> M Value.
Variable execCommandAsync : SubCommand -> M Value.

(** The asynchronous runner returns a deferred value of what the
    synchronous runner returns. *)
Hypothesis async_runner :
  forall part st,
    execCommandAsync part st = (v <- execCommandSync part ;; async_return v) st.

(** The synchronous runner returns no deferred value: awaiting its result
    yields the result itself. *)
Hypothesis sync_settled :
  forall part st,
    (v <- execCommandSync part ;; await v) st = execCommandSync part st.


Lemma undefined_settled : forall t, await VUndefined t = Ok VUndefined t.
Proof. reflexivity. Qed.








End Agreement.




(* ------------------------------------------------------------------ *)
(** ** The line directive of the templates *)




(* ------------------------------------------------------------------ *)
(** * Further properties *)

(** ** Computations that only read the state *)

Lemma keeps_state_bind {A B : Type} (m : M A) (k : A -> M B) (st : State) :
  keeps_state st (m st) ->
  (forall a, keeps_state st (k a st)) ->
  keeps_state st (bind m k st).
Proof.
  intros Hm Hk. unfold bind.
  destruct (m st) as [a st' | e st' | w]; cbn [keeps_state] in *; subst; auto.
Qed.

Lemma keeps_state_modelled {A : Type} (o : option A) (st : State) :
  keeps_state st (modelled o st).
Proof. destruct o; reflexivity. Qed.

Lemma keeps_state_js_read (res key : Value) (st : State) :
  keeps_state st (js_read res key st).
Proof.
  unfold js_read. apply keeps_state_bind; [apply keeps_state_modelled |].
  intros k. apply keeps_state_modelled.
Qed.


Lemma keeps_state_then_key (v key : Value) (st : State) :
  keeps_state st (then_key v key st).
Proof.
  unfold then_key. destruct (isNullish v); [reflexivity |].
  apply keeps_state_bind; [apply keeps_state_js_read |]. intros item.
  destruct (isNullish item); [reflexivity |].
  destruct (isFunction item); [destruct (function_key key) |]; reflexivity.
Qed.

Lemma keeps_state_getVar_walk (keys : list Value) (d : Value) :
  forall (res : Value) (st : State), keeps_state st (getVar_walk keys res d st).
Proof.
  induction keys as [| key keys IH]; intros res st; cbn [getVar_walk].
  - destruct res; reflexivity.
  - assert (Hplain : keeps_state st
              ((if isNullish res then ret (nullish_or res d)
                else item <- js_read res key ;;
                     if isNullish item then ret (nullish_or item d)
                     else if isFunction item
                          then (if function_key key
                                then getVar_walk keys (bind_this item res) d
                                else error ParameterTypeInvalid)
                          else getVar_walk keys item d) st)).
    { destruct (isNullish res); [reflexivity |].
      apply keeps_state_bind; [apply keeps_state_js_read |]. intros item.
      destruct (isNullish item); [reflexivity |].
      destruct (isFunction item); [destruct (function_key key) |];
        first [apply IH | reflexivity]. }
    destruct res; try exact Hplain.
    apply keeps_state_bind; [apply keeps_state_then_key |]. intros v'. apply IH.
Qed.

(** X1.  [getVar] only reads: whatever the name or the path, and whether it
    returns or throws, the scope and the global store are as before. *)
Theorem getVar_keeps_state :
  forall (name defaultValue : Value) (st : State),
    keeps_state st (getVar name defaultValue st).
Proof.
  fix IH 1. intros name d st.
  destruct name as [| | b | x | n | path | o | id this | c | p o]; try reflexivity.
  - cbn [getVar]. apply keeps_state_bind; [reflexivity |]. intros s0.
    apply keeps_state_bind.
    + (* the read of the scope is made in the state the call started in *)
      destruct (obj_get (scope s0) n); reflexivity.
    + intros a. destruct (isNullish a); [| reflexivity].
      apply keeps_state_bind; [apply keeps_state_modelled |]. intros b. reflexivity.
  - destruct path as [| head keys]; [reflexivity |].
    cbn [getVar]. apply keeps_state_bind; [apply IH |]. intros res.
    apply keeps_state_getVar_walk.
Qed.








Lemma getVar_walk_deferred (keys : list Value) (d : Value) :
  forall (p : Value) (own : Props) (r : Value) (st st' : State),
    getVar_walk keys (VPromise p own) d st = Ok r st' -> isPromise r = true.
Proof.
  induction keys as [| key keys IH]; intros p own r st st' H; cbn [getVar_walk] in H.
  - unfold ret in H. now injection H as <- _.
  - unfold bind in H.
    destruct (then_key p key st) as [v' st1 | e st1 | w]; try discriminate.
    now apply IH in H.
Qed.

(** X5.  A path whose head is a deferred value in the scope reads as a
    deferred value, however many segments follow: [getVar] never hands out
    the settled value itself. *)
Theorem getVar_deferred_head (n : string) (keys : list Value) (p : Value) (own : Props)
    (d r : Value) (st st' : State) :
  obj_get (scope st) n = Some (VPromise p own) ->
  getVar (VArr (VStr n :: keys)) d st = Ok r st' ->
  isPromise r = true.
Proof.
  intros Hs H. cbn [getVar] in H.
  unfold bind at 1 in H. unfold bind, get_state, modelled, ret in H.
  rewrite Hs in H. cbn [isNullish] in H.
  now apply getVar_walk_deferred in H.
Qed.

Lemma getVar_deferred_head_witness :
  getVar (VArr [VStr "p"; VStr "k"]) VUndefined
    (mkState [("p", VPromise (VObj [("k", VNum 1)]) [])] [])
  = Ok (VPromise (VNum 1) []) (mkState [("p", VPromise (VObj [("k", VNum 1)]) [])] [])
  /\ isPromise (VPromise (VNum 1) []) = true.
Proof.
  split; [reflexivity |].
  exact (@getVar_deferred_head "p" [VStr "k"] (VObj [("k", VNum 1)]) [] VUndefined
           (VPromise (VNum 1) []) (mkState [("p", VPromise (VObj [("k", VNum 1)]) [])] [])
           (mkState [("p", VPromise (VObj [("k", VNum 1)]) [])] []) eq_refl eq_refl).
Defined.

Lemma getVar_walk_undefined (keys : list Value) (st : State) :
  getVar_walk keys VUndefined VUndefined st = Ok VUndefined st.
Proof. destruct keys; reflexivity. Qed.

(** X6.  When neither the scope nor the store defines the head of a path,
    the walk over the remaining segments starts from the default value
    itself; with the default undefined the path reads as undefined. *)
Theorem getVar_missing_head (n : string) (keys : list Value) (a b d : Value) (st : State) :
  obj_get (scope st) n = Some a ->
  isNullish a = true ->
  obj_get (vars st) n = Some b ->
  isNullish b = true ->
  getVar (VArr (VStr n :: keys)) d st = getVar_walk keys d d st
  /\ getVar (VArr (VStr n :: keys)) VUndefined st = Ok VUndefined st.
Proof.
  intros Hs Ha Hg Hb.
  assert (Hhead : forall d', getVar (VStr n) d' st = Ok d' st).
  { intros d'. cbn [getVar]. unfold bind, get_state, modelled, ret.
    rewrite Hs, Ha, Hg. unfold nullish_or. now rewrite Hb. }
  split; cbn [getVar] in *.
  - erewrite bind_ok by apply Hhead. reflexivity.
  - erewrite bind_ok by apply Hhead. apply getVar_walk_undefined.
Qed.

Lemma getVar_missing_head_witness :
  getVar (VArr [VStr "nope"; VStr "length"]) (VStr "abc") (mkState [] [])
  = Ok (VNum 3) (mkState [] [])
  /\ getVar (VArr [VStr "nope"; VStr "length"]) VUndefined (mkState [] [])
     = Ok VUndefined (mkState [] []).
Proof.
  split.
  - refine (eq_trans (proj1 (@getVar_missing_head "nope" [VStr "length"] VUndefined
                               VUndefined (VStr "abc") (mkState [] [])
                               eq_refl eq_refl eq_refl eq_refl)) _).
    vm_compute. reflexivity.
  - exact (proj2 (@getVar_missing_head "nope" [VStr "length"] VUndefined VUndefined
                    (VStr "abc") (mkState [] []) eq_refl eq_refl eq_refl eq_refl)).
Defined.

(** X7.  Assigning through a path whose head the store does not define
    fails with a TypeError and leaves the state as it was: [setVar] creates
    no intermediate object. *)
Theorem setVar_missing_head (a : string) (keys : list Value) (v : Value) (st : State) :
  lookup a (vars st) = None ->
  is_proto_key a = false ->
  setVar (VArr (VStr a :: keys)) v st = Throw (Failure JsTypeError) st.
Proof.
  intros Hg Hp. unfold setVar. cbn [nth to_key].
  unfold bind at 1. cbn [get_state].
  unfold bind at 1. cbn [modelled ret].
  unfold bind at 1. unfold obj_get. rewrite Hg, Hp. cbn [modelled ret isPromise].
  unfold bind at 1.
  assert (H : forall middle last,
             assign_path VUndefined middle last v st = Throw (Failure JsTypeError) st).
  { intros middle last. destruct middle; reflexivity. }
  now rewrite H.
Qed.

Lemma setVar_missing_head_witness :
  setVar (VArr [VStr "a"; VStr "b"]) (VNum 1) (mkState [] [])
  = Throw (Failure JsTypeError) (mkState [] []).
Proof.
  exact (@setVar_missing_head "a" [VStr "b"] (VNum 1) (mkState [] []) eq_refl eq_refl).
Defined.

(* ------------------------------------------------------------------ *)
(** ** commands.ts: the binding of positional tokens *)

Lemma set_nth_length (v : Value) (l : list Value) :
  set_nth (List.length l) v l = l ++ [v].
Proof. induction l as [| x l IH]; cbn [List.length set_nth app]; congruence. Qed.

Lemma nth_length_app (v : Value) (l : list Value) :
  nth (List.length l) (l ++ [v]) VUndefined = v.
Proof. induction l as [| x l IH]; cbn [List.length nth app]; auto. Qed.

Lemma nth_length_undefined (l : list Value) :
  nth (List.length l) l VUndefined = VUndefined.
Proof. induction l as [| x l IH]; cbn [List.length nth]; auto. Qed.

Lemma named_arg_from_plain (key : string) (ds : list CommandArg) :
  forall i,
    Forall (fun d => String.eqb (arg_name d) key = false) ds ->
    named_arg_from i ds key = None.
Proof.
  induction ds as [| d ds IH]; intros i H; cbn [named_arg_from]; [reflexivity |].
  inversion H as [| d' ds' Hd Hds]; subst.
  rewrite (IH (S i) Hds), Hd. reflexivity.
Qed.

Lemma plain_descriptor_facts (d : CommandArg) :
  plain_descriptor d = true ->
  String.eqb (arg_name d) "scope" = false
  /\ String.eqb (arg_name d) "mode" = false
  /\ arg_variadic d = false.
Proof.
  unfold plain_descriptor. intros H.
  apply andb_true_iff in H. destruct H as [H Hv].
  apply andb_true_iff in H. destruct H as [Hs Hm].
  apply negb_true_iff in Hs, Hm, Hv. auto.
Qed.

Lemma positional_token_facts (v : Value) :
  positional_token v = true -> is_long_option v = false /\ is_dash v = false.
Proof.
  unfold positional_token. intros H. apply negb_true_iff in H. split; [| exact H].
  destruct (is_long_option v) eqn:E; [| reflexivity].
  apply is_long_option_is_dash in E. congruence.
Qed.

(** The state of the binding after [i] positional tokens. *)
Lemma binding_eta (b : Binding) :
  b = mkBinding (callbackArgs b) (lastArgs b) (key b) (optional b) (variadic b).
Proof. destruct b; reflexivity. Qed.

(** The [for] loop of [execFn] over plain descriptors: each takes the next
    token, as long as there is one, and its default after that. *)
Lemma bind_args_plain (env : Env) (cmd : Command) (total : nat) (ds : list CommandArg) :
  forall (toks extra : list Value) (b : Binding) (st : State),
    forallb plain_descriptor ds = true ->
    forallb positional_token toks = true ->
    forallb (fun v => negb (isNullish v)) toks = true ->
    List.length toks <= List.length ds ->
    (List.length toks < List.length ds -> extra = []) ->
    forallb may_be_omitted (skipn (List.length toks) ds) = true ->
    key b = None ->
    optional b = false ->
    bind_args env cmd total (List.length (callbackArgs b)) ds (toks ++ extra) b st
    = Ok (extra,
          mkBinding (callbackArgs b ++ toks ++ map arg_default (skipn (List.length toks) ds))
                    (lastArgs b) None false (variadic b)) st.
Proof.
  induction ds as [| d ds IH]; intros toks extra b st Hds Htok Hnn Hlen Hextra Hopt Hk Ho.
  - destruct toks; [| cbn [List.length] in Hlen; lia].
    cbn [bind_args app skipn map List.length]. rewrite app_nil_r.
    unfold ret. rewrite (binding_eta b) at 1. now rewrite Hk, Ho.
  - cbn [forallb] in Hds. apply andb_true_iff in Hds. destruct Hds as [Hd Hds].
    destruct (plain_descriptor_facts d Hd) as (Hs & Hm & Hv).
    cbn [bind_args]. rewrite Hs, Hm, Hv. cbn [andb].
    destruct toks as [| t toks].
    + (* no token left: the descriptor takes its default *)
      assert (He : extra = []) by (apply Hextra; cbn [List.length]; lia).
      subst extra. cbn [app drain]. unfold bind at 1. unfold ret at 1.
      cbn [snd fst]. unfold after_drain, pending_true. rewrite Hk, Hv.
      rewrite nth_length_undefined. cbn [isNullish].
      unfold set_arg. cbn [callbackArgs lastArgs]. rewrite set_nth_length, nth_length_app.
      cbn [List.length skipn forallb] in Hopt.
      apply andb_true_iff in Hopt. destruct Hopt as [Hd0 Hopt].
      unfold may_be_omitted in Hd0. apply orb_true_iff in Hd0.
      assert (Hreq : arg_required d && (isNullish (arg_default d) && negb false
                                        || false && (List.length (lastArgs b) =? 0)) = false).
      { destruct Hd0 as [H0 | H0]; apply negb_true_iff in H0; rewrite H0;
          [reflexivity | now destruct (arg_required d)]. }
      rewrite Hreq. unfold bind at 1. unfold ret at 1.
      pose proof (IH [] []
                    (mkBinding (callbackArgs b ++ [arg_default d]) (lastArgs b) (key b)
                               (optional b) (variadic b)) st Hds eq_refl eq_refl) as IH'.
      cbn [List.length skipn callbackArgs lastArgs key optional variadic app map] in IH'.
      rewrite length_app, Nat.add_1_r in IH'. cbn [List.length] in IH'.
      rewrite IH'; try first [assumption | lia | reflexivity].
      cbn [List.length skipn map app]. now rewrite <- app_assoc.
    + (* the descriptor takes the token *)
      cbn [forallb] in Htok, Hnn.
      apply andb_true_iff in Htok. destruct Htok as [Ht Htok].
      apply andb_true_iff in Hnn. destruct Hnn as [Htn Hnn]. apply negb_true_iff in Htn.
      destruct (positional_token_facts t Ht) as [Hlong Hdash].
      cbn [app drain]. rewrite Hlong, Hdash, Hk, Ho, Hv.
      unfold bind at 1. unfold ret at 1. cbn [snd fst].
      unfold nullish_or. rewrite Htn.
      unfold after_drain, pending_true, set_arg.
      cbn [key callbackArgs lastArgs optional variadic]. rewrite Hk, Hv.
      cbn [callbackArgs lastArgs].
      rewrite set_nth_length. cbn [callbackArgs].
      rewrite nth_length_app, Htn. cbn [callbackArgs].
      rewrite nth_length_app, Htn.
      match goal with
      | |- context [if ?c then error PropertyRequired else _] =>
          replace c with false by (destruct (arg_required d); reflexivity)
      end.
      unfold bind at 1. unfold ret at 1.
      cbn [List.length skipn] in Hopt, Hlen, Hextra.
      pose proof (IH toks extra
                    (mkBinding (callbackArgs b ++ [t]) (lastArgs b) None
                               (optional b) (variadic b)) st Hds Htok Hnn) as IH'.
      cbn [callbackArgs lastArgs key optional variadic] in IH'.
      rewrite length_app, Nat.add_1_r in IH'. cbn [List.length] in IH'.
      rewrite IH'; try first [assumption | lia | reflexivity].
      * cbn [List.length skipn app]. now rewrite <- app_assoc.
      * intros H. apply Hextra. lia.
Qed.

Lemma default_mode_plain (cmd : Command) (b : Binding) :
  forallb plain_descriptor (cmd_args cmd) = true ->
  default_mode cmd b = b.
Proof.
  intros H. unfold default_mode, named_arg.
  rewrite named_arg_from_plain; [reflexivity |].
  apply Forall_forall. intros d Hd.
  rewrite forallb_forall in H.
  now destruct (plain_descriptor_facts d (H d Hd)) as (_ & Hm & _).
Qed.

(** X8.  For a command whose descriptors are all plain (none is [scope],
    [mode] or variadic), as many positional tokens as there are descriptors
    are passed to the callback in their order; the tokens after them,
    whatever they are, are ignored. *)
Theorem execFn_binds_positionals (env : Env) (call : Value -> list Value -> M Value)
    (name : string) (cmd : Command) (toks extra : list Value) (st : State) :
  lookup_command name (commands env) = Some cmd ->
  forallb plain_descriptor (cmd_args cmd) = true ->
  forallb positional_token toks = true ->
  forallb (fun v => negb (isNullish v)) toks = true ->
  List.length toks = List.length (cmd_args cmd) ->
  toks <> [] ->
  execFn env call (VStr name) (toks ++ extra) false st = call (cmd_callback cmd) toks st.
Proof.
  intros Hcmd Hds Htok Hnn Hlen Hne. unfold execFn. rewrite Hcmd.
  pose proof (@bind_args_plain env cmd (List.length (cmd_args cmd)) (cmd_args cmd)
                toks extra empty_binding st Hds Htok Hnn) as H.
  cbn [empty_binding callbackArgs lastArgs variadic List.length app] in H.
  rewrite Hlen, skipn_all in H. cbn [map] in H. rewrite app_nil_r in H.
  erewrite bind_ok by (apply H; try first [reflexivity | lia]).
  cbn [fst snd]. rewrite default_mode_plain by exact Hds.
  cbn [callbackArgs lastArgs]. rewrite app_nil_r.
  assert (Hz : (List.length (cmd_args cmd) =? 0) = false).
  { apply Nat.eqb_neq. rewrite <- Hlen. destruct toks; [contradiction | discriminate]. }
  rewrite Hz. reflexivity.
Qed.

Lemma execFn_binds_positionals_witness :
  execFn readme_env (call readme_env (engine readme_env 0)) (VStr "async")
    ([VNum 1; VBool true] ++ [VStr "--bogus"; VNum 2]) false (mkState [] [])
  = Ok (VPromise (VArr [VNum 1]) []) (mkState [] []).
Proof.
  refine (eq_trans
            (@execFn_binds_positionals readme_env (call readme_env (engine readme_env 0))
               "async"
               (mkCommand (VNative "async" VUndefined) []
                  [mkArg "context" false false VUndefined;
                   mkArg "asArray" false false (VBool false)])
               [VNum 1; VBool true] [VStr "--bogus"; VNum 2] (mkState [] [])
               eq_refl eq_refl eq_refl eq_refl eq_refl _) eq_refl).
  discriminate.
Defined.

(** X9.  For a command whose descriptors are all plain, given fewer
    positional tokens than descriptors, the descriptors left take their
    defaults, provided each of them is not required or has a default that
    is neither null nor undefined. *)
Theorem execFn_fills_defaults (env : Env) (call : Value -> list Value -> M Value)
    (name : string) (cmd : Command) (toks : list Value) (st : State) :
  lookup_command name (commands env) = Some cmd ->
  forallb plain_descriptor (cmd_args cmd) = true ->
  forallb positional_token toks = true ->
  forallb (fun v => negb (isNullish v)) toks = true ->
  List.length toks <= List.length (cmd_args cmd) ->
  forallb may_be_omitted (skipn (List.length toks) (cmd_args cmd)) = true ->
  execFn env call (VStr name) toks false st
  = call (cmd_callback cmd)
      (toks ++ map arg_default (skipn (List.length toks) (cmd_args cmd))) st.
Proof.
  intros Hcmd Hds Htok Hnn Hlen Hopt. unfold execFn. rewrite Hcmd.
  pose proof (@bind_args_plain env cmd (List.length (cmd_args cmd)) (cmd_args cmd)
                toks [] empty_binding st Hds Htok Hnn Hlen (fun _ => eq_refl) Hopt
                eq_refl eq_refl) as H.
  cbn [empty_binding callbackArgs lastArgs variadic List.length app] in H.
  rewrite app_nil_r in H. erewrite bind_ok by exact H.
  cbn [fst snd]. rewrite default_mode_plain by exact Hds.
  cbn [callbackArgs lastArgs List.length]. rewrite app_nil_r, andb_false_r. reflexivity.
Qed.

Lemma execFn_fills_defaults_witness :
  execFn readme_env (call readme_env (engine readme_env 0)) (VStr "async")
    [VNum 1] false (mkState [] [])
  = call readme_env (engine readme_env 0) (VNative "async" VUndefined)
      [VNum 1; VBool false] (mkState [] []).
Proof.
  exact (@execFn_fills_defaults readme_env (call readme_env (engine readme_env 0))
           "async"
           (mkCommand (VNative "async" VUndefined) []
              [mkArg "context" false false VUndefined;
               mkArg "asArray" false false (VBool false)])
           [VNum 1] (mkState [] []) eq_refl eq_refl eq_refl eq_refl (le_S _ _ (le_n _))
           eq_refl).
Defined.

(** The [for] loop of [execFn] over two runs of descriptors. *)
Lemma bind_args_app (env : Env) (cmd : Command) (total : nat) (ds1 ds2 : list CommandArg) :
  forall (i : nat) (args : list Value) (b : Binding) (st : State),
    bind_args env cmd total i (ds1 ++ ds2) args b st
    = (r <- bind_args env cmd total i ds1 args b ;;
       bind_args env cmd total (i + List.length ds1) ds2 (fst r) (snd r)) st.
Proof.
  induction ds1 as [| d ds1 IH]; intros i args b st; cbn [app bind_args List.length].
  - unfold bind, ret. cbn [fst snd]. now rewrite Nat.add_0_r.
  - replace (i + S (List.length ds1)) with (S i + List.length ds1) by lia.
    destruct (String.eqb (arg_name d) "scope").
    + rewrite bind_assoc. apply bind_ext. intros s0 st' _. apply IH.
    + destruct (String.eqb (arg_name d) "mode" && (i <? total)); [apply IH |].
      destruct (arg_variadic d && negb (i =? total - 1)); [reflexivity |].
      rewrite bind_assoc. apply bind_ext. intros r st' _.
      rewrite bind_assoc. apply bind_ext. intros b' st'' _. apply IH.
Qed.

(** The [while] loop of [execFn] at a variadic descriptor collects every
    positional token. *)
Lemma drain_variadic (env : Env) (cmd : Command) (i : nat) (d : CommandArg)
    (toks : list Value) :
  forall (b : Binding) (st : State),
    arg_variadic d = true ->
    forallb positional_token toks = true ->
    key b = None ->
    optional b = false ->
    drain env cmd i d toks b st
    = Ok ([], mkBinding (callbackArgs b) (lastArgs b ++ toks) None false
                match toks with [] => variadic b | _ => true end) st.
Proof.
  induction toks as [| t toks IH]; intros b st Hv Htok Hk Ho; cbn [drain].
  - unfold ret. rewrite app_nil_r. rewrite (binding_eta b) at 1. now rewrite Hk, Ho.
  - cbn [forallb] in Htok. apply andb_true_iff in Htok. destruct Htok as [Ht Htok].
    destruct (positional_token_facts t Ht) as [Hlong Hdash].
    rewrite Hlong, Hdash, Hk, Ho, Hv.
    rewrite IH by assumption.
    unfold set_variadic, push_last. cbn [callbackArgs lastArgs variadic].
    rewrite <- app_assoc. cbn [app]. now destruct toks.
Qed.

(** X10.  For a command whose descriptors are plain ones followed by a
    variadic one, the positional tokens go to the plain descriptors in
    their order and all the tokens left are collected for the variadic
    one: the callback receives the tokens as they came. *)
Theorem execFn_variadic_tail (env : Env) (call : Value -> list Value -> M Value)
    (name : string) (cmd : Command) (ds : list CommandArg) (dv : CommandArg)
    (toks more : list Value) (st : State) :
  lookup_command name (commands env) = Some cmd ->
  cmd_args cmd = ds ++ [dv] ->
  forallb plain_descriptor ds = true ->
  String.eqb (arg_name dv) "scope" = false ->
  String.eqb (arg_name dv) "mode" = false ->
  arg_variadic dv = true ->
  forallb positional_token (toks ++ more) = true ->
  forallb (fun v => negb (isNullish v)) toks = true ->
  List.length toks = List.length ds ->
  more <> [] ->
  execFn env call (VStr name) (toks ++ more) false st
  = call (cmd_callback cmd) (toks ++ more) st.
Proof.
  intros Hcmd Hargs Hds Hs Hm Hv Htok Hnn Hlen Hmore.
  rewrite forallb_app in Htok. apply andb_true_iff in Htok. destruct Htok as [Ht1 Ht2].
  assert (Hlast : (List.length more =? 0) = false).
  { apply Nat.eqb_neq. destruct more; [contradiction | discriminate]. }
  assert (Hbind : bind_args env cmd (List.length (ds ++ [dv])) 0 (ds ++ [dv]) (toks ++ more)
                    empty_binding st
                  = Ok ([], mkBinding toks more None false true) st).
  { rewrite bind_args_app.
    pose proof (@bind_args_plain env cmd (List.length (ds ++ [dv])) ds
                  toks more empty_binding st Hds Ht1 Hnn) as H.
    cbn [empty_binding callbackArgs lastArgs variadic List.length app] in H.
    rewrite Hlen, skipn_all in H. cbn [map] in H. rewrite app_nil_r in H.
    erewrite bind_ok by (apply H; try first [reflexivity | lia]).
    cbn [fst snd bind_args Nat.add]. rewrite Hs, Hm, Hv. cbn [andb].
    rewrite length_app. cbn [List.length].
    replace (List.length ds + 1 - 1) with (List.length ds) by lia.
    rewrite Nat.eqb_refl. cbn [negb].
    erewrite bind_ok by (apply drain_variadic; try first [assumption | reflexivity]).
    cbn [fst snd]. unfold after_drain, pending_true. cbn [key]. rewrite Hv.
    cbn [lastArgs app negb andb orb]. rewrite Hlast, andb_false_r. cbn [orb].
    rewrite andb_false_r. unfold bind, ret. cbn [callbackArgs].
    now destruct more. }
  unfold execFn. rewrite Hcmd, Hargs.
  erewrite bind_ok by exact Hbind.
  cbn [fst snd]. unfold default_mode, named_arg. rewrite Hargs.
  rewrite named_arg_from_plain.
  - cbn [callbackArgs lastArgs List.length]. rewrite andb_false_r. reflexivity.
  - apply Forall_app. split.
    + apply Forall_forall. intros d Hd. rewrite forallb_forall in Hds.
      now destruct (plain_descriptor_facts d (Hds d Hd)) as (_ & Hm' & _).
    + constructor; [exact Hm | constructor].
Qed.

Lemma execFn_variadic_tail_witness :
  execFn readme_env (call readme_env (engine readme_env 0)) (VStr "min")
    ([] ++ [VNum 3; VNum 1; VNum 2]) false (mkState [] [])
  = Ok (VNum 1) (mkState [] []).
Proof.
  refine (eq_trans
            (@execFn_variadic_tail readme_env (call readme_env (engine readme_env 0))
               "min"
               (mkCommand (VNative "min" VUndefined) [] [mkArg "values" true true VUndefined])
               [] (mkArg "values" true true VUndefined) [] [VNum 3; VNum 1; VNum 2]
               (mkState [] []) eq_refl eq_refl eq_refl eq_refl eq_refl eq_refl eq_refl
               eq_refl eq_refl _) _).
  - discriminate.
  - vm_compute. reflexivity.
Defined.

(** X11.  A required descriptor that gets no token fails the call with
    PropertyRequired before the callback is reached: a plain one when its
    default is null or undefined, the variadic one (the last) always. *)
Theorem execFn_required_missing (env : Env) (call : Value -> list Value -> M Value)
    (name : string) (cmd : Command) (ds ds2 : list CommandArg) (d : CommandArg)
    (toks : list Value) (st : State) :
  lookup_command name (commands env) = Some cmd ->
  cmd_args cmd = ds ++ d :: ds2 ->
  forallb plain_descriptor ds = true ->
  forallb positional_token toks = true ->
  forallb (fun v => negb (isNullish v)) toks = true ->
  List.length toks = List.length ds ->
  String.eqb (arg_name d) "scope" = false ->
  String.eqb (arg_name d) "mode" = false ->
  arg_required d = true ->
  (arg_variadic d = false /\ isNullish (arg_default d) = true)
  \/ (arg_variadic d = true /\ ds2 = []) ->
  execFn env call (VStr name) toks false st = Throw (Failure PropertyRequired) st.
Proof.
  intros Hcmd Hargs Hds Htok Hnn Hlen Hs Hm Hreq Hkind.
  assert (Hbind : bind_args env cmd (List.length (ds ++ d :: ds2)) 0 (ds ++ d :: ds2)
                    toks empty_binding st
                  = Throw (Failure PropertyRequired) st).
  { rewrite bind_args_app.
    pose proof (@bind_args_plain env cmd (List.length (ds ++ d :: ds2)) ds
                  toks [] empty_binding st Hds Htok Hnn) as H.
    cbn [empty_binding callbackArgs lastArgs variadic List.length app] in H.
    rewrite Hlen, skipn_all in H. cbn [map] in H. rewrite !app_nil_r in H.
    erewrite bind_ok by (apply H; try first [reflexivity | lia]).
    cbn [fst snd bind_args Nat.add]. rewrite Hs, Hm. cbn [andb].
    destruct Hkind as [[Hv Hdef] | [Hv Hds2]]; rewrite Hv; cbn [andb].
    - cbn [drain]. unfold bind at 1. unfold ret at 1. cbn [fst snd].
      unfold after_drain, pending_true. cbn [key]. rewrite Hv, Hreq.
      cbn [callbackArgs]. rewrite <- Hlen, nth_length_undefined. cbn [isNullish].
      unfold set_arg. cbn [callbackArgs]. rewrite set_nth_length, nth_length_app, Hdef.
      reflexivity.
    - subst ds2. rewrite length_app. cbn [List.length].
      replace (List.length ds + 1 - 1) with (List.length ds) by lia.
      rewrite Nat.eqb_refl. cbn [negb drain].
      unfold bind at 1. unfold ret at 1. cbn [fst snd].
      unfold after_drain, pending_true. cbn [key]. rewrite Hv, Hreq.
      cbn [lastArgs List.length Nat.eqb andb orb negb]. rewrite andb_false_r. reflexivity. }
  unfold execFn. rewrite Hcmd, Hargs.
  unfold bind. now rewrite Hbind.
Qed.

Lemma execFn_required_missing_witness :
  execFn readme_env (call readme_env (engine readme_env 0)) (VStr "min") [] false
    (mkState [] [])
  = Throw (Failure PropertyRequired) (mkState [] []).
Proof.
  refine (@execFn_required_missing readme_env (call readme_env (engine readme_env 0))
            "min"
            (mkCommand (VNative "min" VUndefined) [] [mkArg "values" true true VUndefined])
            [] [] (mkArg "values" true true VUndefined) [] (mkState [] [])
            eq_refl eq_refl eq_refl eq_refl eq_refl eq_refl eq_refl eq_refl eq_refl _).
  right. split; reflexivity.
Defined.



(* ------------------------------------------------------------------ *)
(** ** The command rules: chains of [||], [&&] and [??] *)

Section Chains.

Variable run : SubCommand -> M Value.

Lemma fail_loop_nonempty (parts : list SubCommand) (res res' : Value) (st : State) :
  parts <> [] -> fail_loop run parts res st = fail_loop run parts res' st.
Proof. destruct parts; [contradiction | reflexivity]. Qed.

Lemma success_loop_nonempty (parts : list SubCommand) (res res' : Value) (st : State) :
  parts <> [] -> success_loop run parts res st = success_loop run parts res' st.
Proof. destruct parts; [contradiction | reflexivity]. Qed.

Lemma nullish_loop_nonempty (parts : list SubCommand) (res res' : Value) (st : State) :
  parts <> [] -> nullish_loop run parts res st = nullish_loop run parts res' st.
Proof. destruct parts; [contradiction | reflexivity]. Qed.

Lemma fail_loop_app (pre post : list SubCommand) :
  forall (res : Value) (st : State),
    pre <> [] ->
    fail_loop run (pre ++ post) res st
    = match fail_loop run pre res st with
      | Ok v st' => if truthy v then Ok v st' else fail_loop run post v st'
      | Throw e st' => Throw e st'
      | Halt w => Halt w
      end.
Proof.
  induction pre as [| p pre IH]; intros res st Hne; [contradiction |].
  cbn [app fail_loop]. unfold bind.
  destruct (run p st) as [v st1 | e st1 | w]; try reflexivity.
  destruct (truthy v) eqn:Hv.
  - unfold ret. now rewrite Hv.
  - destruct pre as [| q pre].
    + cbn [app fail_loop]. unfold ret. now rewrite Hv.
    + apply IH. discriminate.
Qed.

Lemma success_loop_app (pre post : list SubCommand) :
  forall (res : Value) (st : State),
    pre <> [] ->
    success_loop run (pre ++ post) res st
    = match success_loop run pre res st with
      | Ok v st' => if truthy v then success_loop run post v st' else Ok v st'
      | Throw e st' => Throw e st'
      | Halt w => Halt w
      end.
Proof.
  induction pre as [| p pre IH]; intros res st Hne; [contradiction |].
  cbn [app success_loop]. unfold bind.
  destruct (run p st) as [v st1 | e st1 | w]; try reflexivity.
  destruct (truthy v) eqn:Hv; cbn [negb].
  - destruct pre as [| q pre].
    + cbn [app success_loop]. unfold ret. now rewrite Hv.
    + apply IH. discriminate.
  - unfold ret. now rewrite Hv.
Qed.

Lemma nullish_loop_app (pre post : list SubCommand) :
  forall (res : Value) (st : State),
    pre <> [] ->
    nullish_loop run (pre ++ post) res st
    = match nullish_loop run pre res st with
      | Ok v st' => if isNullish v then nullish_loop run post v st' else Ok v st'
      | Throw e st' => Throw e st'
      | Halt w => Halt w
      end.
Proof.
  induction pre as [| p pre IH]; intros res st Hne; [contradiction |].
  cbn [app nullish_loop]. unfold bind.
  destruct (run p st) as [v st1 | e st1 | w]; try reflexivity.
  destruct (isNullish v) eqn:Hv; cbn [negb].
  - destruct pre as [| q pre].
    + cbn [app nullish_loop]. unfold ret. now rewrite Hv.
    + apply IH. discriminate.
  - unfold ret. now rewrite Hv.
Qed.

End Chains.

(** X13.  The chains of [||], [&&] and [??] short-circuit and associate: a
    chain [pre ++ post] runs the chain [pre]; when its result decides (it is
    truthy for [||], falsy for [&&], neither null nor undefined for [??])
    that is the result and no part of [post] is run; otherwise the result
    is that of the chain [post], run on the state [pre] left. *)
Theorem short_circuit_chains (run : SubCommand -> M Value) (pre post : list SubCommand)
    (st : State) :
  pre <> [] ->
  post <> [] ->
  fail_callback run (pre ++ post) st
  = match fail_callback run pre st with
    | Ok v st' => if truthy v then Ok v st' else fail_callback run post st'
    | Throw e st' => Throw e st'
    | Halt w => Halt w
    end
  /\ success_callback run (pre ++ post) st
     = match success_callback run pre st with
       | Ok v st' => if truthy v then success_callback run post st' else Ok v st'
       | Throw e st' => Throw e st'
       | Halt w => Halt w
       end
  /\ nullish_callback run (pre ++ post) st
     = match nullish_callback run pre st with
       | Ok v st' => if isNullish v then nullish_callback run post st' else Ok v st'
       | Throw e st' => Throw e st'
       | Halt w => Halt w
       end.
Proof.
  intros Hpre Hpost. unfold fail_callback, success_callback, nullish_callback.
  rewrite (@fail_loop_app run pre post VUndefined st Hpre),
          (@success_loop_app run pre post VUndefined st Hpre),
          (@nullish_loop_app run pre post VUndefined st Hpre).
  repeat split.
  - destruct (fail_loop run pre VUndefined st) as [v st' | |]; try reflexivity.
    destruct (truthy v); [reflexivity | now apply fail_loop_nonempty].
  - destruct (success_loop run pre VUndefined st) as [v st' | |]; try reflexivity.
    destruct (truthy v); [now apply success_loop_nonempty | reflexivity].
  - destruct (nullish_loop run pre VUndefined st) as [v st' | |]; try reflexivity.
    destruct (isNullish v); [now apply nullish_loop_nonempty | reflexivity].
Qed.

Lemma short_circuit_chains_witness :
  let run := fun part : SubCommand =>
               match part with
               | Leaf s => if String.eqb s "" then ret VNull else ret (VStr s)
               | Node _ _ => halt Unmodelled
               end in
  fail_callback run ([Leaf ""; Leaf "a"] ++ [Node EndRule []]) (mkState [] [])
  = Ok (VStr "a") (mkState [] [])
  /\ success_callback run ([Leaf "a"; Leaf ""] ++ [Node EndRule []]) (mkState [] [])
     = Ok VNull (mkState [] [])
  /\ nullish_callback run ([Leaf ""; Leaf "a"] ++ [Node EndRule []]) (mkState [] [])
     = Ok (VStr "a") (mkState [] []).
Proof.
  intro run.
  assert (H1 : [Leaf ""; Leaf "a"] <> []) by discriminate.
  assert (H2 : [Leaf "a"; Leaf ""] <> []) by discriminate.
  assert (H3 : [Node EndRule []] <> []) by discriminate.
  split; [| split].
  - exact (proj1 (@short_circuit_chains run [Leaf ""; Leaf "a"] [Node EndRule []]
                    (mkState [] []) H1 H3)).
  - exact (proj1 (proj2 (@short_circuit_chains run [Leaf "a"; Leaf ""] [Node EndRule []]
                           (mkState [] []) H2 H3))).
  - exact (proj2 (proj2 (@short_circuit_chains run [Leaf ""; Leaf "a"] [Node EndRule []]
                           (mkState [] []) H1 H3))).
Defined.

(* ------------------------------------------------------------------ *)
(** ** The command rules: chains of [|] and of [>>] *)

(** X14.  A [|] chain of any length that returns leaves [scope.context] as
    it found it, whatever its children do to the scope. *)
Theorem pipe_chain_restores_context (run : SubCommand -> M Value) (c0 v : Value)
    (parts : list SubCommand) (st st' : State) :
  obj_get (scope st) "context" = Some c0 ->
  context_callback run parts st = Ok v st' ->
  obj_get (scope st') "context" = Some c0.
Proof.
  intros Hc H. unfold context_callback in H.
  exact (@context_loop_restores run c0 parts VUndefined v st st' Hc H).
Qed.

Lemma pipe_chain_restores_context_witness :
  let run := fun part : SubCommand =>
               match part with
               | Leaf s => set_scope "context" (VStr s) ;;; ret (VStr s)
               | Node _ _ => ret VUndefined
               end in
  context_callback run [Leaf "a"; Leaf "b"; Leaf "c"] (mkState [("context", VNum 1)] [])
  = Ok (VStr "c") (mkState [("context", VNum 1)] [])
  /\ obj_get (scope (mkState [("context", VNum 1)] [])) "context" = Some (VNum 1).
Proof.
  intro run. split; [reflexivity |].
  exact (@pipe_chain_restores_context run (VNum 1) (VStr "c")
           [Leaf "a"; Leaf "b"; Leaf "c"] (mkState [("context", VNum 1)] [])
           (mkState [("context", VNum 1)] []) eq_refl eq_refl).
Defined.

Lemma out_loop_names (run : SubCommand -> M Value) (r : Value) (xs : list string) :
  forall st : State,
    (forall x s, In x xs -> run (Leaf x) s = Ok (VStr x) s) ->
    Forall (fun x => String.eqb x "__proto__" = false) xs ->
    out_loop run (map Leaf xs) r st
    = Ok tt (mkState (scope st) (fold_left (fun g x => update x r g) xs (vars st))).
Proof.
  induction xs as [| x xs IH]; intros st Hrun Hxs; cbn [map out_loop fold_left].
  - unfold ret. now destruct st.
  - inversion Hxs as [| x' xs' Hx Hxs']; subst.
    erewrite bind_ok by (apply Hrun; now left).
    erewrite bind_ok by (apply setVar_simple_name; exact Hx).
    rewrite IH; [reflexivity | | exact Hxs'].
    intros y s Hy. apply Hrun. now right.
Qed.

(** X15.  [first >> x1 >> ... >> xn] assigns the result of [first] to every
    name, in their order, in the global store, leaves the scope to what
    [first] made of it, and returns the result. *)
Theorem out_assigns_every_name (run : SubCommand -> M Value) (first : SubCommand)
    (xs : list string) (r : Value) (st st1 : State) :
  run first st = Ok r st1 ->
  (forall x s, In x xs -> run (Leaf x) s = Ok (VStr x) s) ->
  Forall (fun x => String.eqb x "__proto__" = false) xs ->
  out_callback run (first :: map Leaf xs) st
  = Ok r (mkState (scope st1) (fold_left (fun g x => update x r g) xs (vars st1))).
Proof.
  intros Hfirst Hrun Hxs. cbn [out_callback].
  erewrite bind_ok by exact Hfirst.
  erewrite bind_ok by (apply out_loop_names; assumption).
  reflexivity.
Qed.

Lemma out_assigns_every_name_witness :
  let run := fun part : SubCommand =>
               match part with
               | Leaf s => ret (VStr s)
               | Node _ _ => ret (VNum 4)
               end in
  out_callback run (Node EndRule [] :: map Leaf ["x"; "y"]) (mkState [] [("y", VNum 0)])
  = Ok (VNum 4) (mkState [] [("y", VNum 4); ("x", VNum 4)]).
Proof.
  intro run.
  refine (@out_assigns_every_name run (Node EndRule []) ["x"; "y"] (VNum 4)
            (mkState [] [("y", VNum 0)]) (mkState [] [("y", VNum 0)]) eq_refl _ _).
  - intros x s _. reflexivity.
  - repeat constructor.
Defined.

(* ------------------------------------------------------------------ *)
(** ** The convert ladder: literals *)

Lemma emptyString_rule (s : string) :
  s <> "" -> isEmptyString (VStr s) false = false.
Proof. destruct s; [contradiction | reflexivity]. Qed.

(** X16.  The keywords are read whatever their case, before any command or
    variable is looked at: a token that is [null], [undefined], [true] or
    [false] up to the case of its letters converts to that constant, in
    both modes (to a deferred value of it in asynchronous mode), and
    leaves the state as it was. *)
Theorem convert_keywords (env : Env) (rec : Engine) (s : string) (exec async : bool)
    (st : State) (k : Value) :
  (toLowerCase s = "null" /\ k = VNull)
  \/ (toLowerCase s = "undefined" /\ k = VUndefined)
  \/ (toLowerCase s = "true" /\ k = VBool true)
  \/ (toLowerCase s = "false" /\ k = VBool false) ->
  convert env rec (VStr s) exec async st
  = Ok (if async then VPromise k [] else k) st.
Proof.
  intros H.
  assert (Hne : isEmptyString (VStr s) false = false).
  { apply emptyString_rule. intros ->.
    destruct H as [[H _] | [[H _] | [[H _] | [H _]]]]; discriminate. }
  unfold convert, convertAsync, convertSync, CONVERT.
  destruct async; [unfold bind at 1 |];
    destruct H as [[H ->] | [[H ->] | [[H ->] | [H ->]]]];
    repeat (rewrite ladder_skip
             by (cbn [convert_callback convert_callbackAsync isString negb on_string];
                 unfold bind, continue, throw; rewrite ?H, ?Hne; reflexivity));
    (erewrite ladder_take
      by (cbn [convert_callback convert_callbackAsync isString negb on_string];
          unfold bind; rewrite ?H, ?Hne; reflexivity));
    reflexivity.
Qed.

Lemma convert_keywords_witness :
  convert readme_env (engine readme_env 0) (VStr "NuLL") true false (mkState [] [])
  = Ok VNull (mkState [] [])
  /\ convert readme_env (engine readme_env 0) (VStr "TRUE") true true (mkState [] [])
     = Ok (VPromise (VBool true) []) (mkState [] []).
Proof.
  split.
  - refine (@convert_keywords readme_env (engine readme_env 0) "NuLL" true false
              (mkState [] []) VNull _).
    left. split; reflexivity.
  - refine (@convert_keywords readme_env (engine readme_env 0) "TRUE" true true
              (mkState [] []) (VBool true) _).
    right. right. left. split; reflexivity.
Defined.

Lemma digit_or_minus_not_keyword (c : ascii) :
  is_digit c = true \/ c = "-"%char ->
  Ascii.eqb (lower_char c) "n" = false /\ Ascii.eqb (lower_char c) "u" = false
  /\ Ascii.eqb (lower_char c) "t" = false /\ Ascii.eqb (lower_char c) "f" = false.
Proof.
  intros [H | ->]; [| repeat split; reflexivity].
  revert H. destruct c as [[] [] [] [] [] [] [] []]; vm_compute; intros H;
    try discriminate H; repeat split; reflexivity.
Qed.

Lemma not_keyword_by_head (c : ascii) (s : string) :
  is_digit c = true \/ c = "-"%char ->
  String.eqb (toLowerCase (String c s)) "null" = false
  /\ String.eqb (toLowerCase (String c s)) "undefined" = false
  /\ String.eqb (toLowerCase (String c s)) "true" = false
  /\ String.eqb (toLowerCase (String c s)) "false" = false.
Proof.
  intros H. destruct (digit_or_minus_not_keyword H) as (Hn & Hu & Ht & Hf).
  unfold toLowerCase. cbn [map_string String.eqb].
  rewrite Hn, Hu, Ht, Hf. repeat split; reflexivity.
Qed.

Lemma number_literal_head (s : string) :
  is_number_literal s = true ->
  exists c s', s = String c s' /\ (is_digit c = true \/ c = "-"%char).
Proof.
  unfold is_number_literal, strip_minus, all_digits.
  destruct s as [| c s']; [discriminate |].
  intros H. exists c, s'. split; [reflexivity |].
  destruct (Ascii.eqb c "-") eqn:E.
  - right. now apply Ascii.eqb_eq.
  - left. cbn [forall_string] in H. now apply andb_true_iff in H.
Qed.

(** X17.  A token of the form of an integer numeral (digits, with or
    without a minus sign) converts to the number [parseInt] reads, whatever
    commands are registered and whether or not execution is asked for; the
    state is left as it was. *)
Theorem convert_integer_literal (env : Env) (rec : Engine) (s : string) (exec : bool)
    (st : State) :
  is_number_literal s = true ->
  convert env rec (VStr s) exec false st = Ok (VNum (parseInt s)) st.
Proof.
  intros Hnum.
  destruct (number_literal_head s Hnum) as (c & s' & -> & Hc).
  destruct (not_keyword_by_head s' Hc) as (Hn & Hu & Ht & Hf).
  unfold convert, convertSync, CONVERT.
  repeat (rewrite ladder_skip
           by (cbn [convert_callback isString negb on_string isEmptyString andb];
               unfold continue; rewrite ?Hn, ?Hu, ?Ht, ?Hf; reflexivity)).
  erewrite ladder_take
    by (cbn [convert_callback on_string]; rewrite Hnum; reflexivity).
  reflexivity.
Qed.

Lemma convert_integer_literal_witness :
  convert readme_env (engine readme_env 0) (VStr "-42") true false (mkState [] [])
  = Ok (VNum (-42)) (mkState [] []).
Proof.
  refine (eq_trans (@convert_integer_literal readme_env (engine readme_env 0) "-42" true
                      (mkState [] []) eq_refl) _).
  vm_compute. reflexivity.
Defined.

(** X18.  A token that starts with a minus sign and is no numeral stays
    the string it is: options reach [execFn] as they were written. *)
Theorem convert_option_token (env : Env) (rec : Engine) (s : string) (exec : bool)
    (st : State) :
  startsWith s "-" = true ->
  is_number_literal s = false ->
  is_float_literal s = false ->
  convert env rec (VStr s) exec false st = Ok (VStr s) st.
Proof.
  intros Hdash Hnum Hfl.
  assert (Hhead : exists s', s = String "-" s').
  { unfold startsWith in Hdash. destruct s as [| c s']; [discriminate |].
    cbn [drop_prefix] in Hdash. destruct (Ascii.eqb "-" c) eqn:E; [| discriminate].
    apply Ascii.eqb_eq in E. subst c. now exists s'. }
  destruct Hhead as [s' ->].
  destruct (@not_keyword_by_head "-" s' (or_intror eq_refl)) as (Hn & Hu & Ht & Hf).
  unfold convert, convertSync, CONVERT.
  repeat (rewrite ladder_skip
           by (cbn [convert_callback isString negb on_string isEmptyString andb];
               unfold continue; rewrite ?Hn, ?Hu, ?Ht, ?Hf, ?Hnum, ?Hfl; reflexivity)).
  erewrite ladder_take
    by (cbn [convert_callback on_string]; rewrite Hdash; reflexivity).
  reflexivity.
Qed.

Lemma convert_option_token_witness :
  convert readme_env (engine readme_env 0) (VStr "--as-array") true false (mkState [] [])
  = Ok (VStr "--as-array") (mkState [] []).
Proof.
  exact (@convert_option_token readme_env (engine readme_env 0) "--as-array" true
           (mkState [] []) eq_refl eq_refl eq_refl).
Defined.

(* ------------------------------------------------------------------ *)
(** ** The math rules: operand types and results *)



(** Whatever a math rule returns is defined, and PropertyTypeMismatch is
    the only failure it raises. *)
Lemma math_callback_outcomes (op : MathOp) (a b : Value) (st : State) :
  match math_callback op a b st with
  | Ok v _ => v <> VUndefined
  | Throw e _ => e = Failure PropertyTypeMismatch
  | Halt _ => True
  end.
Proof.
  destruct op; cbn [math_callback];
    unfold numeric_rule, number_operand, add_operand, bind, ret, error, modelled, halt,
      throw, js_add, option_map;
    destruct a; destruct b; cbn -[string_to_number number_to_string];
    try first [exact I | reflexivity | discriminate];
    repeat match goal with
           | |- context [string_to_number ?s] =>
               destruct (string_to_number s); cbn -[string_to_number number_to_string]
           | |- context [number_to_string ?x] =>
               destruct (number_to_string x); cbn -[string_to_number number_to_string]
           end;
    first [exact I | reflexivity | discriminate].
Qed.

Lemma math_fold_outcomes (op : MathOp) (xs : list Value) :
  forall (acc : Value) (st : State),
    acc <> VUndefined ->
    match foldM (math_step (math_callback op)) xs acc st with
    | Ok v _ => v <> VUndefined
    | Throw e _ => e = Failure PropertyTypeMismatch
    | Halt _ => True
    end.
Proof.
  induction xs as [| x xs IH]; intros acc st Hacc; cbn [foldM].
  - exact Hacc.
  - unfold bind. rewrite math_step_callback.
    pose proof (math_callback_outcomes op acc x st) as H.
    destruct (math_callback op acc x st) as [acc' st1 | e st1 | w]; [| exact H | exact I].
    now apply IH.
Qed.

(** X20.  The check of the math result never fires on two operands or
    more: whatever the rule and the operands, [checkValue] does not fail
    with MathResultInvalid, since no rule returns undefined. *)
Theorem math_result_always_valid (op : MathOp) (x0 x1 : Value) (xs : list Value)
    (st st' : State) :
  math_checkValue op (x0 :: x1 :: xs) st <> Throw (Failure MathResultInvalid) st'.
Proof.
  unfold math_checkValue, parseMath. cbn [foldM]. unfold bind at 1. unfold bind at 1.
  rewrite math_step_callback.
  pose proof (math_callback_outcomes op x0 x1 st) as H.
  destruct (math_callback op x0 x1 st) as [acc st1 | e st1 | w];
    [| subst e; discriminate | discriminate].
  pose proof (@math_fold_outcomes op xs acc st1 H) as F.
  destruct (foldM (math_step (math_callback op)) xs acc st1) as [v st2 | e st2 | w];
    [| subst e; discriminate | discriminate].
  destruct v; try discriminate. contradiction.
Qed.

(* ------------------------------------------------------------------ *)
(** ** rules.ts: the order of the registry *)

Lemma getRulesByCategory_set_same (c : string) (l : list RuleEntry) (reg : Registry) :
  getRulesByCategory c (set_category c l reg) = l.
Proof.
  induction reg as [| [c' l'] reg IH]; cbn [set_category getRulesByCategory].
  - now rewrite String.eqb_refl.
  - destruct (String.eqb c c') eqn:E; cbn [getRulesByCategory]; now rewrite E.
Qed.

Lemma getRulesByCategory_set_other (c c' : string) (l : list RuleEntry) (reg : Registry) :
  String.eqb c' c = false ->
  getRulesByCategory c' (set_category c l reg) = getRulesByCategory c' reg.
Proof.
  intros Hne. induction reg as [| [c2 l2] reg IH]; cbn [set_category getRulesByCategory].
  - now rewrite Hne.
  - destruct (String.eqb c c2) eqn:E; cbn [getRulesByCategory].
    + apply String.eqb_eq in E. subst c2. now rewrite Hne.
    + now rewrite IH.
Qed.

Lemma insert_rule_hd (x a : RuleEntry) (l : list RuleEntry) :
  by_order a x -> HdRel by_order a l -> HdRel by_order a (insert_rule x l).
Proof.
  intros Hax Hl. destruct l as [| y l]; cbn [insert_rule].
  - now constructor.
  - destruct (order_of x <=? order_of y)%Z; constructor; [exact Hax |].
    now inversion Hl.
Qed.

Lemma insert_rule_sorted (x : RuleEntry) (l : list RuleEntry) :
  Sorted by_order l -> Sorted by_order (insert_rule x l).
Proof.
  induction l as [| y l IH]; intros Hl; cbn [insert_rule].
  - repeat constructor.
  - inversion Hl as [| y' l' Hs Hhd]; subst.
    destruct (order_of x <=? order_of y)%Z eqn:E.
    + constructor; [exact Hl |]. constructor. unfold by_order. lia.
    + constructor; [now apply IH |].
      apply insert_rule_hd; [unfold by_order; lia | exact Hhd].
Qed.

Lemma sort_rules_sorted (l : list RuleEntry) : Sorted by_order (sort_rules l).
Proof.
  induction l as [| x l IH]; cbn [sort_rules]; [constructor |].
  now apply insert_rule_sorted.
Qed.

Lemma insert_rule_perm (x : RuleEntry) (l : list RuleEntry) :
  Permutation (x :: l) (insert_rule x l).
Proof.
  induction l as [| y l IH]; cbn [insert_rule]; [reflexivity |].
  destruct (order_of x <=? order_of y)%Z; [reflexivity |].
  rewrite perm_swap. now constructor.
Qed.

Lemma sort_rules_perm (l : list RuleEntry) : Permutation l (sort_rules l).
Proof.
  induction l as [| x l IH]; cbn [sort_rules]; [constructor |].
  rewrite <- insert_rule_perm. now constructor.
Qed.

Lemma insert_rule_filter (k : Z) (x : RuleEntry) (l : list RuleEntry) :
  filter (fun r => (order_of r =? k)%Z) (insert_rule x l)
  = filter (fun r => (order_of r =? k)%Z) (x :: l).
Proof.
  induction l as [| y l IH]; cbn [insert_rule]; [reflexivity |].
  destruct (order_of x <=? order_of y)%Z eqn:E; [reflexivity |].
  cbn [filter] in *. rewrite IH.
  destruct (order_of x =? k)%Z eqn:Ex; [| reflexivity].
  destruct (order_of y =? k)%Z eqn:Ey; [lia | reflexivity].
Qed.

Lemma sort_rules_filter (k : Z) (l : list RuleEntry) :
  filter (fun r => (order_of r =? k)%Z) (sort_rules l)
  = filter (fun r => (order_of r =? k)%Z) l.
Proof.
  induction l as [| x l IH]; cbn [sort_rules]; [reflexivity |].
  rewrite insert_rule_filter. cbn [filter]. now rewrite IH.
Qed.

(** X21.  After [registerRules], whatever the category held before, its
    list is in ascending order of [order] (a missing order counting as 0),
    it holds exactly the rules it held and the rules just given, and the
    lists of the other categories are as before. *)
Theorem registerRules_sorted (c : string) (rules : list RuleEntry) (reg : Registry) :
  Sorted (fun a b => (order_of a <= order_of b)%Z)
    (getRulesByCategory c (registerRules c rules reg))
  /\ Permutation (getRulesByCategory c reg ++ rules)
       (getRulesByCategory c (registerRules c rules reg))
  /\ (forall c', String.eqb c' c = false ->
        getRulesByCategory c' (registerRules c rules reg) = getRulesByCategory c' reg).
Proof.
  unfold registerRules. rewrite getRulesByCategory_set_same.
  split; [apply sort_rules_sorted |].
  split; [apply sort_rules_perm |].
  intros c' Hne. now apply getRulesByCategory_set_other.
Qed.

(** X22.  The sort of the registry is stable: among the rules of one
    order, those a category held come first, in the order they had, then
    the rules just given, in the order of the configuration. *)
Theorem registerRules_stable (c : string) (rules : list RuleEntry) (reg : Registry) (k : Z) :
  filter (fun r => (order_of r =? k)%Z) (getRulesByCategory c (registerRules c rules reg))
  = filter (fun r => (order_of r =? k)%Z) (getRulesByCategory c reg)
    ++ filter (fun r => (order_of r =? k)%Z) rules.
Proof.
  unfold registerRules. rewrite getRulesByCategory_set_same, sort_rules_filter.
  apply filter_app.
Qed.

Lemma filter_sorted (p : RuleEntry -> bool) (l : list RuleEntry) :
  StronglySorted by_order l -> StronglySorted by_order (filter p l).
Proof.
  induction 1 as [| x l Hl IH Hx]; cbn [filter]; [constructor |].
  destruct (p x); [| exact IH].
  constructor; [exact IH |].
  rewrite Forall_forall in *. intros y Hy. apply filter_In in Hy. now apply Hx.
Qed.

(** X23.  [getRulesByType] yields, in the order of the registry, the rules
    of the category that declare no types or declare the type asked for:
    after a registration the rules it yields are those registered that
    apply to the type, in ascending order of [order]. *)
Theorem getRulesByType_sorted (c type : string) (rules : list RuleEntry) (reg : Registry) :
  Sorted (fun a b => (order_of a <= order_of b)%Z)
    (getRulesByType c type (registerRules c rules reg))
  /\ forall r,
       In r (getRulesByType c type (registerRules c rules reg))
       <-> In r (getRulesByCategory c reg ++ rules) /\ rule_applies type r = true.
Proof.
  unfold getRulesByType, registerRules. rewrite getRulesByCategory_set_same. split.
  - apply StronglySorted_Sorted. apply filter_sorted.
    apply Sorted_StronglySorted; [| apply sort_rules_sorted].
    intros x y z. unfold by_order. lia.
  - intros r. rewrite filter_In.
    split; intros [Hin Happ]; (split; [| exact Happ]).
    + now apply (Permutation_in r (Permutation_sym (sort_rules_perm _))).
    + now apply (Permutation_in r (sort_rules_perm _)).
Qed.

Lemma registerRules_keeps_sorted (c : string) (rules : list RuleEntry) (reg : Registry) :
  registry_sorted reg -> registry_sorted (registerRules c rules reg).
Proof.
  intros H c'. unfold registerRules.
  destruct (String.eqb c' c) eqn:E.
  - apply String.eqb_eq in E. subst c'. rewrite getRulesByCategory_set_same.
    apply sort_rules_sorted.
  - rewrite getRulesByCategory_set_other by exact E. apply H.
Qed.

Lemma register_all_keeps_sorted (cfg_rules : list (string * list RuleEntry)) :
  forall reg,
    registry_sorted reg ->
    registry_sorted (fold_left (fun r cr => registerRules (fst cr) (snd cr) r) cfg_rules reg).
Proof.
  induction cfg_rules as [| cr cfg_rules IH]; intros reg H; cbn [fold_left]; [exact H |].
  apply IH. now apply registerRules_keeps_sorted.
Qed.

(** X24.  [setConfig] keeps the registry sorted: when every category is in
    ascending order of [order] before, every category is after, whatever
    the configuration, its plugins and the plugins of its plugins
    register. *)
Theorem setConfig_keeps_sorted :
  forall (config : Config) (st : list (string * Command) * Registry),
    registry_sorted (snd st) -> registry_sorted (snd (setConfig config st)).
Proof.
  fix IH 1. intros [plugins cfg_commands cfg_rules] st H. cbn [setConfig snd].
  apply register_all_keeps_sorted.
  revert st H. induction plugins as [| plugin plugins IHp]; intros st H; cbn [fold_left].
  - exact H.
  - apply IHp. apply IH. exact H.
Qed.

Lemma setConfig_keeps_sorted_witness :
  let st := setConfig readme_config ([], []) in
  Sorted by_order (getRulesByType "template" "js" (snd st))
  /\ map rule_name (getRulesByCategory "command" (snd st)) = map command_name COMMANDS
  /\ map rule_name (getRulesByCategory "math" (snd st)) = map math_name MATH
  /\ map rule_name (getRulesByCategory "convert" (snd st)) = map convert_name CONVERT
  /\ map rule_name (getRulesByCategory "parse" (snd st))
     = ["brackets"; "trimBorders"; "trimSpaces"; "trimMath"; "trimBraces"; "minus"; "braces"]
  /\ map rule_name (getRulesByType "template" "js" (snd st))
     = ["template"; "inlineCommand"; "varConst"; "runConst"; "command"; "systemConst"]
  /\ fst st = commands readme_env.
Proof.
  intro st. split; [| repeat split; vm_compute; reflexivity].
  assert (H0 : registry_sorted (snd (([], []) : list (string * Command) * Registry))).
  { intros c. constructor. }
  pose proof (@setConfig_keeps_sorted readme_config ([], []) H0 "template") as H.
  unfold getRulesByType. apply StronglySorted_Sorted. apply filter_sorted.
  apply Sorted_StronglySorted; [| exact H].
  intros x y z. unfold by_order. lia.
Defined.

(* ------------------------------------------------------------------ *)
(** ** utilities.ts: the checks of types *)

Lemma checkType_loop_decides (value : Value) (types : list TypeSpec) (st : State) :
  forallb well_formed_type types = true ->
  checkType_loop value types st
  = if existsb (type_matches value) types then Ok tt st
    else Throw (Failure AssertFailed) st.
Proof.
  induction types as [| t types IH]; intros Hwf; cbn [checkType_loop existsb]; [reflexivity |].
  cbn [forallb] in Hwf. apply andb_true_iff in Hwf. destruct Hwf as [Ht Hwf].
  destruct t as [name | c |]; [| | discriminate]; cbn [type_matches].
  - destruct (String.eqb name "null").
    + destruct (isNullish value); [reflexivity | now apply IH].
    + destruct (String.eqb name "array").
      * destruct (isArray value); [reflexivity | now apply IH].
      * destruct (String.eqb (typeof value) name); [reflexivity | now apply IH].
  - destruct (instance_of value c); [reflexivity | now apply IH].
Qed.

(** X25.  [checkType] on a list of types that are all strings or
    constructors: an empty list fails with ArgumentsLengthInvalid; otherwise
    the value passes when it passes the test of one of the types ([null]
    for null and undefined, [array] for arrays, a [typeof] name, or
    [instanceof] a constructor) and fails with AssertFailed when it passes
    none; the state is left as it was. *)
Theorem checkType_decides (value : Value) (types : list TypeSpec) (st : State) :
  forallb well_formed_type types = true ->
  checkType value types st
  = match types with
    | [] => Throw (Failure ArgumentsLengthInvalid) st
    | _ => if existsb (type_matches value) types then Ok tt st
           else Throw (Failure AssertFailed) st
    end.
Proof.
  intros Hwf. unfold checkType. destruct types as [| t types]; [reflexivity |].
  cbn [List.length Nat.ltb Nat.leb]. now apply checkType_loop_decides.
Qed.

Lemma checkType_decides_witness :
  checkType VNull [TName "string"; TName "null"] (mkState [] []) = Ok tt (mkState [] [])
  /\ checkType (VArr []) [TName "string"; TCtor CRegExp] (mkState [] [])
     = Throw (Failure AssertFailed) (mkState [] []).
Proof.
  split.
  - exact (@checkType_decides VNull [TName "string"; TName "null"] (mkState [] []) eq_refl).
  - exact (@checkType_decides (VArr []) [TName "string"; TCtor CRegExp] (mkState [] [])
             eq_refl).
Defined.

(** [prepareParam] returns [args[ind] ?? defaultValue] when that value
    passes [checkType] and fails with ParameterTypeInvalid when it does
    not: an argument that is null or undefined is replaced by the default
    before the check, and an index beyond the arguments reads as
    undefined. *)
Lemma prepareParam_decides (args : list Value) (ind : nat) (types : list TypeSpec)
    (d : Value) (st : State) :
  forallb well_formed_type types = true ->
  types <> [] ->
  prepareParam args ind types d st
  = if existsb (type_matches (nullish_or (nth ind args VUndefined) d)) types
    then Ok (nullish_or (nth ind args VUndefined) d) st
    else Throw (Failure ParameterTypeInvalid) st.
Proof.
  intros Hwf Hne. unfold prepareParam, checkType.
  destruct types as [| t types]; [contradiction |].
  cbn [List.length Nat.ltb Nat.leb]. rewrite checkType_loop_decides by exact Hwf.
  now destruct (existsb _ (t :: types)).
Qed.

Lemma prepareParam_decides_witness :
  prepareParam [VNull] 0 ArgumentCheck.ARRAY (VArr []) (mkState [] [])
  = Ok (VArr []) (mkState [] [])
  /\ prepareParam [VNum 1] 3 ArgumentCheck.STRING VUndefined (mkState [] [])
     = Throw (Failure ParameterTypeInvalid) (mkState [] []).
Proof.
  split.
  - refine (@prepareParam_decides [VNull] 0 ArgumentCheck.ARRAY (VArr []) (mkState [] [])
              eq_refl _). discriminate.
  - refine (@prepareParam_decides [VNum 1] 3 ArgumentCheck.STRING VUndefined (mkState [] [])
              eq_refl _). discriminate.
Defined.

(** The names [getVar] and [setVar] accept are those their call of
    [prepareParam] accepts: a name that is neither a string nor an array
    (for [setVar]: nor a number) fails both the check and the function with
    ParameterTypeInvalid, before the scope or the store is read. *)
Lemma variable_names_checked (name d value : Value) (st : State) :
  (isString name || isArray name = false ->
   prepareParam [name; VObj (scope st); d] 0
     (ArgumentCheck.STRING ++ ArgumentCheck.ARRAY) VUndefined st
   = Throw (Failure ParameterTypeInvalid) st
   /\ getVar name d st = Throw (Failure ParameterTypeInvalid) st)
  /\ (isString name || String.eqb (typeof name) "number" || isArray name = false ->
      prepareParam [name; value] 0
        (ArgumentCheck.STRING ++ ArgumentCheck.NUMBER ++ ArgumentCheck.ARRAY) VUndefined st
      = Throw (Failure ParameterTypeInvalid) st
      /\ setVar name value st = Throw (Failure ParameterTypeInvalid) st).
Proof.
  split; intros H; destruct name; try discriminate H; split; reflexivity.
Qed.

Lemma variable_names_checked_witness :
  getVar (VBool true) VUndefined (mkState [] [])
  = Throw (Failure ParameterTypeInvalid) (mkState [] [])
  /\ setVar VNull (VNum 1) (mkState [] [])
     = Throw (Failure ParameterTypeInvalid) (mkState [] []).
Proof.
  split.
  - exact (proj2 (proj1 (@variable_names_checked (VBool true) VUndefined VUndefined
                           (mkState [] [])) eq_refl)).
  - exact (proj2 (proj2 (@variable_names_checked VNull VUndefined (VNum 1)
                           (mkState [] [])) eq_refl)).
Defined.

(* ------------------------------------------------------------------ *)
(** ** commands.ts: the command store *)

Lemma lookup_command_app (name : string) (l1 l2 : list (string * Command)) :
  lookup_command name (l1 ++ l2)
  = match lookup_command name l2 with
    | Some c => Some c
    | None => lookup_command name l1
    end.
Proof.
  induction l1 as [| [n c] l1 IH]; cbn [app lookup_command].
  - now destruct (lookup_command name l2).
  - rewrite IH. destruct (lookup_command name l2); [reflexivity |].
    reflexivity.
Qed.

Lemma named_arg_from_spec (key : string) (ds : list CommandArg) :
  forall (i0 i : nat) (d : CommandArg),
    named_arg_from i0 ds key = Some (i, d) ->
    i0 <= i
    /\ nth_error ds (i - i0) = Some d
    /\ arg_name d = key
    /\ forall j d', i - i0 < j -> nth_error ds j = Some d' -> arg_name d' <> key.
Proof.
  induction ds as [| d0 ds IH]; intros i0 i d H; cbn [named_arg_from] in H; [discriminate |].
  destruct (named_arg_from (S i0) ds key) as [[i' d'] |] eqn:E.
  - injection H as -> ->. destruct (IH (S i0) i d E) as (Hle & Hnth & Hname & Hlast).
    split; [lia |]. replace (i - i0) with (S (i - S i0)) by lia.
    split; [exact Hnth |]. split; [exact Hname |].
    intros j d2 Hj Hd2. destruct j as [| j]; [lia |].
    apply (Hlast j d2); [lia | exact Hd2].
  - destruct (String.eqb (arg_name d0) key) eqn:En; [| discriminate].
    injection H as <- <-. rewrite Nat.sub_diag.
    split; [lia |]. split; [reflexivity |].
    split; [now apply String.eqb_eq |].
    intros j d2 Hj Hd2. destruct j as [| j]; [lia |]. cbn [nth_error] in Hd2.
    intros Hk.
    assert (Hnone : forall ds' i1, named_arg_from i1 ds' key = None ->
                      forall j' d3, nth_error ds' j' = Some d3 -> arg_name d3 <> key).
    { clear. induction ds' as [| d1 ds' IH']; intros i1 Hn j' d3 Hd3.
      - destruct j'; discriminate.
      - cbn [named_arg_from] in Hn.
        destruct (named_arg_from (S i1) ds' key) eqn:E1; [discriminate |].
        destruct (String.eqb (arg_name d1) key) eqn:E2; [discriminate |].
        destruct j' as [| j']; cbn [nth_error] in Hd3.
        + injection Hd3 as <-. now apply String.eqb_neq.
        + now apply (IH' (S i1) E1 j' d3). }
    exact (Hnone ds (S i0) E j d2 Hd2 Hk).
Qed.

(** X28.  The command store: a command added under a name is the one found
    under that name afterwards, whatever was there, and the other names are
    found as before; and the named descriptors [addCommand] compiles give,
    for a name, the last descriptor of that name with its index. *)
Theorem addCommand_lookup (name : string) (command : Command)
    (store : list (string * Command)) :
  lookup_command name (addCommand name command store) = Some command
  /\ (forall other, String.eqb other name = false ->
        lookup_command other (addCommand name command store) = lookup_command other store)
  /\ (forall key i d,
        named_arg command key = Some (i, d) ->
        nth_error (cmd_args command) i = Some d
        /\ arg_name d = key
        /\ forall j d', i < j -> nth_error (cmd_args command) j = Some d' ->
                        arg_name d' <> key).
Proof.
  unfold addCommand. split; [| split].
  - rewrite lookup_command_app. cbn [lookup_command]. now rewrite String.eqb_refl.
  - intros other Hne. rewrite lookup_command_app. cbn [lookup_command]. now rewrite Hne.
  - intros key i d H. unfold named_arg in H.
    destruct (named_arg_from_spec key (cmd_args command) 0 H) as (_ & Hnth & Hname & Hlast).
    rewrite Nat.sub_0_r in Hnth, Hlast. auto.
Qed.

Lemma addCommand_lookup_witness :
  let c := mkCommand (VNative "f" VUndefined) []
             [mkArg "x" false false (VNum 1); mkArg "y" false false VUndefined;
              mkArg "x" false false (VNum 2)] in
  named_arg c "x" = Some (2, mkArg "x" false false (VNum 2))
  /\ nth_error (cmd_args c) 2 = Some (mkArg "x" false false (VNum 2)).
Proof.
  intro c. split; [reflexivity |].
  exact (proj1 (proj2 (proj2 (@addCommand_lookup "f" c [])) "x" 2
                  (mkArg "x" false false (VNum 2)) eq_refl)).
Defined.

(* ------------------------------------------------------------------ *)
(** ** The block directive of the templates *)

(** X29.  The closure of a block directive, in synchronous mode, runs its
    command with [scope.offset] set to the offset of the match and
    [scope.template] set to the block, puts back what [scope.offset] and
    [scope.template] were, and formats the result as the line directive
    does. *)
Theorem block_directive_restores (env : Env) (rec : Engine)
    (command block terminator : string) (offset : nat) (a : option bool)
    (po pt r : Value) (st st1 : State) :
  async_truthy a = false ->
  obj_get (scope st) "offset" = Some po ->
  obj_get (scope st) "template" = Some pt ->
  parse rec command (async_context a) false
    (mkState (update "template" (VStr block)
                (update "offset" (VNum (float_of_Z (Z.of_nat offset))) (scope st)))
             (vars st))
  = Ok r st1 ->
  let st' := mkState (update "template" pt (update "offset" po (scope st1))) (vars st1) in
  run_closure env rec (TplBlock command block terminator offset a) st
  = match template_checkValue r terminator with
    | Some v => Ok v st'
    | None => Halt Unmodelled
    end
  /\ obj_get (scope st') "offset" = Some po
  /\ obj_get (scope st') "template" = Some pt.
Proof.
  intros Hsync Ho Ht Hparse st'. split; [| split].
  - cbn [run_closure]. unfold get_scope.
    unfold bind at 1. unfold bind at 1. unfold get_state at 1. unfold modelled at 1.
    rewrite Ho. unfold ret at 1.
    unfold bind at 1. unfold bind at 1. unfold get_state at 1. unfold modelled at 1.
    rewrite Ht. unfold ret at 1.
    erewrite bind_ok by (apply set_scope_ok; reflexivity).
    erewrite bind_ok by (apply set_scope_ok; reflexivity).
    cbn [scope vars]. erewrite bind_ok by exact Hparse.
    rewrite Hsync. unfold bind at 1. unfold ret at 1.
    erewrite bind_ok by (apply set_scope_ok; reflexivity).
    erewrite bind_ok by (apply set_scope_ok; reflexivity).
    cbn [scope vars]. unfold bind, modelled.
    destruct (template_checkValue r terminator); reflexivity.
  - unfold st'. cbn [scope].
    rewrite obj_get_update_other by reflexivity. apply obj_get_update_same.
  - unfold st'. cbn [scope]. apply obj_get_update_same.
Qed.

Lemma block_directive_restores_witness :
  run_closure readme_env (engine readme_env 20) (TplBlock "$template" "abc" newline 7 None)
    (mkState [("offset", VNum 1); ("template", VStr "t")] [])
  = Ok (VStr ("abc" ++ newline))
      (mkState [("offset", VNum 1); ("template", VStr "t"); ("context", VNull)] []).
Proof.
  refine (eq_trans
            (proj1 (@block_directive_restores readme_env (engine readme_env 20)
                      "$template" "abc" newline 7 None (VNum 1) (VStr "t") (VStr "abc")
                      (mkState [("offset", VNum 1); ("template", VStr "t")] [])
                      (mkState [("offset", VNum 7); ("template", VStr "abc");
                                ("context", VNull)] [])
                      eq_refl eq_refl eq_refl _)) _);
    vm_compute; reflexivity.
Defined.

(* ------------------------------------------------------------------ *)
(** ** Synchronous and asynchronous evaluation of operator trees *)

Lemma await_agreeing {B : Type} (ms ma : M Value) (kA kS : Value -> M B) (st : State) :
  deferred_of ms ma ->
  settled_result ms ->
  (forall v st', (forall t, await v t = Ok v t) -> kA v st' = kS v st') ->
  (p <- ma ;; res <- await p ;; kA res) st = (res <- ms ;; kS res) st.
Proof.
  intros Hd Hs H. unfold bind at 1. rewrite Hd.
  pose proof (Hs st) as Hst. unfold bind in Hst |- *.
  destruct (ms st) as [v st' | e st' | w]; try reflexivity.
  pose proof (@await_settled v st' Hst) as Hv.
  rewrite (@async_return_settled v st' Hv). cbn [await]. unfold ret at 1.
  apply H. exact Hv.
Qed.

Lemma settled_bind (ms : M Value) (k : Value -> M Value) (st : State) :
  settled_result ms ->
  (forall v st', (forall t, await v t = Ok v t) -> (x <- k v ;; await x) st' = k v st') ->
  (x <- (v <- ms ;; k v) ;; await x) st = (v <- ms ;; k v) st.
Proof.
  intros Hs H. rewrite bind_assoc.
  pose proof (Hs st) as Hst. unfold bind at 1 3. unfold bind in Hst.
  destruct (ms st) as [v st' | e st' | w]; try reflexivity.
  apply H. exact (@await_settled v st' Hst).
Qed.

Lemma settled_ret (v : Value) (st : State) :
  (forall t, await v t = Ok v t) -> (x <- ret v ;; await x) st = ret v st.
Proof. intros H. unfold bind, ret. apply H. Qed.

Section Trees.

Variable rs ra : SubCommand -> M Value.

Lemma agree_on_cons (part : SubCommand) (parts : list SubCommand) :
  agree_on rs ra (part :: parts) ->
  deferred_of (rs part) (ra part) /\ settled_result (rs part) /\ agree_on rs ra parts.
Proof.
  intros H. destruct (H part (or_introl eq_refl)) as [Hd Hs].
  split; [exact Hd |]. split; [exact Hs |].
  intros p Hp. apply H. now right.
Qed.

Lemma end_loop_tree (parts : list SubCommand) :
  agree_on rs ra parts ->
  forall res st,
    (forall t, await res t = Ok res t) ->
    end_loopAsync ra parts res st = (v <- end_loop rs parts res ;; async_return v) st
    /\ (v <- end_loop rs parts res ;; await v) st = end_loop rs parts res st.
Proof.
  induction parts as [| part rest IH]; intros Hag res st Hres;
    cbn [end_loopAsync end_loop].
  - split; [reflexivity | now apply settled_ret].
  - destruct (agree_on_cons Hag) as (Hd & Hs & Hrest).
    destruct (part_is_empty part).
    + apply IH; [exact Hrest | apply undefined_settled].
    + split.
      * rewrite bind_assoc. apply await_agreeing; try assumption.
        intros v st' Hv. now apply IH.
      * apply settled_bind; [exact Hs |]. intros v st' Hv. now apply IH.
Qed.

Lemma fail_loop_tree (parts : list SubCommand) :
  agree_on rs ra parts ->
  forall res st,
    (forall t, await res t = Ok res t) ->
    fail_loopAsync ra parts res st = (v <- fail_loop rs parts res ;; async_return v) st
    /\ (v <- fail_loop rs parts res ;; await v) st = fail_loop rs parts res st.
Proof.
  induction parts as [| part rest IH]; intros Hag res st Hres;
    cbn [fail_loopAsync fail_loop].
  - split; [reflexivity | now apply settled_ret].
  - destruct (agree_on_cons Hag) as (Hd & Hs & Hrest). split.
    + rewrite bind_assoc. apply await_agreeing; try assumption.
      intros v st' Hv. destruct (truthy v); [reflexivity | now apply IH].
    + apply settled_bind; [exact Hs |]. intros v st' Hv.
      destruct (truthy v); [now apply settled_ret | now apply IH].
Qed.

Lemma success_loop_tree (parts : list SubCommand) :
  agree_on rs ra parts ->
  forall res st,
    (forall t, await res t = Ok res t) ->
    success_loopAsync ra parts res st = (v <- success_loop rs parts res ;; async_return v) st
    /\ (v <- success_loop rs parts res ;; await v) st = success_loop rs parts res st.
Proof.
  induction parts as [| part rest IH]; intros Hag res st Hres;
    cbn [success_loopAsync success_loop].
  - split; [reflexivity | now apply settled_ret].
  - destruct (agree_on_cons Hag) as (Hd & Hs & Hrest). split.
    + rewrite bind_assoc. apply await_agreeing; try assumption.
      intros v st' Hv. destruct (negb (truthy v)); [reflexivity | now apply IH].
    + apply settled_bind; [exact Hs |]. intros v st' Hv.
      destruct (negb (truthy v)); [now apply settled_ret | now apply IH].
Qed.

Lemma nullish_loop_tree (parts : list SubCommand) :
  agree_on rs ra parts ->
  forall res st,
    (forall t, await res t = Ok res t) ->
    nullish_loopAsync ra parts res st = (v <- nullish_loop rs parts res ;; async_return v) st
    /\ (v <- nullish_loop rs parts res ;; await v) st = nullish_loop rs parts res st.
Proof.
  induction parts as [| part rest IH]; intros Hag res st Hres;
    cbn [nullish_loopAsync nullish_loop].
  - split; [reflexivity | now apply settled_ret].
  - destruct (agree_on_cons Hag) as (Hd & Hs & Hrest). split.
    + rewrite bind_assoc. apply await_agreeing; try assumption.
      intros v st' Hv. destruct (negb (isNullish v)); [reflexivity | now apply IH].
    + apply settled_bind; [exact Hs |]. intros v st' Hv.
      destruct (negb (isNullish v)); [now apply settled_ret | now apply IH].
Qed.

Lemma context_loop_tree (parts : list SubCommand) :
  agree_on rs ra parts ->
  forall res st,
    (forall t, await res t = Ok res t) ->
    context_loopAsync ra parts res st = (v <- context_loop rs parts res ;; async_return v) st
    /\ (v <- context_loop rs parts res ;; await v) st = context_loop rs parts res st.
Proof.
  induction parts as [| part rest IH]; intros Hag res st Hres;
    cbn [context_loopAsync context_loop].
  - split; [reflexivity | now apply settled_ret].
  - destruct (agree_on_cons Hag) as (Hd & Hs & Hrest). split.
    + rewrite bind_assoc. apply bind_ext. intros prevContext st1 _.
      rewrite bind_assoc. apply bind_ext. intros [] st2 _.
      rewrite bind_assoc. apply await_agreeing; try assumption. intros v st' Hv.
      rewrite bind_assoc. apply bind_ext. intros [] st3 _.
      now apply IH.
    + rewrite bind_assoc. apply bind_ext. intros prevContext st1 _.
      rewrite bind_assoc. apply bind_ext. intros [] st2 _.
      apply settled_bind; [exact Hs |]. intros v st' Hv.
      rewrite bind_assoc. apply bind_ext. intros [] st3 _.
      now apply IH.
Qed.

Lemma out_loop_tree (names : list SubCommand) (res : Value) :
  agree_on rs ra names ->
  forall st, out_loopAsync ra names res st = out_loop rs names res st.
Proof.
  induction names as [| part rest IH]; intros Hag st; cbn [out_loopAsync out_loop].
  - reflexivity.
  - destruct (agree_on_cons Hag) as (Hd & Hs & Hrest).
    apply await_agreeing; try assumption. intros v st' Hv.
    apply bind_ext. intros [] st2 _. now apply IH.
Qed.

Lemma out_callback_tree (parts : list SubCommand) (st : State) :
  agree_on rs ra parts ->
  out_callbackAsync ra parts st = (v <- out_callback rs parts ;; async_return v) st
  /\ (v <- out_callback rs parts ;; await v) st = out_callback rs parts st.
Proof.
  intros Hag. destruct parts as [| first names]; cbn [out_callbackAsync out_callback].
  - split; reflexivity.
  - destruct (agree_on_cons Hag) as (Hd & Hs & Hrest). split.
    + rewrite bind_assoc. apply await_agreeing; try assumption. intros v st' Hv.
      rewrite bind_assoc. unfold bind. rewrite out_loop_tree by exact Hrest.
      destruct (out_loop rs names v st'); reflexivity.
    + apply settled_bind; [exact Hs |]. intros v st' Hv.
      rewrite bind_assoc. apply bind_ext. intros [] st2 _. now apply settled_ret.
Qed.

End Trees.

Lemma leaves_of_part (rule : CommandRule) (parts : list SubCommand) (part : SubCommand)
    (s : string) :
  In part parts -> In s (leaves part) -> In s (leaves (Node rule parts)).
Proof.
  intros Hp Hs. cbn [leaves]. apply in_flat_map. now exists part.
Qed.

Lemma sequencing_parts (rule : CommandRule) (parts : list SubCommand) (part : SubCommand) :
  sequencing (Node rule parts) = true -> In part parts -> sequencing part = true.
Proof.
  cbn [sequencing]. intros H Hp.
  assert (Hall : forallb sequencing parts = true) by (destruct rule; try exact H; discriminate).
  rewrite forallb_forall in Hall. now apply Hall.
Qed.

(** X30.  For every sub-command built with the operators [;], [||], [&&],
    [??], [|] and [>>], at every depth of the evaluator: when the
    conversion of each of its leaves returns, in asynchronous mode, a
    deferred value of what it returns in synchronous mode, and returns no
    deferred value in synchronous mode, so does the execution of the
    sub-command, with the same effect on the scope and the store. *)
Theorem operator_trees_agree (env : Env) (n : nat) (t : SubCommand) :
  sequencing t = true ->
  (forall m s, In s (leaves t) ->
     deferred_of (convert env (engine env m) (VStr s) true false)
                 (convert env (engine env m) (VStr s) true true)
     /\ settled_result (convert env (engine env m) (VStr s) true false)) ->
  deferred_of (execCommand env (engine env n) t true false)
              (execCommand env (engine env n) t true true)
  /\ settled_result (execCommand env (engine env n) t true false).
Proof.
  revert t. induction n as [| n IH]; intros t Hseq Hleaves.
  - destruct t as [s | rule parts].
    + cbn [execCommand]. apply Hleaves. cbn [leaves]. now left.
    + assert (Hag : agree_on (fun part => r_execCommand (engine env 0) part true false)
                      (fun part => r_execCommand (engine env 0) part true true) parts).
      { intros part _. split; intros st; reflexivity. }
      cbn [execCommand].
      unfold end_callback, end_callbackAsync, fail_callback, fail_callbackAsync,
        success_callback, success_callbackAsync, nullish_callback, nullish_callbackAsync,
        context_callback, context_callbackAsync.
      destruct rule; try discriminate Hseq; split; intros st;
        first [ eapply end_loop_tree | eapply fail_loop_tree | eapply success_loop_tree
              | eapply nullish_loop_tree | eapply context_loop_tree
              | eapply out_callback_tree ];
        first [exact Hag | apply undefined_settled].
  - destruct t as [s | rule parts].
    + cbn [execCommand]. apply Hleaves. cbn [leaves]. now left.
    + assert (Hag : agree_on (fun part => r_execCommand (engine env (S n)) part true false)
                      (fun part => r_execCommand (engine env (S n)) part true true) parts).
      { intros part Hp.
        change (r_execCommand (engine env (S n))) with (execCommand env (engine env n)).
        apply IH; [exact (@sequencing_parts rule parts part Hseq Hp) |].
        intros m s Hs. apply Hleaves. exact (@leaves_of_part rule parts part s Hp Hs). }
      cbn [execCommand].
      unfold end_callback, end_callbackAsync, fail_callback, fail_callbackAsync,
        success_callback, success_callbackAsync, nullish_callback, nullish_callbackAsync,
        context_callback, context_callbackAsync.
      destruct rule; try discriminate Hseq; split; intros st;
        first [ eapply end_loop_tree | eapply fail_loop_tree | eapply success_loop_tree
              | eapply nullish_loop_tree | eapply context_loop_tree
              | eapply out_callback_tree ];
        first [exact Hag | apply undefined_settled].
Qed.

Lemma operator_trees_agree_witness :
  execCommand readme_env (engine readme_env 3)
    (Node NullishRule [Leaf "null"; Node FailRule [Leaf "0"; Leaf "5"]]) true true
    (mkState [] [])
  = Ok (VPromise (VNum 5) []) (mkState [] []).
Proof.
  refine (eq_trans
            (proj1 (@operator_trees_agree readme_env 3
                      (Node NullishRule [Leaf "null"; Node FailRule [Leaf "0"; Leaf "5"]])
                      eq_refl _) (mkState [] [])) _).
  - intros m s Hs. cbn [leaves flat_map app In] in Hs.
    destruct Hs as [<- | [<- | [<- | []]]]; split; intros st; reflexivity.
  - vm_compute. reflexivity.
Defined.

(* ------------------------------------------------------------------ *)
(** ** The normalizer: values moved to the scope *)

(** X26.  What the normalizer moves to the scope comes back unchanged: the
    token the rule [brackets] leaves for a quoted text converts to that
    text (without its backslashes), whatever operators it holds, and the
    token the rule [minus] leaves for a negative integer numeral converts
    to its number.  The hash name is a plain name (for [md5], a hexadecimal
    digest after the underscore). *)
Theorem normalizer_values_come_back (env : Env) (n : nat) (m : Match) (exec : bool)
    (st : State) :
  (let text := stripSlashes env (capture 2 (m_caps m)) in
   let x := getVariableHash env text true in
   plain_name x = true ->
   String.eqb x "__proto__" = false ->
   (token <- brackets_callback env m ;; convert env (engine env (S n)) token exec false) st
   = Ok (VStr text) (mkState (update x (VStr text) (scope st)) (vars st)))
  /\ (let value := capture 1 (m_caps m) in
      let x := getVariableHash env value true in
      plain_name x = true ->
      String.eqb x "__proto__" = false ->
      is_number_literal value = true ->
      (token <- minus_callback env m ;; convert env (engine env (S n)) token exec false) st
      = Ok (VNum (parseInt value))
          (mkState (update x (VNum (parseInt value)) (scope st)) (vars st))).
Proof.
  split.
  - intros text x Hx Hproto. unfold brackets_callback. fold text. fold x.
    rewrite bind_assoc. erewrite bind_ok by (apply set_scope_ok; exact Hproto).
    unfold bind at 1. unfold ret at 1.
    change (getVariableName x) with (String "$" x).
    apply convert_variable; try first [exact Hx | reflexivity].
    apply getVar_scope_value; [apply obj_get_update_same | reflexivity].
  - intros value x Hx Hproto Hnum. unfold minus_callback. fold value. fold x.
    rewrite Hnum.
    rewrite bind_assoc. erewrite bind_ok by (apply set_scope_ok; exact Hproto).
    unfold bind at 1. unfold ret at 1.
    change (getVariableName x) with (String "$" x).
    apply convert_variable; try first [exact Hx | reflexivity].
    apply getVar_scope_value; [apply obj_get_update_same | reflexivity].
Qed.

Lemma normalizer_values_come_back_witness :
  let st := mkState [("context", VNull)] [] in
  let quoted := mkMatch "'a; b'" [(1, "'"); (2, "a; b")] 0 in
  let minus := mkMatch "-5" [(1, "-5")] 0 in
  (token <- brackets_callback readme_env quoted ;;
   convert readme_env (engine readme_env 1) token true false) st
  = Ok (VStr "a; b")
      (mkState (update (getVariableHash readme_env "a; b" true) (VStr "a; b") (scope st))
         (vars st))
  /\ (token <- minus_callback readme_env minus ;;
      convert readme_env (engine readme_env 1) token true false) st
     = Ok (VNum (-5))
         (mkState (update (getVariableHash readme_env "-5" true) (VNum (-5)) (scope st))
            (vars st)).
Proof.
  split.
  - refine (eq_trans
      (proj1 (@normalizer_values_come_back readme_env 0
                (mkMatch "'a; b'" [(1, "'"); (2, "a; b")] 0) true
                (mkState [("context", VNull)] [])) _ _) _);
      vm_compute; reflexivity.
  - refine (eq_trans
      (proj2 (@normalizer_values_come_back readme_env 0
                (mkMatch "-5" [(1, "-5")] 0) true
                (mkState [("context", VNull)] [])) _ _ _) _);
      vm_compute; reflexivity.
Defined.

(** The facts the ladder tests on the token [$$x]. *)
Lemma runnable_token_facts (x : string) :
  plain_name x = true ->
  let y := String "$" (String "$" x) in
  String.eqb (toLowerCase y) "null" = false
  /\ String.eqb (toLowerCase y) "undefined" = false
  /\ String.eqb (toLowerCase y) "true" = false
  /\ String.eqb (toLowerCase y) "false" = false
  /\ is_number_literal y = false
  /\ is_float_literal y = false
  /\ has_math y = false
  /\ isRunnableVariable y = true
  /\ variable_path y = [VStr x].
Proof.
  intros Hx y.
  destruct (plain_name_facts x Hx)
    as (Hw & K1 & K2 & K3 & K4 & Hne & Hnum & Hfl & Hminus & Hvar).
  assert (Hdot : forall_string (fun c => negb (Ascii.eqb "." c)) x = true).
  { apply (forall_string_impl is_word); [| assumption].
    intros c Hc. destruct (word_char_facts c Hc) as (_ & _ & E & _). now rewrite E. }
  repeat split; try reflexivity.
  - unfold is_float_literal, y, split. cbn [strip_minus Ascii.eqb Bool.eqb].
    rewrite split_go_no_separator; [reflexivity |].
    cbn [forall_string]. now rewrite Hdot.
  - pose proof (has_math_word _ Hw) as Hm. unfold has_math in *.
    apply orb_false_elim in Hm. destruct Hm as [Hm H3].
    apply orb_false_elim in Hm. destruct Hm as [H1 H2].
    unfold y. cbn [exists_string includes].
    rewrite H1, H2, H3. reflexivity.
  - unfold variable_path, y. cbn [count_while Ascii.eqb Bool.eqb].
    assert (E : count_while (Ascii.eqb "$") x = 0).
    { destruct x as [| c x]; [reflexivity |]. cbn [count_while].
      unfold startsWith in Hvar. cbn [drop_prefix] in Hvar.
      destruct (Ascii.eqb "$" c); [discriminate | reflexivity]. }
    rewrite E. cbn [drop]. now rewrite (split_word_on_dot _ Hw).
Qed.

Lemma rev_string_app (s t : string) :
  forall acc : string, rev_string (s ++ t) acc = rev_string t (rev_string s acc).
Proof.
  induction s as [| c s IH]; intros acc; cbn [append rev_string];
    [reflexivity | apply IH].
Qed.

Lemma endsWith_wrapped (c d : ascii) (inner : string) :
  endsWith (String c (inner ++ String d "")) (String d "") = true.
Proof.
  unfold endsWith, startsWith. cbn [rev_string].
  rewrite rev_string_app. cbn [rev_string drop_prefix].
  now rewrite Ascii.eqb_refl.
Qed.

Lemma substring_prefix (a b : string) :
  substring 0 (String.length a) (a ++ b) = a.
Proof.
  induction a as [| c a IH]; cbn [String.length append substring].
  - destruct b; reflexivity.
  - now rewrite IH.
Qed.

Lemma length_snoc (s : string) (d : ascii) :
  String.length (s ++ String d "") = S (String.length s).
Proof.
  induction s as [| c s IH]; cbn [append String.length]; [reflexivity | now rewrite IH].
Qed.

Lemma strip_ends_wrapped (c d : ascii) (inner : string) :
  strip_ends (String c (inner ++ String d "")) = inner.
Proof.
  unfold strip_ends.
  assert (E : String.length (String c (inner ++ String d "")) - 2 = String.length inner).
  { cbn [String.length]. rewrite length_snoc. lia. }
  rewrite E. cbn [substring]. apply substring_prefix.
Qed.

Lemma ladder_take_outcome (run : ConvertRule -> Value -> M Value) (rule : ConvertRule)
    (rules : list ConvertRule) (v : Value) (st : State) :
  (forall payload s, run rule v st <> Throw (Continue payload) s) ->
  ladder run (rule :: rules) v st = run rule v st.
Proof.
  intros H. cbn [ladder].
  destruct (run rule v st) as [r s | [] s |] eqn:E; try reflexivity.
  exfalso. exact (H _ _ eq_refl).
Qed.

(** The token [$$x] converts to the forced evaluation of what [getVar]
    finds under [x], unless that evaluation ends with the signal Continue. *)
Lemma convert_runnable (env : Env) (n : nat) (x : string) (exec : bool)
    (v : Value) (st : State) :
  plain_name x = true ->
  getVar (VStr x) VUndefined st = Ok v st ->
  isNullish v = false ->
  isPromise v = false ->
  (forall payload s,
      variable_checkValue env (engine env (S n)) v false st <> Throw (Continue payload) s) ->
  convert env (engine env (S n)) (VStr (String "$" (String "$" x))) exec false st
  = variable_checkValue env (engine env (S n)) v false st.
Proof.
  intros Hx Hget Hnull Hprom Hcont.
  destruct (runnable_token_facts x Hx)
    as (K1 & K2 & K3 & K4 & Hnum & Hfl & Hmath & Hrun & Hpath).
  assert (Hcb : convert_callback env (engine env (S n)) IsVariable
                  (VStr (String "$" (String "$" x))) exec false st
                = variable_checkValue env (engine env (S n)) v false st).
  { cbn [convert_callback]. unfold isVariable_callback, on_string.
    replace (isVariable (String "$" (String "$" x))) with true by reflexivity.
    rewrite Hpath, Hrun.
    erewrite bind_ok; cycle 1.
    { apply convertArray_singleton. cbn [engine r_convert].
      apply convert_plain_name; [assumption | now left]. }
    assert (Hpathget : getVar (VArr [VStr x]) VUndefined st = Ok v st).
    { cbn [getVar]. erewrite bind_ok by exact Hget.
      cbn [getVar_walk]. destruct v; try discriminate; reflexivity. }
    erewrite bind_ok by exact Hpathget.
    rewrite Hnull. reflexivity. }
  unfold convert, convertSync, CONVERT.
  rewrite ladder_skip by reflexivity.
  rewrite ladder_skip by (cbn [convert_callback on_string]; now rewrite K1).
  rewrite ladder_skip by (cbn [convert_callback on_string]; now rewrite K2).
  rewrite ladder_skip by reflexivity.
  rewrite ladder_skip by (cbn [convert_callback on_string]; now rewrite K3).
  rewrite ladder_skip by (cbn [convert_callback on_string]; now rewrite K4).
  rewrite ladder_skip by (cbn [convert_callback on_string]; now rewrite Hnum).
  rewrite ladder_skip by (cbn [convert_callback on_string]; now rewrite Hfl).
  rewrite ladder_skip by reflexivity.
  rewrite ladder_skip
    by (cbn [convert_callback]; unfold isMath_callback, on_string; now rewrite Hmath).
  rewrite ladder_take_outcome; [exact Hcb |].
  intros payload s. rewrite Hcb. apply Hcont.
Qed.

(** X27.  A group the normalizer moves to the scope is run when its token
    is converted: for a group in parentheses the conversion is the run of
    the inner expression, with execution forced; for an array literal it is
    the conversion of the items between the commas, without execution, and
    the empty array when nothing but blanks stands between the brackets.
    The state both see is the one that holds the text of the group under
    its hash name.  (A run that ends with the signal Continue is handed to
    the next rule of the ladder instead.) *)
Theorem group_token_runs_inner (env : Env) (n : nat) (m : Match) (inner : string)
    (force : bool) (st : State) :
  let x := getVariableHash env (m_text m) true in
  let st' := mkState (update x (VStr (m_text m)) (scope st)) (vars st) in
  let run := (token <- braces_callback env m ;;
              convert env (engine env (S n)) token force false) st in
  plain_name x = true ->
  String.eqb x "__proto__" = false ->
  (m_text m = String "(" (inner ++ ")") ->
   (forall payload s,
       exec env (engine env n) inner true false st' <> Throw (Continue payload) s) ->
   run = exec env (engine env n) inner true false st')
  /\ (m_text m = String "[" (inner ++ "]") ->
      let items :=
        if isEmptyString (VStr inner) true then ret (VArr [])
        else convertArray (engine env (S n)) (map VStr (split inner ",")) false false in
      (forall payload s, items st' <> Throw (Continue payload) s) ->
      run = items st').
Proof.
  intros x st' run Hx Hproto.
  assert (Hrun : forall o,
             variable_checkValue env (engine env (S n)) (VStr (m_text m)) false st' = o ->
             (forall payload s, o <> Throw (Continue payload) s) ->
             run = o).
  { intros o Ho Hcont. subst o. unfold run, braces_callback. fold x.
    rewrite bind_assoc. erewrite bind_ok by (apply set_scope_ok; exact Hproto).
    unfold bind at 1. unfold ret at 1.
    change (getRunnableVariableName x) with (String "$" (String "$" x)).
    apply convert_runnable; try first [exact Hx | reflexivity | exact Hcont].
    apply getVar_scope_value; [apply obj_get_update_same | reflexivity]. }
  split.
  - intros Htext Hcont. apply Hrun; [| exact Hcont].
    rewrite Htext. unfold variable_checkValue.
    rewrite endsWith_wrapped, strip_ends_wrapped. reflexivity.
  - intros Htext items Hcont. apply Hrun; [| exact Hcont].
    rewrite Htext. unfold variable_checkValue.
    replace (startsWith (String "[" (inner ++ "]")) "(") with false by reflexivity.
    rewrite endsWith_wrapped, strip_ends_wrapped. reflexivity.
Qed.

Lemma group_token_runs_inner_witness :
  let st := mkState [("context", VNull)] [] in
  let group := mkMatch "(1+2)" [] 0 in
  let array := mkMatch "[1,2]" [] 0 in
  (token <- braces_callback readme_env group ;;
   convert readme_env (engine readme_env 6) token true false) st
  = Ok (VNum 3)
      (mkState (update (getVariableHash readme_env "(1+2)" true) (VStr "(1+2)") (scope st))
         (vars st))
  /\ (token <- braces_callback readme_env array ;;
      convert readme_env (engine readme_env 6) token true false) st
     = Ok (VArr [VNum 1; VNum 2])
         (mkState (update (getVariableHash readme_env "[1,2]" true) (VStr "[1,2]") (scope st))
            (vars st)).
Proof.
  split.
  - refine (eq_trans
      (proj1 (@group_token_runs_inner readme_env 5 (mkMatch "(1+2)" [] 0) "1+2" true
                (mkState [("context", VNull)] []) _ _) eq_refl _) _).
    + vm_compute; reflexivity.
    + vm_compute; reflexivity.
    + intros payload s. vm_compute. discriminate.
    + vm_compute; reflexivity.
  - refine (eq_trans
      (proj2 (@group_token_runs_inner readme_env 5 (mkMatch "[1,2]" [] 0) "1,2" true
                (mkState [("context", VNull)] []) _ _) eq_refl _) _).
    + vm_compute; reflexivity.
    + vm_compute; reflexivity.
    + intros payload s. vm_compute. discriminate.
    + vm_compute; reflexivity.
Defined.
